(** * SillyTavern-CharacterName: name resolution and display synchronisation

    A shallow embedding of the extension's two scripts:
    - [Module ChatName]: the script that hooks chat messages and patches the
      rendered chat (the script carried in [src/README.md]);
    - [Module CardHook]: the script that hooks the character's own [name]
      property ([src/index.js]).

    JavaScript strings are sequences of UTF-16 code units; [undefined] and
    [null] fields are [None]; a call that may raise returns a [result]. *)

From Stdlib Require Import NArith Ascii String.
From stdpp Require Import base option list strings gmap.

Local Open Scope N_scope.

(* ===================================================================== *)
(** ** JavaScript strings *)
(* ===================================================================== *)

Module JS.

(** A string value: its UTF-16 code units. *)
Abbreviation jsstring := (list N).

(** The code units of an ASCII literal. *)
Definition lit (s : String.string) : jsstring :=
  map N_of_ascii (list_ascii_of_string s).

(** Truthiness of a string-or-undefined value: [undefined], [null] and the
    empty string are falsy. *)
Definition truthy (v : option jsstring) : bool :=
  match v with
  | Some (_ :: _) => true
  | _ => false
  end.

(** [a || b] *)
Definition or_else (a b : option jsstring) : option jsstring :=
  if truthy a then a else b.

Notation "a 'orElse' b" := (or_else a b) (at level 51, right associativity).

(** [v || ''] where the result is used as a string. *)
Definition or_empty (v : option jsstring) : jsstring :=
  match v with
  | Some s => s
  | None => []
  end.

(** ECMAScript WhiteSpace and LineTerminator code units, the set stripped by
    [String.prototype.trim]. *)
Definition isWhiteSpace (c : N) : bool :=
  (c =? 0x09) || (c =? 0x0A) || (c =? 0x0B) || (c =? 0x0C) || (c =? 0x0D)
  || (c =? 0x20) || (c =? 0xA0) || (c =? 0x1680)
  || ((0x2000 <=? c) && (c <=? 0x200A))
  || (c =? 0x2028) || (c =? 0x2029) || (c =? 0x202F) || (c =? 0x205F)
  || (c =? 0x3000) || (c =? 0xFEFF).

Fixpoint trimStart (s : jsstring) : jsstring :=
  match s with
  | c :: s' => if isWhiteSpace c then trimStart s' else s
  | [] => []
  end.

Definition trimEnd (s : jsstring) : jsstring := rev (trimStart (rev s)).

Definition trim (s : jsstring) : jsstring := trimEnd (trimStart s).

(** [s.startsWith(p)] *)
Fixpoint startsWith (p s : jsstring) : bool :=
  match p, s with
  | [], _ => true
  | a :: p', b :: s' => (a =? b) && startsWith p' s'
  | _ :: _, [] => false
  end.

(** [s.includes(p)] *)
Fixpoint includes (s p : jsstring) : bool :=
  startsWith p s ||
  match s with
  | [] => false
  | _ :: s' => includes s' p
  end.

(** [a === b] on strings. *)
Definition str_eqb (a b : jsstring) : bool := bool_decide (a = b).

(** [s.split(sep)] for a one-unit separator: never empty. *)
Fixpoint split (sep : N) (s : jsstring) : list jsstring :=
  match s with
  | [] => [[]]
  | c :: s' =>
      if c =? sep then [] :: split sep s'
      else match split sep s' with
           | seg :: segs => (c :: seg) :: segs
           | [] => [[c]]
           end
  end.

(** [arr.pop()] read as a value, and [arr[0]]. *)
Definition pop (segs : list jsstring) : jsstring := List.last segs [].
Definition first (segs : list jsstring) : jsstring := List.hd [] segs.

(** *** Completion records *)

Inductive error := URIError | TypeError | HostError.

Inductive result (A : Type) :=
| Ok (a : A)
| Throw (e : error).
Arguments Ok {A} a.
Arguments Throw {A} e.

Definition bind {A B} (r : result A) (k : A -> result B) : result B :=
  match r with
  | Ok a => k a
  | Throw e => Throw e
  end.

(** *** Calls that thread a state and may raise *)

Definition M (St A : Type) : Type := St -> St * result A.

Definition ret {St A} (a : A) : M St A := fun c => (c, Ok a).

Definition seqM {St A B} (m : M St A) (k : A -> M St B) : M St B :=
  fun c => match m c with
           | (c', Ok a) => k a c'
           | (c', Throw e) => (c', Throw e)
           end.

Notation "x <- m ;; k" := (seqM m (fun x => k))
  (at level 63, m at next level, right associativity).
Notation "m ;;; k" := (seqM m (fun _ => k))
  (at level 63, right associativity).

(** [try { body } catch (e) { }], for handlers that only log: the effects
    made before the exception stay. *)
Definition try_catch {St} (body : M St unit) : M St unit :=
  fun c => (fst (body c), Ok tt).

(** *** [decodeURIComponent] (ECMA-262, Decode with an empty preserve set) *)

Definition hexDigit (c : N) : option N :=
  if (0x30 <=? c) && (c <=? 0x39) then Some (c - 0x30)
  else if (0x41 <=? c) && (c <=? 0x46) then Some (c - 0x41 + 10)
  else if (0x61 <=? c) && (c <=? 0x66) then Some (c - 0x61 + 10)
  else None.

(** ParseHexOctet at the head of [s]. *)
Definition ParseHexOctet (s : jsstring) : option N :=
  match s with
  | h :: l :: _ =>
      match hexDigit h, hexDigit l with
      | Some a, Some b => Some (16 * a + b)
      | _, _ => None
      end
  | _ => None
  end.

(** Number of leading 1 bits of an octet. *)
Definition leadingOnes (B : N) : nat :=
  if B <? 0x80 then 0%nat
  else if B <? 0xC0 then 1%nat
  else if B <? 0xE0 then 2%nat
  else if B <? 0xF0 then 3%nat
  else if B <? 0xF8 then 4%nat
  else 5%nat.

(** The [j] escapes [%XX] that must follow the first octet of a multi-byte
    sequence; [None] when one is cut short, is not an escape, or is not hex. *)
Fixpoint continuationOctets (j : nat) (s : jsstring) : option (list N) :=
  match j with
  | O => Some []
  | S j' =>
      match s with
      | p :: rest =>
          if p =? 0x25 then
            match ParseHexOctet rest with
            | Some B =>
                match continuationOctets j' (skipn 2 rest) with
                | Some Bs => Some (B :: Bs)
                | None => None
                end
            | None => None
            end
          else None
      | [] => None
      end
  end.

Definition isContinuation (B : N) : bool := (0x80 <=? B) && (B <? 0xC0).

(** The code point of a well-formed UTF-8 sequence of 2 to 4 octets; [None]
    for a bad continuation octet, an overlong form, a surrogate or a value
    above U+10FFFF. *)
Definition utf8CodePoint (octets : list N) : option N :=
  match octets with
  | [b0; b1] =>
      let V := (b0 - 0xC0) * 0x40 + (b1 - 0x80) in
      if isContinuation b1 && (0x80 <=? V) then Some V else None
  | [b0; b1; b2] =>
      let V := (b0 - 0xE0) * 0x1000 + (b1 - 0x80) * 0x40 + (b2 - 0x80) in
      if isContinuation b1 && isContinuation b2 && (0x800 <=? V)
         && negb ((0xD800 <=? V) && (V <=? 0xDFFF))
      then Some V else None
  | [b0; b1; b2; b3] =>
      let V := (b0 - 0xF0) * 0x40000 + (b1 - 0x80) * 0x1000
               + (b2 - 0x80) * 0x40 + (b3 - 0x80) in
      if isContinuation b1 && isContinuation b2 && isContinuation b3
         && (0x10000 <=? V) && (V <=? 0x10FFFF)
      then Some V else None
  | _ => None
  end.

Definition UTF16EncodeCodePoint (V : N) : jsstring :=
  if V <=? 0xFFFF then [V]
  else [(V - 0x10000) / 0x400 + 0xD800; (V - 0x10000) mod 0x400 + 0xDC00].

(** One escape starting just after a [%]: the decoded units and the number
    of code units it takes after that [%]. *)
Definition decodeEscape (rest : jsstring) : result (jsstring * nat) :=
  match ParseHexOctet rest with
  | None => Throw URIError
  | Some B =>
      match leadingOnes B with
      | O => Ok ([B], 2%nat)
      | 1%nat => Throw URIError
      | S (S (S (S (S _)))) => Throw URIError
      | S j =>
          match continuationOctets j (skipn 2 rest) with
          | None => Throw URIError
          | Some Bs =>
              match utf8CodePoint (B :: Bs) with
              | None => Throw URIError
              | Some V => Ok (UTF16EncodeCodePoint V, (2 + 3 * j)%nat)
              end
          end
      end
  end.

(** The decoding loop; [skip] counts code units already taken by the escape
    in progress. *)
Fixpoint decodeFrom (skip : nat) (s : jsstring) : result jsstring :=
  match s with
  | [] => Ok []
  | C :: rest =>
      match skip with
      | S k => decodeFrom k rest
      | O =>
          if C =? 0x25 then
            bind (decodeEscape rest) (fun '(unit_s, taken) =>
            bind (decodeFrom taken rest) (fun R => Ok (unit_s ++ R)))
          else bind (decodeFrom 0 rest) (fun R => Ok (C :: R))
      end
  end.

Definition decodeURIComponent (s : jsstring) : result jsstring :=
  decodeFrom 0 s.

End JS.

Import JS.


(* ===================================================================== *)
(** ** The chat-message script (carried in [src/README.md]) *)
(* ===================================================================== *)

Module ChatName.

(** *** Host data *)

(** A character card as the script reads it: [c.name], [c.avatar] and
    [c.data?.extensions?.['chat-name']?.chatName]. *)
Record character := {
  char_name : option jsstring;
  char_avatar : option jsstring;
  char_chatName : option jsstring;
}.

(** The [name] property of a message object: an ordinary data property, or
    the accessor installed by [applyPersistentName], whose closure holds the
    constant [chatName] and the variable [originalName]. *)
Inductive property :=
| Data (value : option jsstring) (configurable : bool)
| Accessor (chatName : jsstring) (originalName : option jsstring).

(** A chat message object. [processed] is its membership in the
    [processedMessages] weak set, which is keyed by the object itself. *)
Record message := {
  avatar : option jsstring;
  force_avatar : option jsstring;
  original_avatar : option jsstring;
  is_user : bool;
  is_system : bool;
  name : property;
  processed : bool;
}.

(** Reading [message.name]: the getter is [() => chatName || originalName]. *)
Definition get_name (m : message) : option jsstring :=
  match name m with
  | Data v _ => v
  | Accessor cn orig => Some cn orElse orig
  end.

Definition with_name (p : property) (m : message) : message :=
  {| avatar := avatar m; force_avatar := force_avatar m;
     original_avatar := original_avatar m; is_user := is_user m;
     is_system := is_system m; name := p; processed := processed m |}.

Definition mark_processed (m : message) : message :=
  {| avatar := avatar m; force_avatar := force_avatar m;
     original_avatar := original_avatar m; is_user := is_user m;
     is_system := is_system m; name := name m; processed := true |}.

(** Assigning [message.name = val]: the setter is
    [(val) => { originalName = val; }]. *)
Definition set_name (val : option jsstring) (m : message) : message :=
  match name m with
  | Data _ cfg => with_name (Data val cfg) m
  | Accessor cn _ => with_name (Accessor cn val) m
  end.

(** *** The rendered chat *)

(** A child node of a name element: a text node, a nested element, or a
    node of another kind (a comment). *)
Inductive childNode :=
| TextNode (data : jsstring)
| ElementNode
| OtherNode.

(** An element inside a message block, with the selectors of
    [applyNameOverrideToElement] that select it there.  Selector matching
    depends on tags, classes and nesting only, which the script never
    changes. *)
Record element := {
  matched_by : list String.string;
  childNodes : list childNode;
}.

(** A message block [.mes]: its descendant elements in document order. *)
Abbreviation mesElement := (list element).

(** *** The macro registries and the event bus *)

Inductive handler :=
| hostHandler
| nameGetter
| syncChatDataH
| handleGenerateBeforePromptH
| handleCharacterChangeH.

Inductive eventType :=
| CHARACTER_MESSAGE_RENDERED | MESSAGE_UPDATED | MESSAGE_RECEIVED
| STREAM_TOKEN_RECEIVED | GENERATE_BEFORE_COMBINE_PROMPTS
| CHAT_CHANGED | CHARACTER_SELECTED.

(** Calls into the host's macro engines.  A host may raise from any of them:
    [failing] lists the calls that do, [calls] records the calls made. *)
Inductive macroCall :=
| HasMacro | UnregisterMacro | RegisterMacro | RegisterProvider
| LegacyRegisterMacro.

Global Instance macroCall_eq_dec : EqDecision macroCall.
Proof. solve_decision. Defined.

(** [ctx.macros.registry]: the handler registered for [char], if any. *)
Record macroRegistry := {
  char_macro : option handler;
}.

(** [ctx.macros]: [registry] and [envBuilder.registerProvider] may be
    missing; [providers] counts the environment providers registered. *)
Record macroEngine := {
  registry : option macroRegistry;
  registerProvider : bool;
  providers : nat;
}.

(** The context object returned by [getContext()]. *)
Record context := {
  characters : list character;
  characterId : option nat;
  groupId : option jsstring;
  chat : option (list (option message));
  name2 : option jsstring;
  macros : option macroEngine;
  registerMacro : option (option handler);
  eventSource : option (list (eventType * handler));
  eventTypes : bool;
  failing : list macroCall;
  calls : list macroCall;
}.

(** [document]: the rendered message blocks by [mesid], the anchors the
    script looks up, and the number of text writes performed so far. *)
Record document := {
  rendered : gmap nat mesElement;
  chat_container : bool;
  tags_div : bool;
  chat_name_input : option jsstring;
  input_listeners : nat;
  text_writes : nat;
}.

(** The script's own variables. *)
Record state := {
  initialized : bool;
  eventListenersAttached : bool;
  chatObserver : bool;
  nameCache : gmap jsstring jsstring;
}.

Record world := {
  host : option context;
  doc : document;
  ext : state;
}.

(** [getContext()] *)
Definition getContext (w : world) : option context := host w.


(** *** Field updates *)

Definition set_chat (v : option (list (option message))) (c : context) : context :=
  {| characters := characters c; characterId := characterId c;
     groupId := groupId c; chat := v; name2 := name2 c; macros := macros c;
     registerMacro := registerMacro c; eventSource := eventSource c;
     eventTypes := eventTypes c; failing := failing c; calls := calls c |}.

Definition set_name2 (v : option jsstring) (c : context) : context :=
  {| characters := characters c; characterId := characterId c;
     groupId := groupId c; chat := chat c; name2 := v; macros := macros c;
     registerMacro := registerMacro c; eventSource := eventSource c;
     eventTypes := eventTypes c; failing := failing c; calls := calls c |}.

Definition set_macros (v : option macroEngine) (c : context) : context :=
  {| characters := characters c; characterId := characterId c;
     groupId := groupId c; chat := chat c; name2 := name2 c; macros := v;
     registerMacro := registerMacro c; eventSource := eventSource c;
     eventTypes := eventTypes c; failing := failing c; calls := calls c |}.

Definition set_registerMacro (v : option (option handler)) (c : context) : context :=
  {| characters := characters c; characterId := characterId c;
     groupId := groupId c; chat := chat c; name2 := name2 c; macros := macros c;
     registerMacro := v; eventSource := eventSource c;
     eventTypes := eventTypes c; failing := failing c; calls := calls c |}.

Definition set_eventSource (v : option (list (eventType * handler))) (c : context) : context :=
  {| characters := characters c; characterId := characterId c;
     groupId := groupId c; chat := chat c; name2 := name2 c; macros := macros c;
     registerMacro := registerMacro c; eventSource := v;
     eventTypes := eventTypes c; failing := failing c; calls := calls c |}.

Definition set_characters (v : list character) (c : context) : context :=
  {| characters := v; characterId := characterId c;
     groupId := groupId c; chat := chat c; name2 := name2 c; macros := macros c;
     registerMacro := registerMacro c; eventSource := eventSource c;
     eventTypes := eventTypes c; failing := failing c; calls := calls c |}.

Definition set_failing (v : list macroCall) (c : context) : context :=
  {| characters := characters c; characterId := characterId c;
     groupId := groupId c; chat := chat c; name2 := name2 c; macros := macros c;
     registerMacro := registerMacro c; eventSource := eventSource c;
     eventTypes := eventTypes c; failing := v; calls := calls c |}.

Definition set_rendered (v : gmap nat mesElement) (d : document) : document :=
  {| rendered := v; chat_container := chat_container d; tags_div := tags_div d;
     chat_name_input := chat_name_input d; input_listeners := input_listeners d;
     text_writes := text_writes d |}.

Definition add_text_writes (n : nat) (d : document) : document :=
  {| rendered := rendered d; chat_container := chat_container d;
     tags_div := tags_div d; chat_name_input := chat_name_input d;
     input_listeners := input_listeners d;
     text_writes := (text_writes d + n)%nat |}.

Definition set_chat_name_input (v : option jsstring) (d : document) : document :=
  {| rendered := rendered d; chat_container := chat_container d;
     tags_div := tags_div d; chat_name_input := v;
     input_listeners := input_listeners d; text_writes := text_writes d |}.

Definition add_input_listener (d : document) : document :=
  {| rendered := rendered d; chat_container := chat_container d;
     tags_div := tags_div d; chat_name_input := chat_name_input d;
     input_listeners := S (input_listeners d); text_writes := text_writes d |}.

Definition set_initialized (v : bool) (s : state) : state :=
  {| initialized := v; eventListenersAttached := eventListenersAttached s;
     chatObserver := chatObserver s; nameCache := nameCache s |}.

Definition set_eventListenersAttached (v : bool) (s : state) : state :=
  {| initialized := initialized s; eventListenersAttached := v;
     chatObserver := chatObserver s; nameCache := nameCache s |}.

Definition set_chatObserver (v : bool) (s : state) : state :=
  {| initialized := initialized s;
     eventListenersAttached := eventListenersAttached s;
     chatObserver := v; nameCache := nameCache s |}.

Definition set_nameCache (v : gmap jsstring jsstring) (s : state) : state :=
  {| initialized := initialized s;
     eventListenersAttached := eventListenersAttached s;
     chatObserver := chatObserver s; nameCache := v |}.

Definition upd_host (f : context -> context) (w : world) : world :=
  {| host := f <$> host w; doc := doc w; ext := ext w |}.

Definition upd_doc (f : document -> document) (w : world) : world :=
  {| host := host w; doc := f (doc w); ext := ext w |}.

Definition upd_ext (f : state -> state) (w : world) : world :=
  {| host := host w; doc := doc w; ext := f (ext w) |}.

(** *** Utility functions *)

(** [getCharacterForMessage]'s helper [normalizeAvatar]. *)
Definition normalizeAvatar (str : option jsstring) : result jsstring :=
  if negb (truthy str) then Ok []
  else
    let normalized := first (split 0x3F (pop (split 0x2F (or_empty str)))) in
    decodeURIComponent normalized.

(** [characters.find(c => normalizeAvatar(c.avatar) === target)]: the scan
    stops at the first hit, or at the first avatar that fails to decode. *)
Fixpoint findByAvatar (target : jsstring) (cs : list character)
  : result (option character) :=
  match cs with
  | [] => Ok None
  | c :: cs' =>
      bind (normalizeAvatar (char_avatar c)) (fun a =>
      if str_eqb a target then Ok (Some c) else findByAvatar target cs')
  end.

(** The identifier tried first:
    [message.avatar || message.force_avatar || message.original_avatar]. *)
Definition avatarOf (m : message) : option jsstring :=
  avatar m orElse force_avatar m orElse original_avatar m.

(** [(message.name || '').trim()] *)
Definition authorName (m : message) : jsstring := trim (or_empty (get_name m)).

(** Step 1: match by normalized avatar. *)
Definition matchAvatar (ctx : context) (m : message) : result (option character) :=
  bind (normalizeAvatar (avatarOf m)) (fun normalizedAvatar =>
  if truthy (Some normalizedAvatar)
  then findByAvatar normalizedAvatar (characters ctx)
  else Ok None).

(** Step 2: match by [original_avatar]. *)
Definition matchOriginalAvatar (ctx : context) (m : message) : result (option character) :=
  if truthy (original_avatar m) then
    bind (normalizeAvatar (original_avatar m)) (fun normOrig =>
    findByAvatar normOrig (characters ctx))
  else Ok None.

(** Step 3: exact name match, [c.name === name], tried when the author
    name is not empty. *)
Definition matchName (ctx : context) (m : message) : option character :=
  let nm := authorName m in
  if truthy (Some nm)
  then List.find (fun c => bool_decide (char_name c = Some nm)) (characters ctx)
  else None.

(** The predicate of step 3b. *)
Definition fuzzy (nm : jsstring) (c : character) : bool :=
  let charName := trim (or_empty (char_name c)) in
  (2 <? length charName)%nat && (includes nm charName || includes charName nm).

(** Step 3b: fuzzy name match, one name containing the other, tried when
    the author name is not empty. *)
Definition matchFuzzy (ctx : context) (m : message) : option character :=
  let nm := authorName m in
  if truthy (Some nm) then List.find (fuzzy nm) (characters ctx) else None.

(** Step 4: the current character of a one-to-one chat. *)
Definition currentCharacter (ctx : context) : option character :=
  match characterId ctx with
  | Some i => if negb (truthy (groupId ctx)) then characters ctx !! i else None
  | None => None
  end.

Definition getCharacterForMessage (w : world) (message : option message)
  : result (option character) :=
  match getContext w, message with
  | Some ctx, Some m =>
      bind (matchAvatar ctx m) (fun avatarMatch =>
      match avatarMatch with
      | Some c => Ok (Some c)
      | None =>
          bind (matchOriginalAvatar ctx m) (fun originalMatch =>
          match originalMatch with
          | Some c => Ok (Some c)
          | None =>
              match matchName ctx m with
              | Some c => Ok (Some c)
              | None =>
                  match matchFuzzy ctx m with
                  | Some c => Ok (Some c)
                  | None => Ok (currentCharacter ctx)
                  end
              end
          end)
      end)
  | _, _ => Ok None
  end.

(** [getSelectedCharacter] *)
Definition getSelectedCharacter (w : world) : option character :=
  match getContext w with
  | Some ctx =>
      match characterId ctx with
      | Some i => characters ctx !! i
      | None => None
      end
  | None => None
  end.

(** [getChatName]: [customName?.trim() || character.name || '']. *)
Definition getChatName (character : option character) : jsstring :=
  match character with
  | None => []
  | Some c => or_empty ((trim <$> char_chatName c) orElse char_name c)
  end.


(** *** UI functions *)

(** [applyPersistentName].  [Object.defineProperty] raises exactly when the
    existing [name] property is not configurable; the [catch] branch then
    assigns the chat name directly and leaves the weak set alone. *)
Definition applyPersistentName (m : message) (chatName : jsstring) : message :=
  if processed m || negb (truthy (Some chatName)) then m
  else
    let originalName := get_name m in
    match name m with
    | Data _ false => set_name (Some chatName) m
    | _ => mark_processed (with_name (Accessor chatName originalName) m)
    end.

Definition selectors : list String.string :=
  [".ch_name .name_text"; ".mes_header .name"; ".ch_name"; ".name_text";
   ".mes_name"; ".mesHeader_name"; ".ch_name span"; ".mes_header span"]%string.

(** [messageElement.querySelector(selector)]: the first element in document
    order, with its position. *)
Definition querySelector (el : mesElement) (selector : String.string)
  : option (nat * element) :=
  list_find (fun e => selector ∈ matched_by e) el.

Definition isElementNode (n : childNode) : bool :=
  match n with ElementNode => true | _ => false end.

(** [nameElement.children.length === 0] *)
Definition noChildren (e : element) : bool :=
  negb (existsb isElementNode (childNodes e)).

(** [textContent] of an element without nested elements. *)
Definition textContent (e : element) : jsstring :=
  concat (map (fun n => match n with TextNode d => d | _ => [] end) (childNodes e)).

Definition with_childNodes (ns : list childNode) (e : element) : element :=
  {| matched_by := matched_by e; childNodes := ns |}.

(** [nameElement.textContent = value]: every child is replaced by one text
    node, or by nothing when the value is empty. *)
Definition setTextContent (value : jsstring) (e : element) : element :=
  with_childNodes (match value with [] => [] | _ => [TextNode value] end) e.

(** The loop over [nameElement.childNodes]: the first text node that is not
    blank is compared, trimmed, with [chatName] and rewritten when they
    differ.  [None] when no such node exists; otherwise the new children and
    the number of writes. *)
Fixpoint overrideFirstText (chatName : option jsstring) (ns : list childNode)
  : option (list childNode * nat) :=
  match ns with
  | [] => None
  | TextNode d :: ns' =>
      if (0 <? length (trim d))%nat then
        if bool_decide (Some (trim d) ≠ chatName)
        then Some (TextNode (or_empty chatName) :: ns', 1%nat)
        else Some (ns, 0%nat)
      else
        match overrideFirstText chatName ns' with
        | Some (ns'', k) => Some (TextNode d :: ns'', k)
        | None => None
        end
  | n :: ns' =>
      match overrideFirstText chatName ns' with
      | Some (ns'', k) => Some (n :: ns'', k)
      | None => None
      end
  end.

(** The loop over [selectors] of [applyNameOverrideToElement]. *)
Fixpoint applyNameOverrideLoop (sels : list String.string) (messageElement : mesElement)
    (chatName : option jsstring) : mesElement * nat :=
  match sels with
  | [] => (messageElement, 0%nat)
  | selector :: sels' =>
      match querySelector messageElement selector with
      | Some (i, nameElement) =>
          if noChildren nameElement then
            if bool_decide (Some (textContent nameElement) ≠ chatName)
            then (<[i := setTextContent (or_empty chatName) nameElement]> messageElement, 1%nat)
            else (messageElement, 0%nat)
          else
            match overrideFirstText chatName (childNodes nameElement) with
            | Some (ns, k) => (<[i := with_childNodes ns nameElement]> messageElement, k)
            | None => applyNameOverrideLoop sels' messageElement chatName
            end
      | None => applyNameOverrideLoop sels' messageElement chatName
      end
  end.

(** [applyNameOverrideToElement]: the patched block and the text writes made. *)
Definition applyNameOverrideToElement (messageElement : mesElement)
    (chatName : option jsstring) : mesElement * nat :=
  applyNameOverrideLoop selectors messageElement chatName.

(** [updateUIName] *)
Definition updateUIName (messageId : nat) (w : world) : world :=
  match getContext w with
  | None => w
  | Some ctx =>
      match chat ctx with
      | None => w
      | Some msgs =>
          match msgs !! messageId with
          | Some (Some m) =>
              if is_user m || is_system m then w
              else
                match rendered (doc w) !! messageId with
                | Some messageElement =>
                    let '(el, k) := applyNameOverrideToElement messageElement (get_name m) in
                    upd_doc (fun d => add_text_writes k (set_rendered (<[messageId := el]> (rendered d)) d)) w
                | None => w
                end
          | _ => w
          end
      end
  end.

(** [message.avatar || message.force_avatar || message.original_avatar || message.name] *)
Definition cacheKey (m : message) : option jsstring :=
  avatarOf m orElse get_name m.

(** [nameCache.get(cacheKey)]; only string keys are ever stored. *)
Definition cacheGet (cache : gmap jsstring jsstring) (key : option jsstring)
  : option jsstring :=
  match key with
  | Some k => cache !! k
  | None => None
  end.

(** [ctx.chat[id] = m], the message objects being shared with the host. *)
Definition storeMessage (id : nat) (m : message) (w : world) : world :=
  upd_host (fun c => set_chat (<[id := Some m]> <$> chat c) c) w.

(** The body of the [forEach] of [syncChatData]. *)
Definition syncMessage (id : nat) (w : world) : world * result unit :=
  match getContext w with
  | None => (w, Ok tt)
  | Some ctx =>
      match chat ctx with
      | None => (w, Ok tt)
      | Some msgs =>
          match msgs !! id with
          | Some (Some message) =>
              if is_user message || is_system message then (w, Ok tt)
              else
                let key := cacheKey message in
                let resolved :=
                  match cacheGet (nameCache (ext w)) key with
                  | Some chatName => Ok (chatName, w)
                  | None =>
                      bind (getCharacterForMessage w (Some message)) (fun character =>
                      let chatName := getChatName character in
                      Ok (chatName,
                          if truthy key
                          then upd_ext (fun s => set_nameCache (<[or_empty key := chatName]> (nameCache s)) s) w
                          else w))
                  end in
                match resolved with
                | Throw e => (w, Throw e)
                | Ok (chatName, w1) =>
                    if truthy (Some chatName) then
                      let w2 := storeMessage id (applyPersistentName message chatName) w1 in
                      (updateUIName id w2, Ok tt)
                    else (w1, Ok tt)
                end
          | _ => (w, Ok tt)
          end
      end
  end.

(** [array.forEach]: the indices in order, stopping when the body raises. *)
Fixpoint forEach (body : nat -> world -> world * result unit) (ids : list nat)
    (w : world) : world * result unit :=
  match ids with
  | [] => (w, Ok tt)
  | id :: ids' =>
      match body id w with
      | (w', Ok _) => forEach body ids' w'
      | (w', Throw e) => (w', Throw e)
      end
  end.

(** Step 1 of [syncChatData]: override [name2] in a one-to-one chat. *)
Definition overrideName2 (ctx : context) (w : world) : world :=
  match characterId ctx with
  | Some i =>
      if negb (truthy (groupId ctx)) then
        let chatName := getChatName (characters ctx !! i) in
        if truthy (Some chatName) && bool_decide (name2 ctx ≠ Some chatName)
        then upd_host (set_name2 (Some chatName)) w
        else w
      else w
  | None => w
  end.

(** [syncChatData] *)
Definition syncChatData (w : world) : world * result unit :=
  match getContext w with
  | None => (w, Ok tt)
  | Some ctx =>
      match chat ctx with
      | None => (w, Ok tt)
      | Some msgs => forEach syncMessage (seq 0 (length msgs)) (overrideName2 ctx w)
      end
  end.

(** [updateAllNames] *)
Definition updateAllNames (w : world) : world * result unit :=
  syncChatData (upd_ext (set_nameCache ∅) w).


Definition log_call (k : macroCall) (c : context) : context :=
  {| characters := characters c; characterId := characterId c;
     groupId := groupId c; chat := chat c; name2 := name2 c; macros := macros c;
     registerMacro := registerMacro c; eventSource := eventSource c;
     eventTypes := eventTypes c; failing := failing c; calls := calls c ++ [k] |}.

(** [setupChatObserver] *)
Definition setupChatObserver (w : world) : world :=
  if negb (chat_container (doc w)) || chatObserver (ext w) then w
  else upd_ext (set_chatObserver true) w.

(** [loadChatNameToField] *)
Definition loadChatNameToField (w : world) : world :=
  match chat_name_input (doc w) with
  | None => w
  | Some _ =>
      let char := getSelectedCharacter w in
      upd_doc (set_chat_name_input (Some (or_empty ((char ≫= char_chatName) orElse Some [])))) w
  end.

(** [addInputField] *)
Definition addInputField (w : world) : world :=
  match chat_name_input (doc w) with
  | Some _ => w
  | None =>
      if negb (tags_div (doc w)) then w
      else loadChatNameToField (upd_doc (fun d => add_input_listener (set_chat_name_input (Some []) d)) w)
  end.

(** The host's [writeExtensionField(characterId, 'chat-name', { chatName })]:
    it stores the value under the character's extension data. *)
Definition writeExtensionField (i : nat) (value : jsstring) (ctx : context) : context :=
  set_characters
    (alter (fun c => {| char_name := char_name c; char_avatar := char_avatar c;
                        char_chatName := Some value |}) i (characters ctx)) ctx.

(** The [input] listener installed by [addInputField]. *)
Definition handleInput (w : world) : world :=
  match getContext w, chat_name_input (doc w) with
  | Some ctx, Some value =>
      match characterId ctx with
      | Some i => upd_host (writeExtensionField i value) w
      | None => w
      end
  | _, _ => w
  end.

(** *** Core overrides *)

(** [handleGenerateBeforePrompt], on the [name2] field of its argument. *)
Definition handleGenerateBeforePrompt (w : world) (data_name2 : option jsstring)
  : option jsstring :=
  let chatName := getChatName (getSelectedCharacter w) in
  if truthy (Some chatName) && truthy data_name2 then Some chatName else data_name2.

(** One call into the host: recorded, then raising or taking effect. *)
Definition hostCall {A} (k : macroCall) (effect : context -> context * A) : M context A :=
  fun c =>
    let c' := log_call k c in
    if bool_decide (k ∈ failing c') then (c', Throw HostError)
    else let '(c'', a) := effect c' in (c'', Ok a).

(** [ctx.macros.registry], a [TypeError] when [macros] has no registry. *)
Definition theRegistry : M context macroRegistry :=
  fun c => match macros c ≫= registry with
           | Some r => (c, Ok r)
           | None => (c, Throw TypeError)
           end.

Definition set_char_macro (h : option handler) (c : context) : context :=
  set_macros
    ((fun e => {| registry := Some {| char_macro := h |};
                  registerProvider := registerProvider e;
                  providers := providers e |}) <$> macros c) c.

Definition add_provider (c : context) : context :=
  set_macros
    ((fun e => {| registry := registry e;
                  registerProvider := registerProvider e;
                  providers := S (providers e) |}) <$> macros c) c.

(** The body of the [try] block for the new macro engine. *)
Definition registerNewEngine : M context unit :=
  r <- theRegistry ;;
  has <- hostCall HasMacro (fun c => (c, bool_decide (is_Some (char_macro r)))) ;;
  (if has : bool
   then hostCall UnregisterMacro (fun c => (set_char_macro None c, tt))
   else ret tt) ;;;
  hostCall RegisterMacro (fun c => (set_char_macro (Some nameGetter) c, tt)) ;;;
  fun c =>
    if (from_option registerProvider false (macros c))
    then hostCall RegisterProvider (fun c => (add_provider c, tt)) c
    else ret tt c.

(** The body of the [try] block for the legacy macro system. *)
Definition registerLegacy : M context unit :=
  hostCall LegacyRegisterMacro (fun c => (set_registerMacro (Some (Some nameGetter)) c, tt)).

(** [if (ctx.macros) { try { ... } catch (e) { console.warn(...) } }] *)
Definition newEngineStage : M context unit :=
  fun c => if bool_decide (is_Some (macros c))
           then try_catch registerNewEngine c else ret tt c.

(** [if (ctx.registerMacro) { try { ... } catch (e) {} }] *)
Definition legacyStage : M context unit :=
  fun c => if bool_decide (is_Some (registerMacro c))
           then try_catch registerLegacy c else ret tt c.

(** [registerMacroOverrides], on the context. *)
Definition registerMacroOverridesCtx : M context unit :=
  newEngineStage ;;; legacyStage.

(** [registerMacroOverrides] *)
Definition registerMacroOverrides (w : world) : world * result unit :=
  match getContext w with
  | None => (w, Ok tt)
  | Some ctx =>
      let '(ctx', r) := registerMacroOverridesCtx ctx in
      ({| host := Some ctx'; doc := doc w; ext := ext w |}, r)
  end.

(** *** Lifecycle *)

(** [handleCharacterChange] *)
Definition handleCharacterChange (w : world) : world * result unit :=
  match updateAllNames (loadChatNameToField (addInputField w)) with
  | (w', Ok _) => (setupChatObserver w', Ok tt)
  | (w', Throw e) => (w', Throw e)
  end.

Definition subscriptions : list (eventType * handler) :=
  [(CHARACTER_MESSAGE_RENDERED, syncChatDataH); (MESSAGE_UPDATED, syncChatDataH);
   (MESSAGE_RECEIVED, syncChatDataH); (STREAM_TOKEN_RECEIVED, syncChatDataH);
   (GENERATE_BEFORE_COMBINE_PROMPTS, handleGenerateBeforePromptH);
   (CHAT_CHANGED, handleCharacterChangeH);
   (CHARACTER_SELECTED, handleCharacterChangeH)].

(** [attachEventListeners(ctx)], with [ctx] the context in [w]; reading
    [ctx.eventSource] on a missing context is a [TypeError]. *)
Definition attachEventListeners (w : world) : world * result unit :=
  if eventListenersAttached (ext w) then (w, Ok tt)
  else
    match host w with
    | None => (w, Throw TypeError)
    | Some ctx =>
        match eventSource ctx with
        | Some subs =>
            if eventTypes ctx then
              (upd_ext (set_eventListenersAttached true)
                 (upd_host (set_eventSource (Some (subs ++ subscriptions))) w), Ok tt)
            else (w, Ok tt)
        | None => (w, Ok tt)
        end
    end.

(** [initialize(ctx)] *)
Definition initialize (w : world) : world * result unit :=
  if initialized (ext w) then (w, Ok tt)
  else
    match registerMacroOverrides (addInputField w) with
    | (w1, Throw e) => (w1, Throw e)
    | (w1, Ok _) =>
        match attachEventListeners w1 with
        | (w2, Throw e) => (w2, Throw e)
        | (w2, Ok _) =>
            match updateAllNames (setupChatObserver w2) with
            | (w3, Throw e) => (w3, Throw e)
            | (w3, Ok _) => (upd_ext (set_initialized true) w3, Ok tt)
            end
        end
    end.

Definition INIT_TIMEOUT : N := 10000.
Definition INIT_CHECK_INTERVAL : N := 100.

(** The variables of [waitForContext]: the attempt counter and whether the
    interval timer is still armed. *)
Record poller := {
  attempts : N;
  armed : bool;
}.

(** One firing of the interval callback of [waitForContext]. *)
Definition tick (p : poller) (w : world) : poller * (world * result unit) :=
  if negb (armed p) then (p, (w, Ok tt))
  else
    let attempts' := attempts p + 1 in
    let maxAttempts := INIT_TIMEOUT / INIT_CHECK_INTERVAL in
    match getContext w with
    | Some _ => ({| attempts := attempts'; armed := false |}, initialize w)
    | None =>
        if maxAttempts <=? attempts'
        then ({| attempts := attempts'; armed := false |}, (w, Ok tt))
        else ({| attempts := attempts'; armed := true |}, (w, Ok tt))
    end.

End ChatName.

(* ===================================================================== *)
(** ** The character-hook script ([src/index.js]) *)
(* ===================================================================== *)

Module CardHook.

(** The [name] property of a character object: an ordinary data property,
    or the accessor installed by [hookCharacterName]. *)
Inductive nameProperty :=
| Plain (value : option jsstring)
| Hooked.

(** A character object with the fields the script reads and adds:
    [chatName] is [data?.extensions?.['chat-name']?.chatName]. *)
Record character := {
  name : nameProperty;
  _originalName : option jsstring;
  _chatNameHooked : bool;
  chatName : option jsstring;
}.

Inductive handler := hostHandler | getChatNameH | handleCharacterChangeH.

Inductive eventType := CHAT_CHANGED | CHARACTER_SELECTED.

Inductive macroCall :=
| HasMacro | UnregisterMacro | RegisterMacro | LegacyRegisterMacro.

Global Instance macroCall_eq_dec : EqDecision macroCall.
Proof. solve_decision. Defined.

(** The page: the context returned by [getContext()] ([has_context] tells
    whether there is one), [window.macros?.registry] with the handler it
    holds for [char], the editor panel, and the script's two flags.
    [failing] lists the host calls that raise, [calls] the calls made. *)
Record world := {
  has_context : bool;
  characters : list character;
  characterId : option nat;
  registerMacro : option (option handler);
  eventSource : option (list (eventType * handler));
  event_types : bool;
  registry : option (option handler);
  failing : list macroCall;
  calls : list macroCall;
  tags_div : bool;
  chat_name_input : option jsstring;
  input_listeners : nat;
  initialized : bool;
  eventListenersAttached : bool;
}.

Definition set_characters (v : list character) (w : world) : world :=
  {| has_context := has_context w; characters := v; characterId := characterId w;
     registerMacro := registerMacro w; eventSource := eventSource w;
     event_types := event_types w; registry := registry w; failing := failing w;
     calls := calls w; tags_div := tags_div w; chat_name_input := chat_name_input w;
     input_listeners := input_listeners w; initialized := initialized w;
     eventListenersAttached := eventListenersAttached w |}.

Definition set_registerMacro (v : option (option handler)) (w : world) : world :=
  {| has_context := has_context w; characters := characters w; characterId := characterId w;
     registerMacro := v; eventSource := eventSource w;
     event_types := event_types w; registry := registry w; failing := failing w;
     calls := calls w; tags_div := tags_div w; chat_name_input := chat_name_input w;
     input_listeners := input_listeners w; initialized := initialized w;
     eventListenersAttached := eventListenersAttached w |}.

Definition set_registry (v : option (option handler)) (w : world) : world :=
  {| has_context := has_context w; characters := characters w; characterId := characterId w;
     registerMacro := registerMacro w; eventSource := eventSource w;
     event_types := event_types w; registry := v; failing := failing w;
     calls := calls w; tags_div := tags_div w; chat_name_input := chat_name_input w;
     input_listeners := input_listeners w; initialized := initialized w;
     eventListenersAttached := eventListenersAttached w |}.

Definition log_call (k : macroCall) (w : world) : world :=
  {| has_context := has_context w; characters := characters w; characterId := characterId w;
     registerMacro := registerMacro w; eventSource := eventSource w;
     event_types := event_types w; registry := registry w; failing := failing w;
     calls := calls w ++ [k]; tags_div := tags_div w; chat_name_input := chat_name_input w;
     input_listeners := input_listeners w; initialized := initialized w;
     eventListenersAttached := eventListenersAttached w |}.

Definition set_listeners (subs : option (list (eventType * handler))) (w : world) : world :=
  {| has_context := has_context w; characters := characters w; characterId := characterId w;
     registerMacro := registerMacro w; eventSource := subs;
     event_types := event_types w; registry := registry w; failing := failing w;
     calls := calls w; tags_div := tags_div w; chat_name_input := chat_name_input w;
     input_listeners := input_listeners w; initialized := initialized w;
     eventListenersAttached := true |}.

Definition set_input (v : option jsstring) (listeners : nat) (w : world) : world :=
  {| has_context := has_context w; characters := characters w; characterId := characterId w;
     registerMacro := registerMacro w; eventSource := eventSource w;
     event_types := event_types w; registry := registry w; failing := failing w;
     calls := calls w; tags_div := tags_div w; chat_name_input := v;
     input_listeners := listeners; initialized := initialized w;
     eventListenersAttached := eventListenersAttached w |}.

Definition set_initialized (v : bool) (w : world) : world :=
  {| has_context := has_context w; characters := characters w; characterId := characterId w;
     registerMacro := registerMacro w; eventSource := eventSource w;
     event_types := event_types w; registry := registry w; failing := failing w;
     calls := calls w; tags_div := tags_div w; chat_name_input := chat_name_input w;
     input_listeners := input_listeners w; initialized := v;
     eventListenersAttached := eventListenersAttached w |}.

(** *** Utility functions *)

(** [getCurrentCharacter], with its position in [ctx.characters]. *)
Definition getCurrentCharacter (w : world) : option (nat * character) :=
  if negb (has_context w) then None
  else
    match characterId w with
    | Some i => (fun c => (i, c)) <$> characters w !! i
    | None => None
    end.

(** [chatName?.trim()] *)
Definition trimmedChatName (c : character) : option jsstring :=
  trim <$> chatName c.

(** Reading [char.name].  [fromMacros] tells whether the call stack names
    one of [evaluateMacros], [substituteParams], [MacrosParser]. *)
Definition get_name (fromMacros : bool) (c : character) : option jsstring :=
  match name c with
  | Plain v => v
  | Hooked =>
      if fromMacros && truthy (trimmedChatName c) then trimmedChatName c
      else _originalName c
  end.

(** Assigning [char.name = value]. *)
Definition set_name (value : option jsstring) (c : character) : character :=
  match name c with
  | Plain _ =>
      {| name := Plain value; _originalName := _originalName c;
         _chatNameHooked := _chatNameHooked c; chatName := chatName c |}
  | Hooked =>
      {| name := Hooked; _originalName := value;
         _chatNameHooked := _chatNameHooked c; chatName := chatName c |}
  end.

(** [getChatName]: [trimmedChatName || char._originalName || char.name || '']. *)
Definition getChatName (fromMacros : bool) (w : world) : jsstring :=
  match getCurrentCharacter w with
  | None => []
  | Some (_, char) =>
      or_empty (trimmedChatName char orElse _originalName char
                orElse get_name fromMacros char)
  end.

(** *** UI functions *)

(** [loadChatNameToField] *)
Definition loadChatNameToField (w : world) : world :=
  match chat_name_input w with
  | None => w
  | Some _ =>
      match getCurrentCharacter w with
      | None => set_input (Some []) (input_listeners w) w
      | Some (_, char) =>
          set_input (Some (or_empty (chatName char orElse Some []))) (input_listeners w) w
      end
  end.

(** [addInputField] *)
Definition addInputField (w : world) : world :=
  match chat_name_input w with
  | Some _ => w
  | None =>
      if negb (tags_div w) then w
      else loadChatNameToField (set_input (Some []) (S (input_listeners w)) w)
  end.

(** [handleInputChange], the host's [writeExtensionField] storing the value
    under the character's extension data. *)
Definition handleInputChange (w : world) : world :=
  match has_context w, characterId w, chat_name_input w with
  | true, Some i, Some value =>
      set_characters
        (alter (fun c => {| name := name c; _originalName := _originalName c;
                            _chatNameHooked := _chatNameHooked c;
                            chatName := Some value |}) i (characters w)) w
  | _, _, _ => w
  end.

(** *** Macro override *)

(** [hookCharacterName], on the character object. *)
Definition hook (char : character) : character :=
  if _chatNameHooked char then char
  else
    {| name := Hooked;
       _originalName := if negb (truthy (_originalName char))
                        then get_name false char else _originalName char;
       _chatNameHooked := true;
       chatName := chatName char |}.

(** [hookCharacterName] *)
Definition hookCharacterName (w : world) : world :=
  match getCurrentCharacter w with
  | None => w
  | Some (i, char) => set_characters (<[i := hook char]> (characters w)) w
  end.

(** One call into a macro registry: recorded, then raising or taking effect. *)
Definition hostCall {A} (k : macroCall) (effect : world -> world * A) : M world A :=
  fun w =>
    let w' := log_call k w in
    if bool_decide (k ∈ failing w') then (w', Throw HostError)
    else let '(w'', a) := effect w' in (w'', Ok a).

(** The body of the [try] block for the new macro system. *)
Definition registerNewSystem : M world unit :=
  has <- hostCall HasMacro (fun w => (w, bool_decide (is_Some (registry w ≫= id)))) ;;
  (if has : bool
   then hostCall UnregisterMacro (fun w => (set_registry (Some None) w, tt))
   else ret tt) ;;;
  hostCall RegisterMacro (fun w => (set_registry (Some (Some getChatNameH)) w, tt)).

(** The body of the [try] block for the old macro system. *)
Definition registerOldSystem : M world unit :=
  hostCall LegacyRegisterMacro (fun w => (set_registerMacro (Some (Some getChatNameH)) w, tt)).

(** [if (window.macros?.registry) { try { ... } catch (error) { ... } }] *)
Definition newSystemStage : M world unit :=
  fun w => if bool_decide (is_Some (registry w))
           then try_catch registerNewSystem w else ret tt w.

(** [if (ctx.registerMacro) { try { ... } catch (error) { ... } }] *)
Definition oldSystemStage : M world unit :=
  fun w => if bool_decide (is_Some (registerMacro w))
           then try_catch registerOldSystem w else ret tt w.

(** [registerMacroOverrides] *)
Definition registerMacroOverrides : M world unit :=
  fun w =>
    if negb (has_context w) then (w, Ok tt)
    else
      (newSystemStage ;;; oldSystemStage ;;;
       (fun w => (hookCharacterName w, Ok tt))) w.

(** *** Event handlers and initialization *)

(** [handleCharacterChange] *)
Definition handleCharacterChange (w : world) : world :=
  hookCharacterName (loadChatNameToField (addInputField w)).

(** [attachEventListeners(ctx)], with [ctx] the context of [w]; reading
    [ctx.eventSource] on a missing context is a [TypeError]. *)
Definition attachEventListeners : M world unit :=
  fun w =>
    if eventListenersAttached w then (w, Ok tt)
    else if negb (has_context w) then (w, Throw TypeError)
    else
      match eventSource w with
      | Some subs =>
          if event_types w then
            (set_listeners (Some (subs ++ [(CHAT_CHANGED, handleCharacterChangeH);
                                           (CHARACTER_SELECTED, handleCharacterChangeH)])) w,
             Ok tt)
          else (w, Ok tt)
      | None => (w, Ok tt)
      end.

(** [initialize(ctx)] *)
Definition initialize : M world unit :=
  fun w =>
    if initialized w then (w, Ok tt)
    else
      ((fun w => (addInputField w, Ok tt)) ;;;
       registerMacroOverrides ;;;
       attachEventListeners ;;;
       (fun w => (set_initialized true w, Ok tt))) w.

End CardHook.


(* ===================================================================== *)
(** ** Vocabulary of the properties *)
(* ===================================================================== *)

(** An override that is absent, empty or made of white space only. *)
Definition blank (override : option jsstring) : Prop :=
  match override with
  | None => True
  | Some o => trim o = []
  end.

(** The card name of a character of [CardHook]: the value of [name] while it
    is an ordinary property, the stored original once the accessor is in. *)
Definition cardName (c : CardHook.character) : option jsstring :=
  match CardHook.name c with
  | CardHook.Plain v => v
  | CardHook.Hooked => CardHook._originalName c
  end.

(** What [hookCharacterName] maintains: [_originalName] is only present on
    a character whose [name] is the accessor. *)
Definition hook_inv (c : CardHook.character) : Prop :=
  CardHook.name c = CardHook.Hooked ∨ CardHook._originalName c = None.

(** Whether [Object.defineProperty(message, 'name', ...)] is permitted. *)
Definition configurable (m : ChatName.message) : bool :=
  match ChatName.name m with
  | ChatName.Data _ false => false
  | _ => true
  end.

(** What the host, or the script again, may later do to a message. *)
Inductive access :=
| Assign (val : option jsstring)
| Reapply (chatName : jsstring).

Definition perform (m : ChatName.message) (a : access) : ChatName.message :=
  match a with
  | Assign val => ChatName.set_name val m
  | Reapply chatName => ChatName.applyPersistentName m chatName
  end.

(** A message carrying the accessor installed for [cn]. *)
Definition installed (cn : jsstring) (m : ChatName.message) : Prop :=
  ChatName.processed m = true ∧ ∃ o, ChatName.name m = ChatName.Accessor cn o.

(** The message object at position [id] of the transcript, and the block
    rendered for it. *)
Definition msgAt (id : nat) (w : ChatName.world) : option (option ChatName.message) :=
  match ChatName.host w with
  | Some ctx =>
      match ChatName.chat ctx with
      | Some msgs => msgs !! id
      | None => None
      end
  | None => None
  end.

Definition blockAt (id : nat) (w : ChatName.world) : option ChatName.mesElement :=
  ChatName.rendered (ChatName.doc w) !! id.

(** The message at [id] is [m] and its block is [R]. *)
Definition kept (id : nat) (m : ChatName.message) (R : option ChatName.mesElement)
    (w : ChatName.world) : Prop :=
  msgAt id w = Some (Some m) ∧ blockAt id w = R.

(** The entry points that touch messages and their blocks: the
    synchronizer, the DOM updater (also run by the chat observer) and the
    full refresh. *)
Inductive invocation :=
| SyncChatData
| UpdateUIName (messageId : nat)
| UpdateAllNames.

Definition invoke (w : ChatName.world) (i : invocation) : ChatName.world :=
  match i with
  | SyncChatData => fst (ChatName.syncChatData w)
  | UpdateUIName messageId => ChatName.updateUIName messageId w
  | UpdateAllNames => fst (ChatName.updateAllNames w)
  end.

(** The user types [value] in the editor field: the field's [input]
    listener stores it as the override of the selected character. *)
Definition typeChatName (value : jsstring) (w : ChatName.world) : ChatName.world :=
  ChatName.handleInput (ChatName.upd_doc (ChatName.set_chat_name_input (Some value)) w).

(** [n] firings of the interval timer of [waitForContext]. *)
Definition poll (n : nat) (p : ChatName.poller) (w : ChatName.world)
  : ChatName.poller * ChatName.world :=
  Nat.iter n (fun '(p, w) => let '(p', (w', _)) := ChatName.tick p w in (p', w')) (p, w).

(** The override of a message leaves its resolution as it was. *)
Definition resolutionKept (w : ChatName.world) (m : ChatName.message)
    (chatName : jsstring) : Prop :=
  ChatName.getCharacterForMessage w (Some (ChatName.applyPersistentName m chatName))
  = ChatName.getCharacterForMessage w (Some m).

(** A name that is not empty and carries no outer white space. *)
Definition trimmed (s : jsstring) : Prop := s ≠ [] ∧ trim s = s.

(** An element on which the loop over the selectors stops. *)
Definition accepts (n : option jsstring) (e : ChatName.element) : bool :=
  ChatName.noChildren e
  || bool_decide (is_Some (ChatName.overrideFirstText n (ChatName.childNodes e))).

(** The block rendered for [id], if any, already shows the name of [m]. *)
Definition shows (w : ChatName.world) (id : nat) (m : ChatName.message) : Prop :=
  ∀ el, blockAt id w = Some el →
        ChatName.applyNameOverrideToElement el (ChatName.get_name m) = (el, 0%nat).

(** What the resolver and the [name2] step read of the host. *)
Definition cards (w : ChatName.world) :=
  (fun c => (ChatName.characters c, ChatName.characterId c, ChatName.groupId c,
             ChatName.name2 c)) <$> ChatName.host w.

(** A page whose names carry no outer white space: the card names, the
    cached names and the names installed on processed messages; and whose
    message objects are ordinary ones. *)
Definition cardsTidy (w : ChatName.world) : Prop :=
  ∀ ctx c s, ChatName.host w = Some ctx → c ∈ ChatName.characters ctx →
             ChatName.char_name c = Some s → s = [] ∨ trimmed s.

Definition cacheTidy (w : ChatName.world) : Prop :=
  ∀ k v, ChatName.nameCache (ChatName.ext w) !! k = Some v → v = [] ∨ trimmed v.

Definition messagesTidy (w : ChatName.world) : Prop :=
  ∀ id m, msgAt id w = Some (Some m) →
          configurable m = true
          ∧ (ChatName.processed m = true → ∃ cn, installed cn m ∧ trimmed cn).

Definition tidy (w : ChatName.world) : Prop :=
  cardsTidy w ∧ cacheTidy w ∧ messagesTidy w.

(** A message at [id] on which a run of the synchronizer has nothing left
    to do: its cached name is empty; or it is processed and its block shows
    its name; or it has no cache key and resolves to an empty name. *)
Definition settled (w : ChatName.world) (id : nat) (m : ChatName.message) : Prop :=
  let cached := ChatName.cacheGet (ChatName.nameCache (ChatName.ext w)) (ChatName.cacheKey m) in
  cached = Some []
  ∨ (ChatName.processed m = true ∧ shows w id m
     ∧ (is_Some cached ∨ truthy (ChatName.avatarOf m) = false))
  ∨ (cached = None ∧ truthy (ChatName.cacheKey m) = false
     ∧ ∃ c, ChatName.getCharacterForMessage w (Some m) = Ok c
            ∧ ChatName.getChatName c = []).

(** What a step of the synchronizer on the message at [id] may change:
    that message and its block, and the cache, which only gains names under
    keys that are not empty. *)
Definition advance (id : nat) (w w' : ChatName.world) : Prop :=
  cards w' = cards w
  ∧ (∀ j, j ≠ id → msgAt j w' = msgAt j w ∧ blockAt j w' = blockAt j w)
  ∧ (is_Some (msgAt id w') → is_Some (msgAt id w))
  ∧ ChatName.nameCache (ChatName.ext w) ⊆ ChatName.nameCache (ChatName.ext w')
  ∧ ChatName.nameCache (ChatName.ext w') !! ([] : jsstring)
    = ChatName.nameCache (ChatName.ext w) !! ([] : jsstring).

(** The name [v] is the one resolved on page [w], with the overrides it
    holds, for a message of the transcript whose cache key is [k]. *)
Definition resolvedNow (w : ChatName.world) (k v : jsstring) : Prop :=
  ∃ id m c, msgAt id w = Some (Some m) ∧ ChatName.cacheKey m = Some k
            ∧ ChatName.getCharacterForMessage w (Some m) = Ok c
            ∧ v = ChatName.getChatName c.

(** [w'] is [w] with more names cached. *)
Definition grows (w w' : ChatName.world) : Prop :=
  ChatName.host w' = ChatName.host w ∧ ChatName.doc w' = ChatName.doc w
  ∧ ChatName.nameCache (ChatName.ext w) ⊆ ChatName.nameCache (ChatName.ext w')
  ∧ ChatName.nameCache (ChatName.ext w') !! ([] : jsstring)
    = ChatName.nameCache (ChatName.ext w) !! ([] : jsstring).

(* ===================================================================== *)
(** ** Sample data *)
(* ===================================================================== *)

Module Sample.

Import ChatName.

Definition card (nm av : String.string) (override : option String.string) : character :=
  {| char_name := Some (lit nm); char_avatar := Some (lit av);
     char_chatName := lit <$> override |}.

(** A message written by a character, as the host stores it. *)
Definition said (av : option String.string) (nm : String.string) : message :=
  {| avatar := lit <$> av; force_avatar := None; original_avatar := None;
     is_user := false; is_system := false;
     name := Data (Some (lit nm)) true; processed := false |}.

Definition emptyDocument : document :=
  {| rendered := ∅; chat_container := true; tags_div := true;
     chat_name_input := None; input_listeners := 0; text_writes := 0 |}.

Definition freshState : state :=
  {| initialized := false; eventListenersAttached := false;
     chatObserver := false; nameCache := ∅ |}.

(** A page showing [msgs], with character [current] selected (or a group
    chat when [current] is [None]) and the blocks [blocks] rendered. *)
Definition page (cards : list character) (current : option nat)
    (msgs : list message) (blocks : list (nat * mesElement)) : world :=
  {| host := Some {| characters := cards; characterId := current;
                     groupId := match current with None => Some (lit "group-1") | _ => None end;
                     chat := Some (Some <$> msgs); name2 := None;
                     macros := Some {| registry := Some {| char_macro := Some hostHandler |};
                                       registerProvider := true; providers := 0 |};
                     registerMacro := Some (Some hostHandler);
                     eventSource := Some []; eventTypes := true;
                     failing := []; calls := [] |};
     doc := set_rendered (list_to_map blocks) emptyDocument;
     ext := freshState |}.

Definition merrick : character :=
  card "Merrick | The Fool's Gambit" "merrick.png" (Some "  Merrick ").

Definition merrick_plain : character :=
  card "Merrick | The Fool's Gambit" "merrick.png" (Some "   ").

(** The same card for the character-hook script, before and after
    [hookCharacterName]. *)
Definition hookCard (override : option String.string) : CardHook.character :=
  {| CardHook.name := CardHook.Plain (Some (lit "Merrick | The Fool's Gambit"));
     CardHook._originalName := None; CardHook._chatNameHooked := false;
     CardHook.chatName := lit <$> override |}.

Definition hookPageWith (fails : list CardHook.macroCall)
    (cards : list CardHook.character) : CardHook.world :=
  {| CardHook.has_context := true; CardHook.characters := cards;
     CardHook.characterId := Some 0%nat;
     CardHook.registerMacro := Some (Some CardHook.hostHandler);
     CardHook.eventSource := Some []; CardHook.event_types := true;
     CardHook.registry := Some (Some CardHook.hostHandler);
     CardHook.failing := fails; CardHook.calls := [];
     CardHook.tags_div := true; CardHook.chat_name_input := None;
     CardHook.input_listeners := 0; CardHook.initialized := false;
     CardHook.eventListenersAttached := false |}.

Definition hookPage : list CardHook.character → CardHook.world := hookPageWith [].

(** The usual markup of a message block: [.ch_name] wraps [span.name_text],
    which holds the author name as its only child. *)
Definition block (shown : String.string) : mesElement :=
  [ {| matched_by := [".ch_name"]%string; childNodes := [ElementNode; OtherNode] |};
    {| matched_by := [".ch_name .name_text"; ".name_text"; ".ch_name span"]%string;
       childNodes := [TextNode (lit shown)] |} ].

(** A markup variation: [.mes_header] wraps [span.name], which holds the
    author name followed by an icon element. *)
Definition iconBlock (shown : String.string) : mesElement :=
  [ {| matched_by := []; childNodes := [ElementNode] |};
    {| matched_by := [".mes_header .name"; ".mes_header span"]%string;
       childNodes := [TextNode (lit shown); ElementNode] |} ].

Definition gambit : character :=
  card "Merrick | The Fool's Gambit" "gambit.png" (Some "Merrick of the Gambit").
Definition tavern : character :=
  card "Merrick | Tavern Night" "tavern.png" (Some "Merrick").

(** A one-to-one chat with Merrick: one message of his, rendered. *)
Definition merrickChat : world :=
  page [merrick] (Some 0%nat)
       [said (Some "merrick.png") "Merrick | The Fool's Gambit"]
       [(0%nat, block "Merrick | The Fool's Gambit")].

(** A one-to-one chat with a card whose name ends with a space, rendered
    with the icon markup. *)
Definition bobChat : world :=
  page [card "Bob " "bob.png" None] (Some 0%nat)
       [said (Some "bob.png") "Bob "]
       [(0%nat, iconBlock "Bob ")].

(** A chat opened by the user, answered by Merrick. *)
Definition userChat : world :=
  page [merrick] (Some 0%nat)
       [ {| avatar := None; force_avatar := Some (lit "merrick.png");
            original_avatar := None; is_user := true; is_system := false;
            name := Data (Some (lit "Merrick | The Fool's Gambit")) true;
            processed := false |};
         said (Some "merrick.png") "Merrick | The Fool's Gambit" ]
       [(0%nat, block "Merrick | The Fool's Gambit");
        (1%nat, block "Merrick | The Fool's Gambit")].

Definition zed : character := card "Zed" "100%.png" None.
Definition bob : character := card "Bob" "bob.png" None.
Definition alice : character := card "Alice" "alice.png" None.

(** The page before the host is ready. *)
Definition loadingPage : world :=
  {| host := None; doc := emptyDocument; ext := freshState |}.

(** The chat with Merrick on a host whose macro calls in [fails] raise. *)
Definition failingChat (fails : list macroCall) : world :=
  upd_host (set_failing fails) merrickChat.

End Sample.

(* ===================================================================== *)
(** ** Further vocabulary *)
(* ===================================================================== *)

(** [p] occurs in [s] as a run of consecutive code units. *)
Definition substring (p s : jsstring) : Prop := ∃ a b, s = a ++ p ++ b.

(** The test of the fuzzy step, on the trimmed card name [cn] and the
    trimmed author name [nm]. *)
Definition fuzzyMatch (nm cn : jsstring) : Prop :=
  (2 < length cn)%nat ∧ (substring cn nm ∨ substring nm cn).

(** The trimmed card name read by the fuzzy step. *)
Definition trimmedCardName (c : ChatName.character) : jsstring :=
  trim (or_empty (ChatName.char_name c)).

(** The nested elements of an element, in order. *)
Definition children (e : ChatName.element) : list ChatName.childNode :=
  filter (fun n => ChatName.isElementNode n = true) (ChatName.childNodes e).

(** The element on which the loop over [sels] first lands: the one selected
    by the first selector that selects anything, with its position. *)
Definition landing (sels : list String.string) (el : ChatName.mesElement)
  : option (nat * ChatName.element) :=
  head (omap (ChatName.querySelector el) sels).

(** The editor panel as the script sees it: the anchor, the field with its
    value, and the number of [input] listeners on the field. *)
Definition editor (w : ChatName.world) : bool * option jsstring * nat :=
  (ChatName.tags_div (ChatName.doc w), ChatName.chat_name_input (ChatName.doc w),
   ChatName.input_listeners (ChatName.doc w)).

(** Two message objects with the same author data: the avatar fields and
    the user and system flags; and the second still accepts
    [Object.defineProperty] on [name] if the first did. *)
Definition sameAuthor (m m' : ChatName.message) : Prop :=
  ChatName.avatar m' = ChatName.avatar m
  ∧ ChatName.force_avatar m' = ChatName.force_avatar m
  ∧ ChatName.original_avatar m' = ChatName.original_avatar m
  ∧ ChatName.is_user m' = ChatName.is_user m
  ∧ ChatName.is_system m' = ChatName.is_system m
  ∧ (configurable m = true → configurable m' = true).

(** Two readings of one position of the transcript: both out of range,
    both empty, or two message objects with the same author data. *)
Definition sameSlot (a b : option (option ChatName.message)) : Prop :=
  match a, b with
  | Some (Some m), Some (Some m') => sameAuthor m m'
  | Some None, Some None => True
  | None, None => True
  | _, _ => False
  end.

(** The host's data apart from the transcript and [name2]. *)
Definition hostRest (w : ChatName.world) :=
  (fun c => (ChatName.characters c, ChatName.characterId c, ChatName.groupId c,
             ChatName.macros c, ChatName.registerMacro c, ChatName.eventSource c,
             ChatName.eventTypes c, ChatName.failing c, ChatName.calls c))
  <$> ChatName.host w.

(** The script's three flags. *)
Definition flags (w : ChatName.world) : bool * bool * bool :=
  (ChatName.initialized (ChatName.ext w),
   ChatName.eventListenersAttached (ChatName.ext w),
   ChatName.chatObserver (ChatName.ext w)).

(** What the synchronizer, the DOM updater and the full refresh leave as
    it is. *)
Definition preserved (w w' : ChatName.world) : Prop :=
  hostRest w' = hostRest w ∧ flags w' = flags w ∧ editor w' = editor w
  ∧ ChatName.chat_container (ChatName.doc w') = ChatName.chat_container (ChatName.doc w)
  ∧ (∀ j, sameSlot (msgAt j w) (msgAt j w'))
  ∧ (∀ j, is_Some (blockAt j w') ↔ is_Some (blockAt j w)).

(** A page whose message objects all accept [Object.defineProperty] on
    [name], so that [applyPersistentName] never reaches its [catch]. *)
Definition ordinary (w : ChatName.world) : Prop :=
  ∀ j m, msgAt j w = Some (Some m) → configurable m = true.

(** An identifier without a percent sign. *)
Definition clean (o : option jsstring) : Prop := ∀ s, o = Some s → 0x25 ∉ s.

(** A page on which no avatar identifier, of a character or of a message,
    holds a percent sign. *)
Definition percentFree (w : ChatName.world) : Prop :=
  (∀ ctx c, ChatName.host w = Some ctx → c ∈ ChatName.characters ctx →
            clean (ChatName.char_avatar c))
  ∧ (∀ j m, msgAt j w = Some (Some m) →
            clean (ChatName.avatar m) ∧ clean (ChatName.force_avatar m)
            ∧ clean (ChatName.original_avatar m)).

(** What can happen on the page once the script is loaded: a message event
    of the host runs the synchronizer; the chat observer, once started,
    reports a change inside the block of a message; a chat or character
    change of the host runs [handleCharacterChange]; the user types in the
    editor field, which fires its [input] listeners; the poller finds the
    context and calls [initialize]. *)
Inductive event :=
| MessageEvent
| Observed (messageId : nat)
| CharacterChange
| Typed (value : jsstring)
| Initialize.

Definition dispatch (w : ChatName.world) (e : event) : ChatName.world :=
  match e with
  | MessageEvent => fst (ChatName.syncChatData w)
  | Observed messageId =>
      if ChatName.chatObserver (ChatName.ext w) then ChatName.updateUIName messageId w else w
  | CharacterChange => fst (ChatName.handleCharacterChange w)
  | Typed value =>
      match ChatName.chat_name_input (ChatName.doc w) with
      | Some _ =>
          Nat.iter (ChatName.input_listeners (ChatName.doc w)) ChatName.handleInput
            (ChatName.upd_doc (ChatName.set_chat_name_input (Some value)) w)
      | None => w
      end
  | Initialize =>
      match ChatName.getContext w with
      | Some _ => fst (ChatName.initialize w)
      | None => w
      end
  end.

(** The subscriptions of the host's event bus. *)
Definition bus (w : ChatName.world) :=
  ChatName.eventSource <$> ChatName.host w.

(** The events that never reach [nameCache.clear()]. *)
Definition keepsCache (e : event) : bool :=
  match e with
  | MessageEvent | Observed _ | Typed _ => true
  | CharacterChange | Initialize => false
  end.

(** The editor field and its [input] listener go together: no field and no
    listener, or the field with exactly one listener. *)
Definition editorInv (w : ChatName.world) : Prop :=
  match ChatName.chat_name_input (ChatName.doc w) with
  | Some _ => ChatName.input_listeners (ChatName.doc w) = 1%nat
  | None => ChatName.input_listeners (ChatName.doc w) = 0%nat
  end.

(** Nothing the event bus or the editor panel holds has changed. *)
Definition quiet (w w' : ChatName.world) : Prop :=
  bus w' = bus w
  ∧ ChatName.eventListenersAttached (ChatName.ext w')
    = ChatName.eventListenersAttached (ChatName.ext w)
  ∧ editor w' = editor w.

(** The script's handlers are on the bus once, after the subscriptions
    [subs] that were there before, or not at all, as its flag tells. *)
Definition busInv (subs : option (option (list (ChatName.eventType * ChatName.handler))))
    (w : ChatName.world) : Prop :=
  (ChatName.eventListenersAttached (ChatName.ext w) = false ∧ bus w = subs)
  ∨ (ChatName.eventListenersAttached (ChatName.ext w) = true
     ∧ ∃ before, subs = Some (Some before)
                 ∧ bus w = Some (Some (before ++ ChatName.subscriptions))).

(** The host's data that the macro registration has no business with. *)
Definition hostData (c : ChatName.context) :=
  (ChatName.characters c, ChatName.characterId c, ChatName.groupId c, ChatName.chat c,
   ChatName.name2 c, ChatName.eventSource c, ChatName.eventTypes c).

(** What can happen on the page of the character-hook script: a chat or
    character change of the host, the user typing in the editor field, and
    the poller calling [initialize] once it finds the context. *)
Inductive hookEvent :=
| HookCharacterChange
| HookTyped (value : jsstring)
| HookInitialize.

Definition hookDispatch (w : CardHook.world) (e : hookEvent) : CardHook.world :=
  match e with
  | HookCharacterChange => CardHook.handleCharacterChange w
  | HookTyped value =>
      match CardHook.chat_name_input w with
      | Some _ =>
          Nat.iter (CardHook.input_listeners w) CardHook.handleInputChange
            (CardHook.set_input (Some value) (CardHook.input_listeners w) w)
      | None => w
      end
  | HookInitialize =>
      if CardHook.has_context w then fst (CardHook.initialize w) else w
  end.

(** The listeners of the character-hook script are in at most once: the
    editor field has one [input] listener when it exists and none when it
    does not, and the two subscriptions of the script are on the bus once,
    after the subscriptions [subs] that were there, or not at all, as the
    flag tells. *)
Definition hookListenersInv (subs : option (list (CardHook.eventType * CardHook.handler)))
    (w : CardHook.world) : Prop :=
  match CardHook.chat_name_input w with
  | Some _ => CardHook.input_listeners w = 1%nat
  | None => CardHook.input_listeners w = 0%nat
  end
  ∧ ((CardHook.eventListenersAttached w = false ∧ CardHook.eventSource w = subs)
     ∨ (CardHook.eventListenersAttached w = true
        ∧ ∃ before, subs = Some before
            ∧ CardHook.eventSource w
              = Some (before ++ [(CardHook.CHAT_CHANGED, CardHook.handleCharacterChangeH);
                                 (CardHook.CHARACTER_SELECTED, CardHook.handleCharacterChangeH)]))).

(** The listeners of the page of the character-hook script. *)
Definition hookListeners (w : CardHook.world) :=
  (CardHook.tags_div w, CardHook.input_listeners w, CardHook.eventSource w,
   CardHook.eventListenersAttached w, CardHook.has_context w).

(* ===================================================================== *)
(** ** Properties *)
(* ===================================================================== *)

Example trim_ex : trim (lit "  Merrick ") = lit "Merrick".
Proof. reflexivity. Qed.

Example split_ex :
  split 0x2F (lit "/characters/bob.png?t=1") = [lit ""; lit "characters"; lit "bob.png?t=1"].
Proof. reflexivity. Qed.

Example decode_ex1 : decodeURIComponent (lit "Bob%20Ross.png") = Ok (lit "Bob Ross.png").
Proof. reflexivity. Qed.

Example decode_ex2 : decodeURIComponent (lit "100%.png") = Throw URIError.
Proof. reflexivity. Qed.

Example decode_ex3 : decodeURIComponent (lit "%E2%82%AC") = Ok [0x20AC].
Proof. reflexivity. Qed.

Example decode_ex4 : decodeURIComponent (lit "%F0%9F%98%80x") = Ok [0xD83D; 0xDE00; 0x78].
Proof. reflexivity. Qed.

Example decode_ex5 : decodeURIComponent (lit "%C0%80") = Throw URIError.
Proof. reflexivity. Qed.

(** *** Strings *)

Lemma truthy_Some_nonempty (s : jsstring) : truthy (Some s) = true ↔ s ≠ [].
Proof. destruct s; simpl; split; intros; congruence. Qed.

Lemma truthy_Some_empty (s : jsstring) : truthy (Some s) = false ↔ s = [].
Proof. destruct s; simpl; split; intros; congruence. Qed.

Lemma or_else_truthy (a b : option jsstring) : truthy a = true → (a orElse b) = a.
Proof. unfold or_else. now intros ->. Qed.

Lemma or_else_falsy (a b : option jsstring) : truthy a = false → (a orElse b) = b.
Proof. unfold or_else. now intros ->. Qed.

Lemma or_empty_falsy (a : option jsstring) : truthy a = false → or_empty a = [].
Proof. destruct a as [[|]|]; simpl; congruence. Qed.

Lemma blank_falsy (o : option jsstring) : blank o → truthy (trim <$> o) = false.
Proof. destruct o as [o|]; simpl; [intros ->|]; reflexivity. Qed.

(** *** C1: the resolved name *)

Lemma ChatName_override_wins (c : ChatName.character) (o : jsstring) :
  ChatName.char_chatName c = Some o → trim o ≠ [] →
  ChatName.getChatName (Some c) = trim o.
Proof.
  intros Ho Hne. unfold ChatName.getChatName. rewrite Ho. simpl.
  rewrite or_else_truthy by now apply truthy_Some_nonempty.
  reflexivity.
Qed.

Lemma ChatName_blank_default (c : ChatName.character) :
  blank (ChatName.char_chatName c) →
  ChatName.getChatName (Some c) = or_empty (ChatName.char_name c).
Proof.
  intros Hb. unfold ChatName.getChatName.
  now rewrite or_else_falsy by now apply blank_falsy.
Qed.

Lemma CardHook_override_wins fromMacros (w : CardHook.world) i (c : CardHook.character) (o : jsstring) :
  CardHook.getCurrentCharacter w = Some (i, c) →
  CardHook.chatName c = Some o → trim o ≠ [] →
  CardHook.getChatName fromMacros w = trim o.
Proof.
  intros Hc Ho Hne. unfold CardHook.getChatName. rewrite Hc.
  unfold CardHook.trimmedChatName. rewrite Ho. simpl.
  rewrite or_else_truthy by now apply truthy_Some_nonempty.
  reflexivity.
Qed.

Lemma CardHook_blank_default fromMacros (w : CardHook.world) i (c : CardHook.character) :
  CardHook.getCurrentCharacter w = Some (i, c) → hook_inv c →
  blank (CardHook.chatName c) →
  CardHook.getChatName fromMacros w = or_empty (cardName c).
Proof.
  intros Hc Hinv Hb. unfold CardHook.getChatName. rewrite Hc.
  pose proof (blank_falsy _ Hb) as Hf. fold (CardHook.trimmedChatName c) in Hf.
  rewrite (or_else_falsy _ _ Hf).
  unfold cardName, CardHook.get_name. rewrite Hf, andb_false_r.
  destruct (CardHook.name c) eqn:Hn.
  - destruct Hinv as [?| ->]; [congruence|]. reflexivity.
  - unfold or_else. destruct (truthy (CardHook._originalName c)) eqn:Ht; [reflexivity|].
    reflexivity.
Qed.

(** C1.  The resolved display name is the trimmed override when that is not
    blank, and the character's card name when the override is absent, empty
    or white space only.  This holds for [getChatName] of the chat-message
    script on every character [c], and for [getChatName] of the
    character-hook script on every current character [h] (whose card name is
    the one [hookCharacterName] keeps). *)
Theorem C1_resolved_name
    (c : ChatName.character)
    (fromMacros : bool) (w : CardHook.world) (i : nat) (h : CardHook.character) :
  ((∀ o, ChatName.char_chatName c = Some o → trim o ≠ [] →
         ChatName.getChatName (Some c) = trim o)
   ∧ (blank (ChatName.char_chatName c) →
      ChatName.getChatName (Some c) = or_empty (ChatName.char_name c)))
  ∧
  (CardHook.getCurrentCharacter w = Some (i, h) → hook_inv h →
   (∀ o, CardHook.chatName h = Some o → trim o ≠ [] →
         CardHook.getChatName fromMacros w = trim o)
   ∧ (blank (CardHook.chatName h) →
      CardHook.getChatName fromMacros w = or_empty (cardName h))).
Proof.
  split; [split|intros Hcur Hinv; split].
  - intros o. apply ChatName_override_wins.
  - apply ChatName_blank_default.
  - intros o. now apply CardHook_override_wins with (i := i).
  - now apply CardHook_blank_default with (i := i).
Qed.

Lemma C1_resolved_name_witness :
  ChatName.getChatName (Some Sample.merrick) = lit "Merrick"
  ∧ ChatName.getChatName (Some Sample.merrick_plain) = lit "Merrick | The Fool's Gambit"
  ∧ CardHook.getChatName true (Sample.hookPage [CardHook.hook (Sample.hookCard (Some " Merrick"))])
    = lit "Merrick"
  ∧ CardHook.getChatName true (Sample.hookPage [CardHook.hook (Sample.hookCard None)])
    = lit "Merrick | The Fool's Gambit".
Proof.
  pose proof (C1_resolved_name Sample.merrick true
                (Sample.hookPage [CardHook.hook (Sample.hookCard (Some " Merrick"))]) 0
                (CardHook.hook (Sample.hookCard (Some " Merrick")))) as [[A _] B].
  pose proof (C1_resolved_name Sample.merrick_plain true
                (Sample.hookPage [CardHook.hook (Sample.hookCard None)]) 0
                (CardHook.hook (Sample.hookCard None))) as [[_ A'] B'].
  split; [|split; [|split]].
  - apply (A (lit "  Merrick ")); [reflexivity | vm_compute; discriminate].
  - apply A'. reflexivity.
  - destruct (B eq_refl (or_introl eq_refl)) as [B1 _].
    apply (B1 (lit " Merrick")); [reflexivity | vm_compute; discriminate].
  - destruct (B' eq_refl (or_introl eq_refl)) as [_ B2].
    apply B2. exact I.
Defined.

(** *** C2 and C7: the resolver *)

Section Resolver.

Import ChatName.

Variables (w : world) (ctx : context).
Hypothesis Hctx : getContext w = Some ctx.

(** The resolver, step by step. *)
Lemma resolver_avatar m c :
  matchAvatar ctx m = Ok (Some c) → getCharacterForMessage w (Some m) = Ok (Some c).
Proof. intros H. unfold getCharacterForMessage. rewrite Hctx, H. reflexivity. Qed.

Lemma resolver_original m c :
  matchAvatar ctx m = Ok None → matchOriginalAvatar ctx m = Ok (Some c) →
  getCharacterForMessage w (Some m) = Ok (Some c).
Proof. intros H1 H2. unfold getCharacterForMessage. rewrite Hctx, H1. simpl. now rewrite H2. Qed.

Lemma resolver_fallback m :
  matchAvatar ctx m = Ok None → matchOriginalAvatar ctx m = Ok None →
  matchName ctx m = None → matchFuzzy ctx m = None →
  getCharacterForMessage w (Some m) = Ok (currentCharacter ctx).
Proof.
  intros H1 H2 H3 H4. unfold getCharacterForMessage.
  rewrite Hctx, H1. simpl. rewrite H2. simpl. now rewrite H3, H4.
Qed.

(** The scan of step 1 returns the first character whose avatar normalizes
    to the target, provided the avatars before it decode. *)
Lemma findByAvatar_first target pre c post :
  Forall (fun c' => ∃ a, normalizeAvatar (char_avatar c') = Ok a ∧ a ≠ target) pre →
  normalizeAvatar (char_avatar c) = Ok target →
  findByAvatar target (pre ++ c :: post) = Ok (Some c).
Proof.
  intros Hpre Hc. induction Hpre as [|c' pre (a & Ha & Hne) _ IH]; simpl.
  - rewrite Hc. simpl. unfold str_eqb. now rewrite bool_decide_eq_true_2.
  - rewrite Ha. simpl. unfold str_eqb. now rewrite bool_decide_eq_false_2.
Qed.

(** Step 1 wins over every later step when the scan reaches the match. *)
Lemma avatar_match_wins m target pre c post :
  normalizeAvatar (avatarOf m) = Ok target → target ≠ [] →
  characters ctx = pre ++ c :: post →
  Forall (fun c' => ∃ a, normalizeAvatar (char_avatar c') = Ok a ∧ a ≠ target) pre →
  normalizeAvatar (char_avatar c) = Ok target →
  getCharacterForMessage w (Some m) = Ok (Some c).
Proof.
  intros Hm Hne Hcs Hpre Hc. apply resolver_avatar.
  unfold matchAvatar. rewrite Hm. cbn [bind].
  apply truthy_Some_nonempty in Hne. rewrite Hne, Hcs.
  now apply findByAvatar_first.
Qed.

End Resolver.

(** C2, evaluated where the code departs from it.  Bob matches the message
    by normalized avatar and Alice matches it by exact name, yet the
    resolver returns neither: the scan of step 1 first normalizes the avatar
    of Zed, [100%.png], and [decodeURIComponent] raises. *)
Theorem C2_avatar_scan_raises :
  let m := Sample.said (Some "bob.png") "Alice" in
  let w := Sample.page [Sample.zed; Sample.bob; Sample.alice] None [m] [] in
  ChatName.normalizeAvatar (ChatName.avatarOf m) = Ok (lit "bob.png")
  ∧ ChatName.normalizeAvatar (ChatName.char_avatar Sample.bob) = Ok (lit "bob.png")
  ∧ (ChatName.getContext w ≫= fun ctx => ChatName.matchName ctx m) = Some Sample.alice
  ∧ ChatName.getCharacterForMessage w (Some m) = Throw URIError.
Proof. repeat split. Qed.

(** Without the undecodable avatar in front, the avatar match wins. *)
Example avatar_priority_ex :
  let m := Sample.said (Some "/characters/bob.png?t=17") "Alice" in
  ChatName.getCharacterForMessage
    (Sample.page [Sample.alice; Sample.bob] None [m] []) (Some m)
  = Ok (Some Sample.bob).
Proof. reflexivity. Qed.

(** C7.  When steps 1 to 4 find no character for a message, the resolver
    returns the current character if the chat is not a group chat and a
    character is selected, and none otherwise. *)
Theorem C7_single_character_fallback
    (w : ChatName.world) (ctx : ChatName.context) (m : ChatName.message) :
  ChatName.getContext w = Some ctx →
  ChatName.matchAvatar ctx m = Ok None →
  ChatName.matchOriginalAvatar ctx m = Ok None →
  ChatName.matchName ctx m = None →
  ChatName.matchFuzzy ctx m = None →
  (∀ i c, ChatName.characterId ctx = Some i → truthy (ChatName.groupId ctx) = false →
          ChatName.characters ctx !! i = Some c →
          ChatName.getCharacterForMessage w (Some m) = Ok (Some c))
  ∧ ((truthy (ChatName.groupId ctx) = true ∨ ChatName.characterId ctx = None
      ∨ ∃ i, ChatName.characterId ctx = Some i ∧ ChatName.characters ctx !! i = None) →
     ChatName.getCharacterForMessage w (Some m) = Ok None).
Proof.
  intros Hctx H1 H2 H3 H4.
  rewrite (resolver_fallback w ctx Hctx m H1 H2 H3 H4).
  unfold ChatName.currentCharacter. split.
  - intros i c -> -> ->. reflexivity.
  - intros [Hg | [Hn | (i & Hi & Hc)]].
    + rewrite Hg. now destruct (ChatName.characterId ctx).
    + now rewrite Hn.
    + rewrite Hi, Hc. now destruct (negb _).
Qed.

Lemma C7_single_character_fallback_witness :
  let m := Sample.said None "Nobody" in
  ChatName.getCharacterForMessage (Sample.page [Sample.merrick] (Some 0%nat) [m] []) (Some m)
  = Ok (Some Sample.merrick)
  ∧ ChatName.getCharacterForMessage (Sample.page [Sample.merrick] None [m] []) (Some m)
    = Ok None.
Proof.
  intros m. split.
  - refine (proj1 (C7_single_character_fallback
                     (Sample.page [Sample.merrick] (Some 0%nat) [m] []) _ m
                     eq_refl eq_refl eq_refl eq_refl eq_refl) 0%nat Sample.merrick _ _ _);
      reflexivity.
  - refine (proj2 (C7_single_character_fallback
                     (Sample.page [Sample.merrick] None [m] []) _ m
                     eq_refl eq_refl eq_refl eq_refl eq_refl) _).
    left. reflexivity.
Defined.

(** *** C5 and C10: the override of a message *)

Section Override.

Import ChatName.

Lemma applyPersistentName_installs m cn :
  processed m = false → cn ≠ [] → configurable m = true →
  applyPersistentName m cn = mark_processed (with_name (Accessor cn (get_name m)) m).
Proof.
  intros Hp Hcn Hcfg. unfold applyPersistentName. rewrite Hp.
  rewrite (proj2 (truthy_Some_nonempty cn) Hcn). simpl.
  unfold configurable in Hcfg. destruct (name m) as [v [|]|cn' o]; congruence.
Qed.

Lemma applyPersistentName_processed m cn :
  processed m = true → applyPersistentName m cn = m.
Proof. intros Hp. unfold applyPersistentName. now rewrite Hp. Qed.

(** The fields read by the avatar steps are never written. *)
Lemma applyPersistentName_avatars m cn :
  let m' := applyPersistentName m cn in
  avatar m' = avatar m ∧ force_avatar m' = force_avatar m
  ∧ original_avatar m' = original_avatar m
  ∧ is_user m' = is_user m ∧ is_system m' = is_system m.
Proof.
  unfold applyPersistentName.
  destruct (processed m || negb (truthy (Some cn))); [easy|].
  unfold set_name. destruct (name m) as [v [|]|cn' o]; easy.
Qed.

Lemma set_name_avatars v m :
  let m' := set_name v m in
  avatar m' = avatar m ∧ force_avatar m' = force_avatar m
  ∧ original_avatar m' = original_avatar m
  ∧ is_user m' = is_user m ∧ is_system m' = is_system m
  ∧ processed m' = processed m.
Proof. unfold set_name. destruct (name m); easy. Qed.

Lemma matchAvatar_fields ctx m m' :
  avatar m' = avatar m → force_avatar m' = force_avatar m →
  original_avatar m' = original_avatar m →
  matchAvatar ctx m' = matchAvatar ctx m
  ∧ matchOriginalAvatar ctx m' = matchOriginalAvatar ctx m.
Proof.
  intros H1 H2 H3. unfold matchAvatar, matchOriginalAvatar, avatarOf.
  now rewrite H1, H2, H3.
Qed.

Lemma installed_read cn m : cn ≠ [] → installed cn m → get_name m = Some cn.
Proof.
  intros Hcn (_ & o & Hn). unfold get_name. rewrite Hn.
  apply or_else_truthy. now apply truthy_Some_nonempty.
Qed.

Lemma installed_perform cn m a : installed cn m → installed cn (perform m a).
Proof.
  intros (Hp & o & Hn). destruct a as [v|cn']; simpl.
  - unfold set_name. rewrite Hn. split; [exact Hp|]. now exists v.
  - rewrite applyPersistentName_processed by exact Hp. split; [exact Hp|]. now exists o.
Qed.

Lemma installed_foldl cn ops : ∀ m, installed cn m → installed cn (foldl perform m ops).
Proof.
  induction ops as [|a ops IH]; intros m Hm; simpl; [exact Hm|].
  apply IH. now apply installed_perform.
Qed.

End Override.

(** C10.  Once [applyPersistentName] has installed a non-empty chat name on
    a message, every later read of the name field returns that chat name,
    whatever is assigned to the field (or re-applied by the script) in
    between; and an assignment only replaces the hidden original of the
    accessor. *)
Theorem C10_override_absorbs_writes
    (m : ChatName.message) (chatName : jsstring) (later : list access)
    (val : option jsstring) :
  ChatName.processed m = false → chatName ≠ [] → configurable m = true →
  let m' := foldl perform (ChatName.applyPersistentName m chatName) later in
  ChatName.get_name m' = Some chatName
  ∧ ChatName.set_name val m' = ChatName.with_name (ChatName.Accessor chatName val) m'
  ∧ ChatName.get_name (ChatName.set_name val m') = Some chatName.
Proof.
  intros Hp Hcn Hcfg m'.
  assert (Hinst : installed chatName m').
  { apply installed_foldl. rewrite applyPersistentName_installs by assumption.
    split; [reflexivity|]. now eexists. }
  split; [now apply installed_read|]. split.
  - destruct Hinst as (_ & o & Hn). unfold ChatName.set_name. now rewrite Hn.
  - apply installed_read; [assumption|]. exact (installed_perform _ _ (Assign val) Hinst).
Qed.

Lemma C10_override_absorbs_writes_witness :
  let m := foldl perform
             (ChatName.applyPersistentName (Sample.said None "Merrick | Tavern Night") (lit "Merrick"))
             [Assign (Some (lit "Someone else")); Reapply (lit "Rick"); Assign None] in
  ChatName.get_name m = Some (lit "Merrick")
  ∧ ChatName.set_name (Some (lit "Host")) m
    = ChatName.with_name (ChatName.Accessor (lit "Merrick") (Some (lit "Host"))) m
  ∧ ChatName.get_name (ChatName.set_name (Some (lit "Host")) m) = Some (lit "Merrick").
Proof.
  apply (C10_override_absorbs_writes (Sample.said None "Merrick | Tavern Night") (lit "Merrick")
           [Assign (Some (lit "Someone else")); Reapply (lit "Rick"); Assign None]
           (Some (lit "Host"))).
  - reflexivity.
  - vm_compute. discriminate.
  - reflexivity.
Defined.

(** C5 as stated fails: the message below is resolved to the card
    "Merrick | Tavern Night" by its author name; once the override of that
    card, "Merrick", is installed, the name field reads "Merrick" and the same
    message resolves to another card, "Merrick | The Fool's Gambit". *)
Lemma C5_resolution_not_kept :
  let m := Sample.said None "Merrick | Tavern Night" in
  let w := Sample.page [Sample.gambit; Sample.tavern] (Some 1%nat) [m] [] in
  ChatName.getCharacterForMessage w (Some m) = Ok (Some Sample.tavern)
  ∧ ChatName.get_name (ChatName.applyPersistentName m (ChatName.getChatName (Some Sample.tavern)))
    = Some (lit "Merrick")
  ∧ ¬ resolutionKept w m (ChatName.getChatName (Some Sample.tavern)).
Proof.
  intros m w. split; [reflexivity|]. split; [reflexivity|].
  unfold resolutionKept. vm_compute. discriminate.
Qed.

(** C5, amended.  Installing the override on a message keeps the previous
    value of the name field as the hidden original of the accessor and
    writes no other field of the message; the resolver's avatar steps
    therefore give what they gave, and whenever one of them decides the
    resolution, the resolution is kept. *)
Theorem C5_override_keeps_original
    (w : ChatName.world) (ctx : ChatName.context) (m : ChatName.message)
    (chatName : jsstring) :
  ChatName.getContext w = Some ctx →
  ChatName.processed m = false → chatName ≠ [] → configurable m = true →
  let m' := ChatName.applyPersistentName m chatName in
  ChatName.name m' = ChatName.Accessor chatName (ChatName.get_name m)
  ∧ (ChatName.avatar m' = ChatName.avatar m
     ∧ ChatName.force_avatar m' = ChatName.force_avatar m
     ∧ ChatName.original_avatar m' = ChatName.original_avatar m
     ∧ ChatName.is_user m' = ChatName.is_user m
     ∧ ChatName.is_system m' = ChatName.is_system m)
  ∧ ((ChatName.matchAvatar ctx m ≠ Ok None ∨ ChatName.matchOriginalAvatar ctx m ≠ Ok None) →
     resolutionKept w m chatName).
Proof.
  intros Hctx Hp Hcn Hcfg m'.
  pose proof (applyPersistentName_avatars m chatName) as Hf. fold m' in Hf. cbv zeta in Hf.
  split; [|split; [exact Hf|]].
  - subst m'. now rewrite applyPersistentName_installs.
  - destruct Hf as (H1 & H2 & H3 & _).
    destruct (matchAvatar_fields ctx m m' H1 H2 H3) as [Ha Ho].
    intros Hdec. unfold resolutionKept, ChatName.getCharacterForMessage.
    fold m'. rewrite Hctx, Ha.
    destruct (ChatName.matchAvatar ctx m) as [[c|]|e]; simpl; try reflexivity.
    rewrite Ho.
    destruct (ChatName.matchOriginalAvatar ctx m) as [[c|]|e]; simpl; try reflexivity.
    destruct Hdec; congruence.
Qed.

Lemma C5_override_keeps_original_witness :
  let m := Sample.said (Some "tavern.png") "Merrick | Tavern Night" in
  let w := Sample.page [Sample.gambit; Sample.tavern] (Some 1%nat) [m] [] in
  ChatName.name (ChatName.applyPersistentName m (lit "Merrick"))
  = ChatName.Accessor (lit "Merrick") (Some (lit "Merrick | Tavern Night"))
  ∧ resolutionKept w m (lit "Merrick").
Proof.
  intros m w.
  destruct (C5_override_keeps_original w _ m (lit "Merrick") eq_refl eq_refl
              ltac:(vm_compute; discriminate) eq_refl) as (H1 & _ & H3).
  split; [exact H1|]. apply H3. left. vm_compute. discriminate.
Defined.

(** *** C6: user and system messages *)

Section Untouched.

Import ChatName.

Lemma msgAt_upd_ext id f w : msgAt id (upd_ext f w) = msgAt id w.
Proof. reflexivity. Qed.

Lemma msgAt_upd_doc id f w : msgAt id (upd_doc f w) = msgAt id w.
Proof. reflexivity. Qed.

Lemma blockAt_upd_ext id f w : blockAt id (upd_ext f w) = blockAt id w.
Proof. reflexivity. Qed.

Lemma blockAt_upd_host id f w : blockAt id (upd_host f w) = blockAt id w.
Proof. reflexivity. Qed.

Lemma msgAt_set_name2 id v w : msgAt id (upd_host (set_name2 v) w) = msgAt id w.
Proof. unfold msgAt. simpl. now destruct (host w). Qed.

Lemma msgAt_storeMessage_ne id j m w :
  j ≠ id → msgAt id (storeMessage j m w) = msgAt id w.
Proof.
  intros Hne. unfold msgAt, storeMessage. simpl.
  destruct (host w) as [c|]; simpl; [|reflexivity].
  destruct (chat c) as [msgs|]; simpl; [|reflexivity].
  now apply list_lookup_insert_ne.
Qed.

Variables (id : nat) (m : message).
Hypothesis Hflag : is_user m || is_system m = true.

Lemma kept_lookup R w :
  kept id m R w → ∃ ctx msgs, getContext w = Some ctx ∧ chat ctx = Some msgs
                         ∧ msgs !! id = Some (Some m).
Proof.
  intros [Hm _]. unfold msgAt in Hm. unfold getContext.
  destruct (host w) as [ctx|]; simpl in Hm; [|discriminate].
  destruct (chat ctx) as [msgs|] eqn:Hc; simpl in Hm; [|discriminate].
  now exists ctx, msgs.
Qed.

Lemma updateUIName_kept R j w : kept id m R w → kept id m R (updateUIName j w).
Proof.
  intros Hk. destruct (kept_lookup R w Hk) as (ctx & msgs & Hctx & Hchat & Hid).
  unfold updateUIName. rewrite Hctx, Hchat.
  destruct (msgs !! j) as [[mj|]|] eqn:Hj; try exact Hk.
  destruct (is_user mj || is_system mj) eqn:Hf; [exact Hk|].
  destruct (rendered (doc w) !! j) as [el|] eqn:Hel; [|exact Hk].
  destruct (applyNameOverrideToElement el (get_name mj)) as [el' k].
  assert (j ≠ id) by (intros ->; rewrite Hid in Hj; congruence).
  destruct Hk as [Hm Hb]. split; [now rewrite msgAt_upd_doc|].
  unfold blockAt in *. simpl. now rewrite lookup_insert_ne.
Qed.

Lemma syncMessage_kept R j w : kept id m R w → kept id m R (fst (syncMessage j w)).
Proof.
  intros Hk. destruct (kept_lookup R w Hk) as (ctx & msgs & Hctx & Hchat & Hid).
  unfold syncMessage. rewrite Hctx, Hchat.
  destruct (msgs !! j) as [[mj|]|] eqn:Hj; try exact Hk.
  destruct (is_user mj || is_system mj) eqn:Hf; [exact Hk|].
  assert (Hne : j ≠ id) by (intros ->; rewrite Hid in Hj; congruence).
  assert (Hstore : ∀ cn w1, kept id m R w1 →
            kept id m R (fst (if truthy (Some cn)
                         then (updateUIName j (storeMessage j (applyPersistentName mj cn) w1), Ok tt)
                         else (w1, Ok tt)))).
  { intros cn w1 Hk1. destruct (truthy (Some cn)); [|exact Hk1]. simpl.
    apply updateUIName_kept. destruct Hk1 as [Hm1 Hb1].
    split; [now rewrite msgAt_storeMessage_ne|exact Hb1]. }
  destruct (cacheGet (nameCache (ext w)) (cacheKey mj)) as [cn|].
  - specialize (Hstore cn w Hk). now destruct (truthy (Some cn)).
  - destruct (getCharacterForMessage w (Some mj)) as [character|e]; [|exact Hk].
    cbn [bind].
    set (w1 := if truthy (cacheKey mj) then _ else w).
    assert (Hk1 : kept id m R w1) by (subst w1; destruct (truthy (cacheKey mj)); exact Hk).
    specialize (Hstore (getChatName character) w1 Hk1).
    now destruct (truthy (Some (getChatName character))).
Qed.

Lemma forEach_kept R ids : ∀ w, kept id m R w → kept id m R (fst (forEach syncMessage ids w)).
Proof.
  induction ids as [|j ids IH]; intros w Hk; simpl; [exact Hk|].
  pose proof (syncMessage_kept R j w Hk) as Hj.
  destruct (syncMessage j w) as [w' [[]|e]]; simpl in Hj; [now apply IH|exact Hj].
Qed.

Lemma syncChatData_kept R w : kept id m R w → kept id m R (fst (syncChatData w)).
Proof.
  intros Hk. unfold syncChatData.
  destruct (getContext w) as [ctx|]; [|exact Hk].
  destruct (chat ctx) as [msgs|]; [|exact Hk].
  apply forEach_kept. unfold overrideName2.
  destruct (characterId ctx); [|exact Hk].
  destruct (negb (truthy (groupId ctx))); [|exact Hk].
  destruct (_ && _); [|exact Hk].
  destruct Hk as [Hm Hb]. split; [now rewrite msgAt_set_name2|exact Hb].
Qed.

Lemma invoke_kept R w i : kept id m R w → kept id m R (invoke w i).
Proof.
  intros Hk. destruct i as [|j|]; simpl.
  - now apply syncChatData_kept.
  - now apply updateUIName_kept.
  - unfold updateAllNames. apply syncChatData_kept. exact Hk.
Qed.

Lemma invocations_kept R runs : ∀ w, kept id m R w → kept id m R (foldl invoke w runs).
Proof.
  induction runs as [|i runs IH]; intros w Hk; simpl; [exact Hk|].
  apply IH. now apply invoke_kept.
Qed.

End Untouched.

(** A message already processed is never written again: the synchronizer
    stores back the object it read. *)
Section Frozen.

Import ChatName.

Variables (id : nat) (m : message).
Hypothesis Hproc : processed m = true.

Lemma msgAt_lookup w :
  msgAt id w = Some (Some m) →
  ∃ ctx msgs, getContext w = Some ctx ∧ chat ctx = Some msgs ∧ msgs !! id = Some (Some m).
Proof.
  unfold msgAt, getContext. intros Hm.
  destruct (host w) as [ctx|]; [|discriminate].
  destruct (chat ctx) as [msgs|] eqn:Hc; [|discriminate].
  now exists ctx, msgs.
Qed.

Lemma msgAt_storeMessage_eq w : 
  msgAt id w = Some (Some m) → msgAt id (storeMessage id m w) = Some (Some m).
Proof.
  intros Hm. destruct (msgAt_lookup w Hm) as (ctx & msgs & Hctx & Hchat & Hid).
  unfold msgAt, storeMessage. unfold getContext in Hctx. simpl. rewrite Hctx. simpl.
  rewrite Hchat. simpl. apply list_lookup_insert_eq. now apply lookup_lt_Some in Hid.
Qed.

Lemma msgAt_updateUIName j w : msgAt id (updateUIName j w) = msgAt id w.
Proof.
  unfold updateUIName.
  destruct (getContext w) as [ctx|]; [|reflexivity].
  destruct (chat ctx) as [msgs|]; [|reflexivity].
  destruct (msgs !! j) as [[mj|]|]; try reflexivity.
  destruct (is_user mj || is_system mj); [reflexivity|].
  destruct (rendered (doc w) !! j); [|reflexivity].
  now destruct (applyNameOverrideToElement _ _).
Qed.

Lemma syncMessage_frozen j w :
  msgAt id w = Some (Some m) → msgAt id (fst (syncMessage j w)) = Some (Some m).
Proof.
  intros Hm. destruct (msgAt_lookup w Hm) as (ctx & msgs & Hctx & Hchat & Hid).
  unfold syncMessage. rewrite Hctx, Hchat.
  destruct (msgs !! j) as [[mj|]|] eqn:Hj; try exact Hm.
  destruct (is_user mj || is_system mj) eqn:Hf; [exact Hm|].
  assert (Hstore : ∀ cn w1, msgAt id w1 = Some (Some m) →
            msgAt id (fst (if truthy (Some cn)
                           then (updateUIName j (storeMessage j (applyPersistentName mj cn) w1), Ok tt)
                           else (w1, Ok tt))) = Some (Some m)).
  { intros cn w1 Hm1. destruct (truthy (Some cn)); [|exact Hm1]. simpl.
    rewrite msgAt_updateUIName. destruct (decide (j = id)) as [->|Hne].
    - rewrite Hid in Hj. injection Hj as <-.
      rewrite applyPersistentName_processed by exact Hproc.
      now apply msgAt_storeMessage_eq.
    - now rewrite msgAt_storeMessage_ne. }
  destruct (cacheGet (nameCache (ext w)) (cacheKey mj)) as [cn|].
  - specialize (Hstore cn w Hm). now destruct (truthy (Some cn)).
  - destruct (getCharacterForMessage w (Some mj)) as [character|e]; [|exact Hm].
    cbn [bind].
    set (w1 := if truthy (cacheKey mj) then _ else w).
    assert (Hm1 : msgAt id w1 = Some (Some m))
      by (subst w1; destruct (truthy (cacheKey mj)); exact Hm).
    specialize (Hstore (getChatName character) w1 Hm1).
    now destruct (truthy (Some (getChatName character))).
Qed.

Lemma forEach_frozen ids : ∀ w,
  msgAt id w = Some (Some m) → msgAt id (fst (forEach syncMessage ids w)) = Some (Some m).
Proof.
  induction ids as [|j ids IH]; intros w Hm; simpl; [exact Hm|].
  pose proof (syncMessage_frozen j w Hm) as Hj.
  destruct (syncMessage j w) as [w' [[]|e]]; simpl in Hj; [now apply IH|exact Hj].
Qed.

Lemma syncChatData_frozen w :
  msgAt id w = Some (Some m) → msgAt id (fst (syncChatData w)) = Some (Some m).
Proof.
  intros Hm. unfold syncChatData.
  destruct (getContext w) as [ctx|]; [|exact Hm].
  destruct (chat ctx) as [msgs|]; [|exact Hm].
  apply forEach_frozen. unfold overrideName2.
  destruct (characterId ctx); [|exact Hm].
  destruct (negb (truthy (groupId ctx))); [|exact Hm].
  destruct (_ && _); [|exact Hm]. now rewrite msgAt_set_name2.
Qed.

(** Whatever the overrides become and however often the cache is cleared,
    a processed message keeps the accessor it has. *)
Lemma processed_message_frozen runs : ∀ w,
  msgAt id w = Some (Some m) → msgAt id (foldl invoke w runs) = Some (Some m).
Proof.
  induction runs as [|i runs IH]; intros w Hm; simpl; [exact Hm|].
  apply IH. destruct i as [|j|]; simpl.
  - now apply syncChatData_frozen.
  - now rewrite msgAt_updateUIName.
  - unfold updateAllNames. now apply syncChatData_frozen.
Qed.

End Frozen.

(** C6.  A message flagged as written by the user or by the system is never
    modified, and the block rendered for it is never patched, whatever
    sequence of runs of the synchronizer, of the DOM updater and of the full
    refresh takes place. *)
Theorem C6_user_system_untouched
    (w : ChatName.world) (id : nat) (m : ChatName.message) (runs : list invocation) :
  msgAt id w = Some (Some m) →
  ChatName.is_user m || ChatName.is_system m = true →
  msgAt id (foldl invoke w runs) = Some (Some m)
  ∧ blockAt id (foldl invoke w runs) = blockAt id w.
Proof.
  intros Hm Hflag.
  apply (invocations_kept id m Hflag (blockAt id w) runs w). now split.
Qed.

Lemma C6_user_system_untouched_witness :
  let runs := [SyncChatData; UpdateUIName 0; UpdateAllNames; UpdateUIName 1] in
  msgAt 0 (foldl invoke Sample.userChat runs) = msgAt 0 Sample.userChat
  ∧ blockAt 0 (foldl invoke Sample.userChat runs) = Some (Sample.block "Merrick | The Fool's Gambit")
  ∧ blockAt 1 (foldl invoke Sample.userChat runs) = Some (Sample.block "Merrick").
Proof.
  intros runs.
  destruct (C6_user_system_untouched Sample.userChat 0 _ runs eq_refl eq_refl) as [H1 H2].
  split; [exact H1|]. split; [exact H2|]. reflexivity.
Defined.

(** *** C3 and C4: the synchronizer run again *)

(** C3, evaluated where the code departs from it.  Merrick's message is
    synchronized under the override "Merrick"; the override is then changed
    to "Rick", the cache is cleared and the synchronizer runs again
    ([updateAllNames]).  The cache now holds "Rick" for the message's key,
    but the message's name field still reads "Merrick" and so does its
    block: [applyPersistentName] returns at once on a message it has
    already processed. *)
Theorem C3_processed_message_keeps_old_name :
  let w1 := fst (ChatName.syncChatData Sample.merrickChat) in
  let w2 := fst (ChatName.updateAllNames (typeChatName (lit "Rick") w1)) in
  (ChatName.get_name <$> msgAt 0 w1 ≫= id) = Some (Some (lit "Merrick"))
  ∧ snd (ChatName.updateAllNames (typeChatName (lit "Rick") w1)) = Ok tt
  ∧ ChatName.getChatName (ChatName.getSelectedCharacter w2) = lit "Rick"
  ∧ ChatName.nameCache (ChatName.ext w2) !! lit "merrick.png" = Some (lit "Rick")
  ∧ (ChatName.get_name <$> msgAt 0 w2 ≫= id) = Some (Some (lit "Merrick"))
  ∧ blockAt 0 w2 = Some (Sample.block "Merrick").
Proof. vm_compute. repeat split. Qed.

(** A message that was not processed before takes the new override. *)
Example fresh_message_takes_new_name :
  let w := typeChatName (lit "Rick") Sample.merrickChat in
  (ChatName.get_name <$> msgAt 0 (fst (ChatName.updateAllNames w)) ≫= id)
  = Some (Some (lit "Rick")).
Proof. vm_compute. reflexivity. Qed.

(** Without the clear, the cached name persists. *)
Example stale_cache_persists :
  let w1 := fst (ChatName.syncChatData Sample.merrickChat) in
  let w2 := fst (ChatName.syncChatData (typeChatName (lit "Rick") w1)) in
  ChatName.nameCache (ChatName.ext w2) !! lit "merrick.png" = Some (lit "Merrick").
Proof. vm_compute. reflexivity. Qed.

(** C4, evaluated where the code departs from it.  The card name "Bob " ends
    with a space and the name element holds an icon next to its text; each
    run of the synchronizer compares the trimmed text "Bob" with "Bob " and
    writes the text node again, though the block stays as it was. *)
Theorem C4_second_run_writes_again :
  let w1 := fst (ChatName.syncChatData Sample.bobChat) in
  let w2 := fst (ChatName.syncChatData w1) in
  snd (ChatName.syncChatData Sample.bobChat) = Ok tt
  ∧ snd (ChatName.syncChatData w1) = Ok tt
  ∧ ChatName.text_writes (ChatName.doc w2) = S (ChatName.text_writes (ChatName.doc w1))
  ∧ blockAt 0 w2 = blockAt 0 w1.
Proof. vm_compute. repeat split. Qed.

(** With the usual markup the second run writes nothing. *)
Example second_run_silent :
  let w1 := fst (ChatName.syncChatData Sample.merrickChat) in
  let w2 := fst (ChatName.syncChatData w1) in
  ChatName.text_writes (ChatName.doc w1) = 1%nat
  ∧ ChatName.doc w2 = ChatName.doc w1.
Proof. vm_compute. repeat split. Qed.

(** *** C8: macro registration *)

Section Macros.
Import ChatName.

Lemma newEngineStage_ok c : snd (newEngineStage c) = Ok tt.
Proof. unfold newEngineStage. now destruct (bool_decide _). Qed.

Lemma legacyStage_ok c : snd (legacyStage c) = Ok tt.
Proof. unfold legacyStage. now destruct (bool_decide _). Qed.

Lemma registerMacroOverridesCtx_split c :
  registerMacroOverridesCtx c = legacyStage (fst (newEngineStage c)).
Proof.
  unfold registerMacroOverridesCtx, seqM.
  pose proof (newEngineStage_ok c) as H.
  destruct (newEngineStage c) as [c' [[]|e]]; simpl in *; congruence.
Qed.

(** Case analysis on the tests met along one run. *)
Ltac branch H :=
  match type of H with
  | context [if ?b then _ else _] => destruct b eqn:?; simpl in H
  end.

(** What the [try] block of the new engine leaves alone, and what it
    records: with a registry in place, its first call is [hasMacro]. *)
Lemma registerNewEngine_frame c c' r :
  registerNewEngine c = (c', r) →
  registerMacro c' = registerMacro c ∧ failing c' = failing c
  ∧ ∃ made, calls c' = calls c ++ made
     ∧ (is_Some (macros c ≫= registry) → HasMacro ∈ made).
Proof.
  unfold registerNewEngine, seqM, theRegistry, hostCall, ret. intros H.
  destruct (macros c ≫= registry) as [reg|] eqn:Hreg; simpl in H.
  - repeat branch H; injection H as <- <-; simpl;
      (split; [reflexivity|]; split; [reflexivity|]; eexists;
       split; [rewrite <- ?app_assoc; reflexivity|]; intros _;
       apply elem_of_cons; now left).
  - injection H as <- <-. split; [reflexivity|]; split; [reflexivity|].
    exists []. rewrite app_nil_r. split; [reflexivity|]. now intros [? ?].
Qed.

Lemma newEngineStage_frame c :
  let c' := fst (newEngineStage c) in
  registerMacro c' = registerMacro c ∧ failing c' = failing c
  ∧ ∃ made, calls c' = calls c ++ made
     ∧ (is_Some (macros c ≫= registry) → HasMacro ∈ made).
Proof.
  unfold newEngineStage.
  destruct (bool_decide (is_Some (macros c))) eqn:Hm; simpl.
  - unfold try_catch. simpl.
    destruct (registerNewEngine c) as [c' r] eqn:Hrun. simpl.
    now apply registerNewEngine_frame with (r := r).
  - split; [reflexivity|]; split; [reflexivity|]. exists []. rewrite app_nil_r.
    split; [reflexivity|].
    apply bool_decide_eq_false in Hm. intros [r Hr]. destruct (macros c); [|discriminate].
    exfalso. apply Hm. eauto.
Qed.

(** With no failure among its first three calls, the new-engine stage
    leaves our handler registered for [char]. *)
Lemma newEngineStage_registers c :
  is_Some (macros c ≫= registry) →
  HasMacro ∉ failing c → UnregisterMacro ∉ failing c → RegisterMacro ∉ failing c →
  macros (fst (newEngineStage c)) ≫= registry = Some {| char_macro := Some nameGetter |}.
Proof.
  intros [r Hr] H1 H2 H3. unfold newEngineStage.
  destruct (macros c) as [eng|] eqn:Hm; [|discriminate].
  rewrite bool_decide_eq_true_2 by eauto.
  unfold try_catch. destruct (registerNewEngine c) as [c' r'] eqn:Hrun. simpl.
  revert Hrun. unfold registerNewEngine, seqM, theRegistry, hostCall, ret.
  rewrite Hm. simpl in Hr |- *. rewrite Hr. simpl.
  intros H. repeat branch H;
    repeat match goal with
           | E : bool_decide (_ ∈ _) = true |- _ => apply bool_decide_eq_true in E
           end;
    try contradiction; injection H as <- <-; simpl; rewrite ?Hm; reflexivity.
Qed.

(** The legacy stage: what it leaves alone, and what it does. *)
Lemma legacyStage_frame c :
  let c' := fst (legacyStage c) in
  macros c' = macros c
  ∧ (is_Some (registerMacro c) →
     calls c' = calls c ++ [LegacyRegisterMacro]
     ∧ (LegacyRegisterMacro ∉ failing c → registerMacro c' = Some (Some nameGetter))).
Proof.
  unfold legacyStage.
  destruct (bool_decide (is_Some (registerMacro c))) eqn:Hl; simpl.
  - unfold try_catch, registerLegacy, hostCall. simpl.
    destruct (bool_decide (LegacyRegisterMacro ∈ failing c)) eqn:Hf; simpl.
    + split; [reflexivity|]. intros _. split; [reflexivity|].
      apply bool_decide_eq_true in Hf. intros Hn. contradiction.
    + split; [reflexivity|]. intros _. split; reflexivity.
  - split; [reflexivity|]. apply bool_decide_eq_false in Hl. intros H. contradiction.
Qed.
End Macros.

Section OldMacros.

Import CardHook.

Ltac branch H :=
  match type of H with
  | context [if ?b then _ else _] => destruct b eqn:?; simpl in H
  end.

Lemma newSystemStage_ok w : snd (newSystemStage w) = Ok tt.
Proof. unfold newSystemStage. now destruct (bool_decide _). Qed.

Lemma oldSystemStage_ok w : snd (oldSystemStage w) = Ok tt.
Proof. unfold oldSystemStage. now destruct (bool_decide _). Qed.

Lemma registerMacroOverrides_split w :
  has_context w = true →
  registerMacroOverrides w
  = (hookCharacterName (fst (oldSystemStage (fst (newSystemStage w)))), Ok tt).
Proof.
  intros Hc. unfold registerMacroOverrides, seqM. rewrite Hc. simpl.
  pose proof (newSystemStage_ok w) as H1.
  destruct (newSystemStage w) as [w1 [[]|e]]; simpl in *; [|congruence].
  pose proof (oldSystemStage_ok w1) as H2.
  destruct (oldSystemStage w1) as [w2 [[]|e]]; simpl in *; congruence.
Qed.

Lemma registerNewSystem_frame w w' r :
  registerNewSystem w = (w', r) →
  registerMacro w' = registerMacro w ∧ failing w' = failing w
  ∧ ∃ made, calls w' = calls w ++ made ∧ HasMacro ∈ made.
Proof.
  unfold registerNewSystem, seqM, hostCall, ret. simpl. intros H.
  repeat branch H; injection H as <- <-; simpl;
    (split; [reflexivity|]; split; [reflexivity|]; eexists;
     split; [rewrite <- ?app_assoc; reflexivity|];
     apply elem_of_cons; now left).
Qed.

Lemma newSystemStage_frame w :
  let w' := fst (newSystemStage w) in
  registerMacro w' = registerMacro w ∧ failing w' = failing w
  ∧ ∃ made, calls w' = calls w ++ made
     ∧ (is_Some (registry w) → HasMacro ∈ made).
Proof.
  unfold newSystemStage.
  destruct (bool_decide (is_Some (registry w))) eqn:Hm; simpl.
  - unfold try_catch. destruct (registerNewSystem w) as [w' r] eqn:Hrun. simpl.
    destruct (registerNewSystem_frame w w' r Hrun) as (H1 & H2 & made & H3 & H4).
    split; [exact H1|]. split; [exact H2|]. exists made. now split.
  - split; [reflexivity|]; split; [reflexivity|]. exists []. rewrite app_nil_r.
    split; [reflexivity|]. apply bool_decide_eq_false in Hm. intros H. contradiction.
Qed.

Lemma newSystemStage_registers w :
  is_Some (registry w) →
  HasMacro ∉ failing w → UnregisterMacro ∉ failing w → RegisterMacro ∉ failing w →
  registry (fst (newSystemStage w)) = Some (Some getChatNameH).
Proof.
  intros Hr H1 H2 H3. unfold newSystemStage.
  rewrite bool_decide_eq_true_2 by exact Hr.
  unfold try_catch. destruct (registerNewSystem w) as [w' r'] eqn:Hrun. simpl.
  revert Hrun. unfold registerNewSystem, seqM, hostCall, ret. simpl.
  intros H. repeat branch H;
    repeat match goal with
           | E : bool_decide (_ ∈ _) = true |- _ => apply bool_decide_eq_true in E
           end;
    try contradiction; injection H as <- <-; reflexivity.
Qed.

Lemma oldSystemStage_frame w :
  let w' := fst (oldSystemStage w) in
  registry w' = registry w
  ∧ (is_Some (registerMacro w) →
     calls w' = calls w ++ [LegacyRegisterMacro]
     ∧ (LegacyRegisterMacro ∉ failing w → registerMacro w' = Some (Some getChatNameH))).
Proof.
  unfold oldSystemStage.
  destruct (bool_decide (is_Some (registerMacro w))) eqn:Hl; simpl.
  - unfold try_catch, registerOldSystem, hostCall. simpl.
    destruct (bool_decide (LegacyRegisterMacro ∈ failing w)) eqn:Hf; simpl.
    + split; [reflexivity|]. intros _. split; [reflexivity|].
      apply bool_decide_eq_true in Hf. intros Hn. contradiction.
    + split; [reflexivity|]. intros _. split; reflexivity.
  - split; [reflexivity|]. apply bool_decide_eq_false in Hl. intros H. contradiction.
Qed.

Lemma hookCharacterName_frame w :
  let w' := hookCharacterName w in
  registry w' = registry w ∧ registerMacro w' = registerMacro w ∧ calls w' = calls w.
Proof. unfold hookCharacterName. now destruct (getCurrentCharacter w) as [[i c]|]. Qed.

End OldMacros.

(** C8.  [registerMacroOverrides] never raises, whichever host calls fail,
    in both scripts.  The legacy registration is attempted whenever the
    legacy system is present, and succeeds unless its own call fails,
    whatever happened with the new engine; the new registration is attempted
    first whenever its registry is present, and succeeds unless one of its
    own calls fails, whatever happens with the legacy system. *)
Theorem C8_macro_registration_never_raises (w : ChatName.world) (v : CardHook.world) :
  (snd (ChatName.registerMacroOverrides w) = Ok tt
   ∧ ∀ ctx, ChatName.getContext w = Some ctx →
       ∃ ctx', ChatName.host (fst (ChatName.registerMacroOverrides w)) = Some ctx'
         ∧ (is_Some (ChatName.registerMacro ctx) →
            ChatName.LegacyRegisterMacro ∈ ChatName.calls ctx'
            ∧ (ChatName.LegacyRegisterMacro ∉ ChatName.failing ctx →
               ChatName.registerMacro ctx' = Some (Some ChatName.nameGetter)))
         ∧ (is_Some (ChatName.macros ctx ≫= ChatName.registry) →
            ChatName.HasMacro ∈ ChatName.calls ctx'
            ∧ (ChatName.HasMacro ∉ ChatName.failing ctx →
               ChatName.UnregisterMacro ∉ ChatName.failing ctx →
               ChatName.RegisterMacro ∉ ChatName.failing ctx →
               ChatName.macros ctx' ≫= ChatName.registry
               = Some {| ChatName.char_macro := Some ChatName.nameGetter |})))
  ∧
  (snd (CardHook.registerMacroOverrides v) = Ok tt
   ∧ (CardHook.has_context v = true →
      let v' := fst (CardHook.registerMacroOverrides v) in
      (is_Some (CardHook.registerMacro v) →
       CardHook.LegacyRegisterMacro ∈ CardHook.calls v'
       ∧ (CardHook.LegacyRegisterMacro ∉ CardHook.failing v →
          CardHook.registerMacro v' = Some (Some CardHook.getChatNameH)))
      ∧ (is_Some (CardHook.registry v) →
         CardHook.HasMacro ∈ CardHook.calls v'
         ∧ (CardHook.HasMacro ∉ CardHook.failing v →
            CardHook.UnregisterMacro ∉ CardHook.failing v →
            CardHook.RegisterMacro ∉ CardHook.failing v →
            CardHook.registry v' = Some (Some CardHook.getChatNameH))))).
Proof.
  split; split.
  - unfold ChatName.registerMacroOverrides.
    destruct (ChatName.getContext w) as [ctx|]; [|reflexivity].
    rewrite registerMacroOverridesCtx_split.
    pose proof (legacyStage_ok (fst (ChatName.newEngineStage ctx))) as H.
    now destruct (ChatName.legacyStage _).
  - intros ctx Hctx. unfold ChatName.registerMacroOverrides. rewrite Hctx.
    rewrite registerMacroOverridesCtx_split.
    destruct (newEngineStage_frame ctx) as (Hrm & Hfail & made & Hcalls & Hhas).
    pose proof (newEngineStage_registers ctx) as Hreg.
    destruct (legacyStage_frame (fst (ChatName.newEngineStage ctx))) as (Hmac & Hleg).
    set (ctx1 := fst (ChatName.newEngineStage ctx)) in *.
    destruct (ChatName.legacyStage ctx1) as [ctx' r] eqn:Hrun. simpl in *.
    exists ctx'. split; [reflexivity|]. split.
    + intros Hl. rewrite Hrm, Hfail in Hleg. destruct (Hleg Hl) as [Hc Hr].
      split; [|exact Hr]. rewrite Hc. apply elem_of_app. right. now apply list_elem_of_singleton.
    + intros Hn. split.
      * assert (Hsub : ∃ more, ChatName.calls ctx' = ChatName.calls ctx1 ++ more).
        { revert Hrun. unfold ChatName.legacyStage, try_catch, ChatName.registerLegacy,
            ChatName.hostCall, ret. simpl.
          repeat (destruct (bool_decide _); simpl); intros H; injection H as <- <-; simpl;
            eexists; try reflexivity; now rewrite app_nil_r. }
        destruct Hsub as [more ->]. rewrite Hcalls, !elem_of_app. left. right. now apply Hhas.
      * intros H1 H2 H3. rewrite Hmac. now apply Hreg.
  - destruct (CardHook.has_context v) eqn:Hc.
    + now rewrite registerMacroOverrides_split.
    + unfold CardHook.registerMacroOverrides. now rewrite Hc.
  - intros Hc v'. subst v'. rewrite (registerMacroOverrides_split v Hc). simpl.
    destruct (newSystemStage_frame v) as (Hrm & Hfail & made & Hcalls & Hhas).
    pose proof (newSystemStage_registers v) as Hreg.
    destruct (oldSystemStage_frame (fst (CardHook.newSystemStage v))) as (Hmac & Hleg).
    set (v1 := fst (CardHook.newSystemStage v)) in *.
    destruct (hookCharacterName_frame (fst (CardHook.oldSystemStage v1))) as (Hk1 & Hk2 & Hk3).
    rewrite Hk1, Hk2, Hk3. split.
    + intros Hl. rewrite Hrm, Hfail in Hleg. destruct (Hleg Hl) as [Hcl Hr].
      split; [|exact Hr]. rewrite Hcl. apply elem_of_app. right. now apply list_elem_of_singleton.
    + intros Hn. split.
      * assert (Hsub : ∃ more, CardHook.calls (fst (CardHook.oldSystemStage v1))
                               = CardHook.calls v1 ++ more).
        { unfold CardHook.oldSystemStage, try_catch, CardHook.registerOldSystem,
            CardHook.hostCall, ret. simpl.
          repeat (destruct (bool_decide _); simpl);
            eexists; try reflexivity; now rewrite app_nil_r. }
        destruct Hsub as [more ->]. rewrite Hcalls, !elem_of_app. left. right. now apply Hhas.
      * intros H1 H2 H3. rewrite Hmac. now apply Hreg.
Qed.

Lemma C8_macro_registration_never_raises_witness :
  let w := Sample.failingChat [ChatName.RegisterMacro] in
  let v := Sample.hookPageWith [CardHook.LegacyRegisterMacro] [Sample.hookCard None] in
  snd (ChatName.registerMacroOverrides w) = Ok tt
  ∧ (∃ ctx', ChatName.host (fst (ChatName.registerMacroOverrides w)) = Some ctx'
             ∧ ChatName.registerMacro ctx' = Some (Some ChatName.nameGetter))
  ∧ snd (CardHook.registerMacroOverrides v) = Ok tt
  ∧ CardHook.registry (fst (CardHook.registerMacroOverrides v))
    = Some (Some CardHook.getChatNameH).
Proof.
  intros w v.
  destruct (C8_macro_registration_never_raises w v) as [[A1 A2] [B1 B2]].
  split; [exact A1|]. split.
  - destruct (A2 _ eq_refl) as (ctx' & Hh & Hl & _).
    exists ctx'. split; [exact Hh|].
    apply Hl; [now eexists|]. vm_compute. intros H.
    apply elem_of_cons in H as [H|H]; [discriminate|]. now apply elem_of_nil in H.
  - split; [exact B1|].
    destruct (B2 eq_refl) as [_ Hn].
    apply Hn; [now eexists| | | ]; vm_compute; intros H;
      (apply elem_of_cons in H as [H|H]; [discriminate|]; now apply elem_of_nil in H).
Defined.

(** *** C9: initialization runs once *)

Lemma ChatName_initialize_flag (w w' : ChatName.world) :
  ChatName.initialize w = (w', Ok tt) →
  ChatName.initialized (ChatName.ext w') = true.
Proof.
  unfold ChatName.initialize.
  destruct (ChatName.initialized (ChatName.ext w)) eqn:Hi.
  - intros H. injection H as <-. exact Hi.
  - destruct (ChatName.registerMacroOverrides _) as [w1 [[]|e]]; [|discriminate].
    destruct (ChatName.attachEventListeners w1) as [w2 [[]|e]]; [|discriminate].
    destruct (ChatName.updateAllNames _) as [w3 [[]|e]]; [|discriminate].
    intros H. injection H as <-. reflexivity.
Qed.

Lemma ChatName_initialize_again (w : ChatName.world) :
  ChatName.initialized (ChatName.ext w) = true → ChatName.initialize w = (w, Ok tt).
Proof. intros H. unfold ChatName.initialize. now rewrite H. Qed.

Lemma CardHook_initialize_flag (v v' : CardHook.world) :
  CardHook.initialize v = (v', Ok tt) → CardHook.initialized v' = true.
Proof.
  unfold CardHook.initialize.
  destruct (CardHook.initialized v) eqn:Hi.
  - intros H. injection H as <-. exact Hi.
  - unfold seqM.
    destruct (CardHook.registerMacroOverrides _) as [v1 [[]|e]]; [|discriminate].
    destruct (CardHook.attachEventListeners v1) as [v2 [[]|e]]; [|discriminate].
    intros H. injection H as <-. reflexivity.
Qed.

Lemma CardHook_initialize_again (v : CardHook.world) :
  CardHook.initialized v = true → CardHook.initialize v = (v, Ok tt).
Proof. intros H. unfold CardHook.initialize. now rewrite H. Qed.

(** C9.  When a call of [initialize] completes, the [initialized] flag is
    set, and from then on every call of [initialize] returns at once and
    leaves the whole page as it is: the subscriptions of the event bus, the
    editor field and its listeners, and the macro registrations and calls
    are those of the first run.  This holds in both scripts. *)
Theorem C9_initialize_once
    (w w' : ChatName.world) (v v' : CardHook.world) (n : nat) :
  (ChatName.initialize w = (w', Ok tt) →
   ChatName.initialized (ChatName.ext w') = true
   ∧ ChatName.initialize w' = (w', Ok tt)
   ∧ Nat.iter n (fun x => fst (ChatName.initialize x)) w' = w')
  ∧
  (CardHook.initialize v = (v', Ok tt) →
   CardHook.initialized v' = true
   ∧ CardHook.initialize v' = (v', Ok tt)
   ∧ Nat.iter n (fun x => fst (CardHook.initialize x)) v' = v').
Proof.
  split; intros H.
  - pose proof (ChatName_initialize_flag w w' H) as Hf.
    pose proof (ChatName_initialize_again w' Hf) as Ha.
    split; [exact Hf|]. split; [exact Ha|].
    induction n as [|k IH]; simpl; [reflexivity|]. rewrite IH, Ha. reflexivity.
  - pose proof (CardHook_initialize_flag v v' H) as Hf.
    pose proof (CardHook_initialize_again v' Hf) as Ha.
    split; [exact Hf|]. split; [exact Ha|].
    induction n as [|k IH]; simpl; [reflexivity|]. rewrite IH, Ha. reflexivity.
Qed.

Lemma C9_initialize_once_witness :
  let w' := fst (ChatName.initialize Sample.merrickChat) in
  let v' := fst (CardHook.initialize (Sample.hookPage [Sample.hookCard (Some "Merrick")])) in
  (ChatName.eventSource <$> ChatName.host w') = Some (Some ChatName.subscriptions)
  ∧ ChatName.initialize w' = (w', Ok tt)
  ∧ CardHook.input_listeners v' = 1%nat
  ∧ CardHook.initialize v' = (v', Ok tt).
Proof.
  intros w' v'.
  destruct (C9_initialize_once Sample.merrickChat w'
              (Sample.hookPage [Sample.hookCard (Some "Merrick")]) v' 3) as [A B].
  split; [vm_compute; reflexivity|]. split.
  - apply A. vm_compute. reflexivity.
  - split; [vm_compute; reflexivity|]. apply B. vm_compute. reflexivity.
Defined.

(** *** The invariant of [hookCharacterName] *)

Lemma hook_inv_fresh (v : option jsstring) (o : option jsstring) :
  hook_inv {| CardHook.name := CardHook.Plain v; CardHook._originalName := None;
              CardHook._chatNameHooked := false; CardHook.chatName := o |}.
Proof. now right. Qed.

Lemma hook_inv_hook (c : CardHook.character) : hook_inv c → hook_inv (CardHook.hook c).
Proof.
  intros H. unfold CardHook.hook.
  destruct (CardHook._chatNameHooked c); [exact H|]. now left.
Qed.

Lemma hook_inv_set_name (val : option jsstring) (c : CardHook.character) :
  hook_inv c → hook_inv (CardHook.set_name val c).
Proof.
  intros H. unfold CardHook.set_name.
  destruct (CardHook.name c) eqn:Hn; [|now left].
  destruct H as [H|H]; [congruence|]. now right.
Qed.

(** *** The synchronizer run twice on tidy names *)

(** *** [trim] *)

Lemma trimStart_nonws c s : isWhiteSpace c = false → trimStart (c :: s) = c :: s.
Proof. intros H. simpl. now rewrite H. Qed.

Lemma trimStart_head s :
  trimStart s = [] ∨ ∃ c t, trimStart s = c :: t ∧ isWhiteSpace c = false.
Proof.
  induction s as [|c s IH]; simpl; [now left|].
  destruct (isWhiteSpace c) eqn:Hc; [exact IH|]. right. now exists c, s.
Qed.

Lemma trimStart_idem s : trimStart (trimStart s) = trimStart s.
Proof.
  destruct (trimStart_head s) as [->|(c & t & -> & Hc)]; [reflexivity|].
  now apply trimStart_nonws.
Qed.

Lemma trimStart_snoc s c :
  isWhiteSpace c = false → trimStart (s ++ [c]) = trimStart s ++ [c].
Proof.
  intros Hc. induction s as [|d s IH]; simpl; [now rewrite Hc|].
  now destruct (isWhiteSpace d).
Qed.

Lemma trimEnd_idem s : trimEnd (trimEnd s) = trimEnd s.
Proof. unfold trimEnd. now rewrite rev_involutive, trimStart_idem. Qed.

(** Trimming the end keeps a first unit that is not white space. *)
Lemma trimEnd_cons c t :
  isWhiteSpace c = false → ∃ t', trimEnd (c :: t) = c :: t'.
Proof.
  intros Hc. unfold trimEnd. simpl. rewrite trimStart_snoc by exact Hc.
  rewrite rev_app_distr. simpl. now eexists.
Qed.

Lemma trim_idem s : trim (trim s) = trim s.
Proof.
  unfold trim. destruct (trimStart_head s) as [->|(c & t & -> & Hc)]; [reflexivity|].
  destruct (trimEnd_cons c t Hc) as [t' Ht]. rewrite Ht.
  rewrite trimStart_nonws by exact Hc. rewrite <- Ht. apply trimEnd_idem.
Qed.

Lemma trimmed_trim s : trim s ≠ [] → trimmed (trim s).
Proof. intros H. split; [exact H|apply trim_idem]. Qed.

Section Blocks.
Import ChatName.

(** Replacing an element by one with the same selectors moves no query. *)
Lemma querySelector_insert (el : mesElement) i e e' sel :
  el !! i = Some e → matched_by e' = matched_by e →
  querySelector (<[i:=e']> el) sel
  = (fun '(j, y) => (j, if decide (j = i) then e' else y)) <$> querySelector el sel.
Proof.
  unfold querySelector. revert i.
  induction el as [|x el IH]; intros i Hi Hm; [discriminate|].
  destruct i as [|i]; simpl in *.
  - injection Hi as ->. rewrite Hm.
    destruct (decide (sel ∈ matched_by e)); simpl; [reflexivity|].
    destruct (list_find _ el) as [[j y]|]; reflexivity.
  - destruct (decide (sel ∈ matched_by x)); simpl; [reflexivity|].
    rewrite (IH i Hi Hm).
    destruct (list_find _ el) as [[j y]|]; simpl; [|reflexivity].
    destruct (decide (j = i)) as [->|Hne].
    + now rewrite decide_True.
    + rewrite decide_False by congruence. reflexivity.
Qed.

Lemma querySelector_lookup (el : mesElement) sel i e :
  querySelector el sel = Some (i, e) → el !! i = Some e.
Proof. unfold querySelector. intros H. now apply list_find_Some in H. Qed.

(** The loop over the child nodes keeps the kinds of the nodes. *)
Lemma overrideFirstText_kinds n ns ns' k :
  overrideFirstText n ns = Some (ns', k) →
  existsb isElementNode ns' = existsb isElementNode ns.
Proof.
  revert ns' k. induction ns as [|x ns IH]; intros ns' k H; simpl in H; [discriminate|].
  destruct x as [d| |].
  - destruct (0 <? length (trim d))%nat.
    + destruct (bool_decide _); injection H as <- <-; reflexivity.
    + destruct (overrideFirstText n ns) as [[ns'' k']|]; [|discriminate].
      injection H as <- <-. simpl. now apply IH with (k := k').
  - destruct (overrideFirstText n ns) as [[ns'' k']|]; [|discriminate].
    injection H as <- <-. reflexivity.
  - destruct (overrideFirstText n ns) as [[ns'' k']|]; [|discriminate].
    injection H as <- <-. simpl. now apply IH with (k := k').
Qed.

(** Once written, a trimmed name is found in place and left alone. *)
Lemma overrideFirstText_settled s ns ns' k :
  trimmed s → overrideFirstText (Some s) ns = Some (ns', k) →
  overrideFirstText (Some s) ns' = Some (ns', 0%nat).
Proof.
  intros [Hne Htrim]. revert ns' k.
  induction ns as [|x ns IH]; intros ns' k H; simpl in H; [discriminate|].
  destruct x as [d| |].
  - destruct (0 <? length (trim d))%nat eqn:Hd.
    + destruct (bool_decide (Some (trim d) ≠ Some s)) eqn:Hcmp; injection H as <- <-; simpl.
      * rewrite Htrim. destruct s; [congruence|]. simpl.
        rewrite bool_decide_eq_false_2; [reflexivity|]. intros Hx. now apply Hx.
      * now rewrite Hd, Hcmp.
    + destruct (overrideFirstText (Some s) ns) as [[ns'' k']|] eqn:Ho; [|discriminate].
      injection H as <- <-. simpl. rewrite Hd. now rewrite (IH ns'' k').
  - destruct (overrideFirstText (Some s) ns) as [[ns'' k']|] eqn:Ho; [|discriminate].
    injection H as <- <-. simpl. now rewrite (IH ns'' k').
  - destruct (overrideFirstText (Some s) ns) as [[ns'' k']|] eqn:Ho; [|discriminate].
    injection H as <- <-. simpl. now rewrite (IH ns'' k').
Qed.

(** The loop changes at most one element, one it stops on, and keeps its
    selectors. *)
Lemma applyNameOverrideLoop_shape n sels : ∀ el el' k,
  applyNameOverrideLoop sels el n = (el', k) →
  el' = el ∨ ∃ i e e', el !! i = Some e ∧ el' = <[i:=e']> el
                        ∧ matched_by e' = matched_by e ∧ accepts n e = true.
Proof.
  induction sels as [|sel sels IH]; intros el el' k H; simpl in H.
  { injection H as <- <-. now left. }
  destruct (querySelector el sel) as [[i e]|] eqn:Hq; [|now apply IH with (k := k)].
  pose proof (querySelector_lookup _ _ _ _ Hq) as Hi.
  destruct (noChildren e) eqn:Hnc.
  - destruct (bool_decide _); injection H as <- <-; [|now left].
    right. exists i, e, (setTextContent (or_empty n) e).
    unfold accepts. rewrite Hnc. repeat split; assumption.
  - destruct (overrideFirstText n (childNodes e)) as [[ns k']|] eqn:Ho;
      [|now apply IH with (k := k)].
    injection H as <- <-. right. exists i, e, (with_childNodes ns e).
    unfold accepts. rewrite Ho, Hnc. simpl. repeat split; try assumption.
Qed.

Lemma setTextContent_read s e :
  noChildren (setTextContent s e) = true ∧ textContent (setTextContent s e) = s.
Proof.
  unfold setTextContent, noChildren, textContent. destruct s as [|c s]; simpl; [easy|].
  now rewrite app_nil_r.
Qed.

(** A second pass over a block finds the name written by the first. *)
Lemma applyNameOverrideLoop_settled s sels : trimmed s → ∀ el el' k,
  applyNameOverrideLoop sels el (Some s) = (el', k) →
  applyNameOverrideLoop sels el' (Some s) = (el', 0%nat).
Proof.
  intros Hs. induction sels as [|sel sels IH]; intros el el' k H; simpl in H.
  { injection H as <- <-. reflexivity. }
  simpl. destruct (querySelector el sel) as [[i e]|] eqn:Hq.
  - pose proof (querySelector_lookup _ _ _ _ Hq) as Hi.
    destruct (noChildren e) eqn:Hnc.
    + destruct (bool_decide (Some (textContent e) ≠ Some s)) eqn:Hcmp;
        injection H as <- <-.
      * change (or_empty (Some s)) with s.
        rewrite (querySelector_insert el i e (setTextContent s e) sel Hi eq_refl), Hq.
        simpl. rewrite decide_True by reflexivity.
        destruct (setTextContent_read s e) as [-> ->].
        rewrite bool_decide_eq_false_2; [reflexivity|]. intros Hx. now apply Hx.
      * now rewrite Hq, Hnc, Hcmp.
    + destruct (overrideFirstText (Some s) (childNodes e)) as [[ns k']|] eqn:Ho.
      * injection H as <- <-.
        rewrite (querySelector_insert el i e (with_childNodes ns e) sel Hi eq_refl), Hq.
        simpl. rewrite decide_True by reflexivity.
        unfold noChildren in *. simpl.
        rewrite (overrideFirstText_kinds _ _ _ _ Ho), Hnc.
        rewrite (overrideFirstText_settled s _ _ _ Hs Ho).
        now rewrite list_insert_insert_eq.
      * destruct (applyNameOverrideLoop_shape _ _ _ _ _ H)
          as [->|(j & x & x' & Hj & -> & Hm & Hacc)].
        { rewrite Hq, Hnc, Ho. exact (IH _ _ _ H). }
        rewrite (querySelector_insert el j x x' sel Hj Hm), Hq. simpl.
        destruct (decide (i = j)) as [->|Hne].
        { rewrite Hi in Hj. injection Hj as ->. unfold accepts in Hacc.
          rewrite Hnc, Ho in Hacc. simpl in Hacc. discriminate. }
        rewrite Hnc, Ho. exact (IH _ _ _ H).
  - destruct (applyNameOverrideLoop_shape _ _ _ _ _ H)
      as [->|(j & x & x' & Hj & -> & Hm & Hacc)].
    { rewrite Hq. exact (IH _ _ _ H). }
    rewrite (querySelector_insert el j x x' sel Hj Hm), Hq. simpl.
    exact (IH _ _ _ H).
Qed.

End Blocks.

Section SecondRun.
Import ChatName.

Lemma truthy_or_else_false (a b : option jsstring) :
  truthy (a orElse b) = false → truthy a = false ∧ truthy b = false.
Proof. unfold or_else. destruct (truthy a) eqn:Ha; [congruence|]. now intros ->. Qed.

(** The resolver reads the host through [cards] only. *)
Lemma resolver_cards w w' mo :
  cards w' = cards w → getCharacterForMessage w' mo = getCharacterForMessage w mo.
Proof.
  unfold cards, getCharacterForMessage, getContext. intros H.
  destruct (host w') as [c'|], (host w) as [c|]; simpl in H; try discriminate; [|reflexivity].
  injection H as H1 H2 H3 _. destruct mo as [m|]; [|reflexivity].
  unfold matchAvatar, matchOriginalAvatar, matchName, matchFuzzy, currentCharacter.
  now rewrite H1, H2, H3.
Qed.

(** Without an avatar of any kind the resolver cannot raise. *)
Lemma resolver_no_avatar w m :
  truthy (avatarOf m) = false → ∃ c, getCharacterForMessage w (Some m) = Ok c.
Proof.
  intros H. unfold getCharacterForMessage.
  destruct (getContext w) as [ctx|]; [|now eexists].
  unfold matchAvatar, normalizeAvatar. rewrite H. simpl.
  unfold avatarOf in H. apply truthy_or_else_false in H as [_ H].
  apply truthy_or_else_false in H as [_ H].
  unfold matchOriginalAvatar. rewrite H. simpl.
  destruct (matchName ctx m); [now eexists|].
  destruct (matchFuzzy ctx m); now eexists.
Qed.

Lemma set_chat_same c : set_chat (chat c) c = c.
Proof. now destruct c. Qed.

(** Storing back the object that is there changes nothing. *)
Lemma storeMessage_same id m w :
  msgAt id w = Some (Some m) → storeMessage id m w = w.
Proof.
  unfold msgAt, storeMessage, upd_host. intros H. destruct w as [[ctx|] d s]; simpl in *;
    [|discriminate].
  destruct (chat ctx) as [msgs|] eqn:Hc; [|discriminate]. simpl.
  rewrite list_insert_id by exact H. rewrite <- Hc. now rewrite set_chat_same.
Qed.

(** The DOM updater writes nothing on a block that shows the name. *)
Lemma updateUIName_shown id m w :
  msgAt id w = Some (Some m) → shows w id m → updateUIName id w = w.
Proof.
  intros Hm Hs. unfold updateUIName, msgAt, getContext in *.
  destruct (host w) as [ctx|]; [|reflexivity].
  destruct (chat ctx) as [msgs|]; [|reflexivity].
  rewrite Hm. destruct (is_user m || is_system m); [reflexivity|].
  destruct (rendered (doc w) !! id) as [el|] eqn:Hel; [|reflexivity].
  rewrite (Hs el Hel). unfold upd_doc, add_text_writes, set_rendered. simpl.
  rewrite insert_id by exact Hel. rewrite Nat.add_0_r.
  destruct w as [h d s]. simpl. now destruct d.
Qed.

Lemma grows_refl w : grows w w.
Proof. unfold grows. done. Qed.

Lemma grows_trans w1 w2 w3 : grows w1 w2 → grows w2 w3 → grows w1 w3.
Proof.
  intros (H1 & H2 & H3 & H4) (G1 & G2 & G3 & G4).
  split; [congruence|]. split; [congruence|]. split; [|congruence].
  now transitivity (nameCache (ext w2)).
Qed.

Lemma grows_cards w w' : grows w w' → cards w' = cards w.
Proof. intros (H & _). unfold cards. now rewrite H. Qed.

Lemma grows_msgAt w w' id : grows w w' → msgAt id w' = msgAt id w.
Proof. intros (H & _). unfold msgAt. now rewrite H. Qed.

Lemma grows_cacheGet w w' key v :
  grows w w' → cacheGet (nameCache (ext w)) key = Some v →
  cacheGet (nameCache (ext w')) key = Some v.
Proof.
  intros (_ & _ & Hsub & _). destruct key as [k|]; simpl; [|discriminate].
  intros H. now apply (lookup_weaken _ _ _ _ H Hsub).
Qed.

Lemma grows_cacheGet_falsy w w' key :
  grows w w' → truthy key = false →
  cacheGet (nameCache (ext w')) key = cacheGet (nameCache (ext w)) key.
Proof.
  intros (_ & _ & _ & Hnil) Hk. destruct key as [[|c k]|]; simpl in *;
    [exact Hnil|discriminate|reflexivity].
Qed.

Lemma settled_grows w w' id m : grows w w' → settled w id m → settled w' id m.
Proof.
  intros Hg [HQ|[(Hp & Hs & Hc)|(Hn & Hk & c & Hr & Hc)]].
  - left. now apply (grows_cacheGet w w').
  - right; left. split; [exact Hp|]. split.
    + unfold shows, blockAt in *. destruct Hg as (_ & -> & _). exact Hs.
    + destruct Hc as [[v Hv]|Ha]; [left|now right].
      exists v. now apply (grows_cacheGet w w').
  - right; right. split; [|split; [exact Hk|]].
    + now rewrite (grows_cacheGet_falsy w w').
    + exists c. split; [|exact Hc]. now rewrite (resolver_cards w w') by now apply grows_cards.
Qed.

(** Caching one more name, under a key that is not empty. *)
Lemma grows_insert w k v :
  k ≠ [] → nameCache (ext w) !! k = None →
  grows w (upd_ext (fun s => set_nameCache (<[k:=v]> (nameCache s)) s) w).
Proof.
  intros Hk Hnone. split; [reflexivity|]. split; [reflexivity|]. simpl. split.
  - now apply insert_subseteq.
  - now rewrite lookup_insert_ne.
Qed.

(** On a settled message the synchronizer only caches names. *)
Lemma syncMessage_settled id w :
  (∀ m, msgAt id w = Some (Some m) → is_user m || is_system m = false → settled w id m) →
  ∃ w', syncMessage id w = (w', Ok tt) ∧ grows w w'.
Proof.
  intros Hset. unfold syncMessage.
  destruct (getContext w) as [ctx|] eqn:Hctx; [|exists w; split; [reflexivity|apply grows_refl]].
  destruct (chat ctx) as [msgs|] eqn:Hchat; [|exists w; split; [reflexivity|apply grows_refl]].
  destruct (msgs !! id) as [[m|]|] eqn:Hid;
    try (exists w; split; [reflexivity|apply grows_refl]).
  destruct (is_user m || is_system m) eqn:Hf; [exists w; split; [reflexivity|apply grows_refl]|].
  assert (Hm : msgAt id w = Some (Some m)).
  { unfold msgAt. unfold getContext in Hctx. now rewrite Hctx, Hchat. }
  destruct (Hset m Hm Hf) as [HQ|[(Hp & Hs & Hc)|(Hn & Hk & c & Hr & Hc)]].
  - rewrite HQ. simpl. exists w. split; [reflexivity|apply grows_refl].
  - destruct (cacheGet (nameCache (ext w)) (cacheKey m)) as [cn|] eqn:Hget.
    + exists w. split; [|apply grows_refl].
      destruct (truthy (Some cn)); [|reflexivity].
      rewrite applyPersistentName_processed by exact Hp.
      rewrite storeMessage_same by exact Hm. now rewrite (updateUIName_shown id m).
    + destruct Hc as [[v Hv]|Ha]; [discriminate|].
      destruct (resolver_no_avatar w m Ha) as [c ->]. cbn [bind].
      set (w1 := if truthy (cacheKey m) then _ else w).
      assert (Hg : grows w w1).
      { subst w1. destruct (truthy (cacheKey m)) eqn:Hk; [|apply grows_refl].
        destruct (cacheKey m) as [[|u k]|]; try discriminate. simpl in Hget |- *.
        now apply grows_insert. }
      exists w1. split; [|exact Hg].
      destruct (truthy (Some (getChatName c))); [|reflexivity].
      rewrite applyPersistentName_processed by exact Hp.
      assert (Hm1 : msgAt id w1 = Some (Some m)) by now rewrite (grows_msgAt w w1).
      rewrite storeMessage_same by exact Hm1.
      rewrite (updateUIName_shown id m); [reflexivity|exact Hm1|].
      unfold shows, blockAt in *. destruct Hg as (_ & -> & _). exact Hs.
  - rewrite Hn, Hr. cbn [bind]. rewrite Hk, Hc. simpl.
    exists w. split; [reflexivity|apply grows_refl].
Qed.

Lemma forEach_settled ids : ∀ w,
  (∀ id m, msgAt id w = Some (Some m) → is_user m || is_system m = false → settled w id m) →
  ∃ w', forEach syncMessage ids w = (w', Ok tt) ∧ grows w w'.
Proof.
  induction ids as [|id ids IH]; intros w Hset; simpl.
  { exists w. split; [reflexivity|apply grows_refl]. }
  destruct (syncMessage_settled id w (Hset id)) as (w1 & -> & Hg1).
  destruct (IH w1) as (w2 & H2 & Hg2).
  { intros j m Hm Hf. apply (settled_grows w w1); [exact Hg1|].
    apply Hset; [|exact Hf]. now rewrite <- (grows_msgAt w w1). }
  exists w2. split; [exact H2|]. now apply (grows_trans w w1 w2).
Qed.

End SecondRun.

Section FirstRun.
Import ChatName.

Lemma advance_refl id w : advance id w w.
Proof. unfold advance. done. Qed.

Lemma advance_trans id w1 w2 w3 : advance id w1 w2 → advance id w2 w3 → advance id w1 w3.
Proof.
  intros (A1 & A2 & A3 & A4 & A5) (B1 & B2 & B3 & B4 & B5).
  split; [congruence|]. split.
  { intros j Hj. destruct (A2 j Hj), (B2 j Hj). split; congruence. }
  split; [tauto|]. split; [now transitivity (nameCache (ext w2))|congruence].
Qed.

Lemma advance_cache id w k v :
  k ≠ [] → nameCache (ext w) !! k = None →
  advance id w (upd_ext (fun s => set_nameCache (<[k:=v]> (nameCache s)) s) w).
Proof.
  intros Hk Hnone. split; [reflexivity|]. split; [easy|]. split; [easy|]. simpl. split.
  - now apply insert_subseteq.
  - now rewrite lookup_insert_ne.
Qed.

Lemma cards_storeMessage id m w : cards (storeMessage id m w) = cards w.
Proof. unfold cards, storeMessage. simpl. now destruct (host w). Qed.

Lemma msgAt_storeMessage id m w :
  is_Some (msgAt id w) → msgAt id (storeMessage id m w) = Some (Some m).
Proof.
  unfold msgAt, storeMessage. simpl. intros [x Hx].
  destruct (host w) as [ctx|]; [|discriminate]. simpl.
  destruct (chat ctx) as [msgs|]; [|discriminate]. simpl.
  apply list_lookup_insert_eq. now apply lookup_lt_Some in Hx.
Qed.

Lemma msgAt_storeMessage_back id j m w :
  is_Some (msgAt j (storeMessage id m w)) → is_Some (msgAt j w).
Proof.
  unfold msgAt, storeMessage. simpl.
  destruct (host w) as [ctx|]; [|easy]. simpl.
  destruct (chat ctx) as [msgs|]; [|easy]. simpl.
  intros H. apply lookup_lt_is_Some in H. rewrite length_insert in H.
  now apply lookup_lt_is_Some.
Qed.

Lemma advance_storeMessage id m w : advance id w (storeMessage id m w).
Proof.
  split; [apply cards_storeMessage|]. split.
  { intros j Hj. split; [|reflexivity]. apply msgAt_storeMessage_ne. congruence. }
  split; [apply msgAt_storeMessage_back|]. done.
Qed.

Lemma cards_updateUIName id w : cards (updateUIName id w) = cards w.
Proof.
  unfold updateUIName.
  destruct (getContext w) as [ctx|]; [|reflexivity].
  destruct (chat ctx) as [msgs|]; [|reflexivity].
  destruct (msgs !! id) as [[mj|]|]; try reflexivity.
  destruct (is_user mj || is_system mj); [reflexivity|].
  destruct (rendered (doc w) !! id); [|reflexivity].
  now destruct (applyNameOverrideToElement _ _).
Qed.

Lemma ext_updateUIName id w : ext (updateUIName id w) = ext w.
Proof.
  unfold updateUIName.
  destruct (getContext w) as [ctx|]; [|reflexivity].
  destruct (chat ctx) as [msgs|]; [|reflexivity].
  destruct (msgs !! id) as [[mj|]|]; try reflexivity.
  destruct (is_user mj || is_system mj); [reflexivity|].
  destruct (rendered (doc w) !! id); [|reflexivity].
  now destruct (applyNameOverrideToElement _ _).
Qed.

Lemma blockAt_updateUIName_ne id j w : j ≠ id → blockAt j (updateUIName id w) = blockAt j w.
Proof.
  intros Hne. unfold updateUIName.
  destruct (getContext w) as [ctx|]; [|reflexivity].
  destruct (chat ctx) as [msgs|]; [|reflexivity].
  destruct (msgs !! id) as [[mj|]|]; try reflexivity.
  destruct (is_user mj || is_system mj); [reflexivity|].
  destruct (rendered (doc w) !! id); [|reflexivity].
  destruct (applyNameOverrideToElement _ _). unfold blockAt. simpl.
  now rewrite lookup_insert_ne.
Qed.

Lemma advance_updateUIName id w : advance id w (updateUIName id w).
Proof.
  split; [apply cards_updateUIName|]. split.
  { intros j Hj. split; [apply msgAt_updateUIName|now apply blockAt_updateUIName_ne]. }
  split; [now rewrite msgAt_updateUIName|]. now rewrite ext_updateUIName.
Qed.

(** After the DOM updater, the block shows a trimmed name. *)
Lemma updateUIName_shows id m s w :
  msgAt id w = Some (Some m) → is_user m || is_system m = false →
  get_name m = Some s → trimmed s →
  shows (updateUIName id w) id m.
Proof.
  intros Hm Hf Hn Hs el'. unfold updateUIName, msgAt, getContext in *.
  destruct (host w) as [ctx|]; [|discriminate].
  destruct (chat ctx) as [msgs|]; [|discriminate].
  rewrite Hm, Hf, Hn. unfold blockAt.
  destruct (rendered (doc w) !! id) as [el|] eqn:Hel.
  - unfold applyNameOverrideToElement.
    destruct (applyNameOverrideLoop selectors el (Some s)) as [el1 k] eqn:Hrun. simpl.
    rewrite lookup_insert_eq. intros H. injection H as <-.
    now apply (applyNameOverrideLoop_settled s selectors Hs el el1 k).
  - now rewrite Hel.
Qed.

Lemma settled_advance id j m w w' :
  advance id w w' → j ≠ id → settled w j m → settled w' j m.
Proof.
  intros (Hc & Hfr & _ & Hsub & Hnil) Hne [HQ|[(Hp & Hs & Hk)|(Hn & Hk & c & Hr & Hc')]].
  - left. destruct (cacheKey m) as [k|]; simpl in *; [|discriminate].
    now apply (lookup_weaken _ _ _ _ HQ Hsub).
  - right; left. split; [exact Hp|]. split.
    + unfold shows. destruct (Hfr j Hne) as [_ ->]. exact Hs.
    + destruct Hk as [[v Hv]|Ha]; [left|now right]. exists v.
      destruct (cacheKey m) as [k|]; simpl in *; [|discriminate].
      now apply (lookup_weaken _ _ _ _ Hv Hsub).
  - right; right. split; [|split; [exact Hk|]].
    + destruct (cacheKey m) as [[|u k]|]; simpl in *; try discriminate; [|reflexivity].
      now rewrite Hnil.
    + exists c. split; [|exact Hc']. now rewrite (resolver_cards w w').
Qed.

(** The resolver returns a character of the list. *)
Lemma findByAvatar_in target cs c : findByAvatar target cs = Ok (Some c) → c ∈ cs.
Proof.
  induction cs as [|x cs IH]; simpl; [discriminate|].
  destruct (normalizeAvatar (char_avatar x)) as [a|e]; simpl; [|discriminate].
  destruct (str_eqb a target).
  - intros H. injection H as ->. apply elem_of_cons. now left.
  - intros H. apply elem_of_cons. right. now apply IH.
Qed.

Lemma resolver_in w ctx m c :
  getContext w = Some ctx → getCharacterForMessage w (Some m) = Ok (Some c) →
  c ∈ characters ctx.
Proof.
  intros Hctx. unfold getCharacterForMessage. rewrite Hctx.
  destruct (matchAvatar ctx m) as [[x|]|e] eqn:H1; cbn [bind]; try discriminate.
  { intros H. injection H as ->. unfold matchAvatar in H1.
    destruct (normalizeAvatar (avatarOf m)) as [a|]; cbn [bind] in H1; [|discriminate].
    destruct (truthy (Some a)); [|discriminate]. now apply findByAvatar_in in H1. }
  destruct (matchOriginalAvatar ctx m) as [[x|]|e] eqn:H2; cbn [bind]; try discriminate.
  { intros H. injection H as ->. unfold matchOriginalAvatar in H2.
    destruct (truthy (original_avatar m)); [|discriminate].
    destruct (normalizeAvatar (original_avatar m)); cbn [bind] in H2; [|discriminate].
    now apply findByAvatar_in in H2. }
  destruct (matchName ctx m) as [x|] eqn:H3.
  { intros H. injection H as ->. unfold matchName in H3.
    destruct (truthy (Some (authorName m))); [|discriminate].
    apply find_some in H3 as [H3 _]. now apply list_elem_of_In. }
  destruct (matchFuzzy ctx m) as [x|] eqn:H4.
  { intros H. injection H as ->. unfold matchFuzzy in H4.
    destruct (truthy (Some (authorName m))); [|discriminate].
    apply find_some in H4 as [H4 _]. now apply list_elem_of_In. }
  intros H. injection H as H. unfold currentCharacter in H.
  destruct (characterId ctx) as [i|]; [|discriminate].
  destruct (negb _); [|discriminate]. now apply list_elem_of_lookup_2 in H.
Qed.

Lemma getChatName_tidy w ctx m c :
  cardsTidy w → getContext w = Some ctx →
  getCharacterForMessage w (Some m) = Ok c →
  getChatName c = [] ∨ trimmed (getChatName c).
Proof.
  intros Ht Hctx Hr. destruct c as [c|]; [|now left].
  pose proof (resolver_in w ctx m c Hctx Hr) as Hin.
  unfold getChatName, or_else.
  destruct (truthy (trim <$> char_chatName c)) eqn:Htr.
  - destruct (char_chatName c) as [o|]; [|discriminate]. simpl in *.
    right. apply trimmed_trim. now apply truthy_Some_nonempty.
  - destruct (char_name c) as [s|] eqn:Hn; [|now left]. simpl.
    now apply (Ht ctx c s).
Qed.

(** What [applyPersistentName] leaves on a tidy message. *)
Lemma applyPersistentName_tidy m cn :
  configurable m = true → trimmed cn →
  (processed m = true → ∃ cn0, installed cn0 m ∧ trimmed cn0) →
  let m' := applyPersistentName m cn in
  processed m' = true ∧ configurable m' = true
  ∧ ∃ cn', installed cn' m' ∧ trimmed cn'.
Proof.
  intros Hcfg Hcn Hold m'. subst m'.
  destruct (processed m) eqn:Hp.
  - rewrite applyPersistentName_processed by exact Hp.
    split; [exact Hp|]. split; [exact Hcfg|]. now apply Hold.
  - rewrite applyPersistentName_installs by (try assumption; apply Hcn).
    split; [reflexivity|]. split; [reflexivity|].
    exists cn. split; [|exact Hcn]. split; [reflexivity|]. now eexists.
Qed.

Lemma cacheKey_applyPersistentName m cn :
  truthy (avatarOf m) = true →
  cacheKey (applyPersistentName m cn) = cacheKey m.
Proof.
  intros Ha. destruct (applyPersistentName_avatars m cn) as (H1 & H2 & H3 & _).
  unfold cacheKey, avatarOf in *. rewrite H1, H2, H3.
  now rewrite !(or_else_truthy _ _ Ha).
Qed.

Lemma avatarOf_applyPersistentName m cn :
  avatarOf (applyPersistentName m cn) = avatarOf m.
Proof.
  destruct (applyPersistentName_avatars m cn) as (H1 & H2 & H3 & _).
  unfold avatarOf. now rewrite H1, H2, H3.
Qed.

Lemma cardsTidy_cards w w' : cards w' = cards w → cardsTidy w → cardsTidy w'.
Proof.
  unfold cards, cardsTidy. intros Hc Ht ctx' c s Hh.
  rewrite Hh in Hc. destruct (host w) as [ctx|]; [|discriminate].
  simpl in Hc. injection Hc as Hc _ _ _. rewrite Hc. now apply Ht.
Qed.

Lemma installed_flags m cn :
  is_user (applyPersistentName m cn) || is_system (applyPersistentName m cn)
  = is_user m || is_system m.
Proof. destruct (applyPersistentName_avatars m cn) as (_ & _ & _ & -> & ->). reflexivity. Qed.

(** The end of the loop body for a name that is not empty: the override is
    applied and the block patched. *)
Lemma finish_first id m cn w1 :
  tidy w1 → msgAt id w1 = Some (Some m) → is_user m || is_system m = false →
  trimmed cn →
  (truthy (avatarOf m) = true → is_Some (cacheGet (nameCache (ext w1)) (cacheKey m))) →
  let w' := updateUIName id (storeMessage id (applyPersistentName m cn) w1) in
  tidy w' ∧ advance id w1 w'
  ∧ ∀ m', msgAt id w' = Some (Some m') → settled w' id m'.
Proof.
  intros (Hcards & Hcache & Hmsgs) Hm Hf Hcn Hkey w'.
  destruct (Hmsgs id m Hm) as [Hcfg Hold].
  destruct (applyPersistentName_tidy m cn Hcfg Hcn Hold) as (Hp' & Hcfg' & cn' & Hinst & Hcn').
  set (m1 := applyPersistentName m cn) in *.
  set (w2 := storeMessage id m1 w1) in *.
  assert (Hm2 : msgAt id w2 = Some (Some m1)).
  { apply msgAt_storeMessage. rewrite Hm. now eexists. }
  assert (Hm' : msgAt id w' = Some (Some m1)).
  { subst w'. now rewrite msgAt_updateUIName. }
  assert (Hadv : advance id w1 w').
  { apply (advance_trans id w1 w2 w'); [apply advance_storeMessage|apply advance_updateUIName]. }
  split; [|split; [exact Hadv|]].
  - split; [|split].
    + apply (cardsTidy_cards w1 w'); [apply Hadv|exact Hcards].
    + unfold cacheTidy. subst w'. rewrite ext_updateUIName. exact Hcache.
    + intros j mj Hj. destruct (decide (j = id)) as [->|Hne].
      * rewrite Hm' in Hj. injection Hj as <-. split; [exact Hcfg'|]. intros _. now exists cn'.
      * destruct Hadv as (_ & Hfr & _). destruct (Hfr j Hne) as [Hmj _].
        rewrite Hmj in Hj. exact (Hmsgs j mj Hj).
  - intros m' Hm''. rewrite Hm' in Hm''. injection Hm'' as <-.
    right; left. split; [exact Hp'|]. split.
    + subst w'. apply (updateUIName_shows id m1 cn' w2 Hm2).
      * subst m1. now rewrite installed_flags.
      * apply installed_read; [apply Hcn'|exact Hinst].
      * exact Hcn'.
    + subst w'. rewrite ext_updateUIName. subst w2. simpl.
      destruct (truthy (avatarOf m)) eqn:Ha.
      * left. subst m1. rewrite cacheKey_applyPersistentName by exact Ha. now apply Hkey.
      * right. subst m1. now rewrite avatarOf_applyPersistentName.
Qed.

Lemma cacheGet_Some cache key v :
  cacheGet cache key = Some v → ∃ k, key = Some k ∧ cache !! k = Some v.
Proof. destruct key as [k|]; simpl; [|discriminate]. intros H. now exists k. Qed.

(** One step of the first run. *)
Lemma syncMessage_first id w w' :
  tidy w → syncMessage id w = (w', Ok tt) →
  tidy w' ∧ advance id w w'
  ∧ ∀ m', msgAt id w' = Some (Some m') → is_user m' || is_system m' = false →
          settled w' id m'.
Proof.
  intros Ht. pose proof (eq_refl (msgAt id w)) as Hm. unfold msgAt at 2 in Hm.
  unfold syncMessage, getContext.
  destruct (host w) as [ctx|] eqn:Hctx.
  2:{ intros H. injection H as <-. split; [exact Ht|]. split; [apply advance_refl|].
      intros m' Hm'. congruence. }
  destruct (chat ctx) as [msgs|] eqn:Hchat.
  2:{ intros H. injection H as <-. split; [exact Ht|]. split; [apply advance_refl|].
      intros m' Hm'. congruence. }
  destruct (msgs !! id) as [[m|]|] eqn:Hid.
  2:{ intros H. injection H as <-. split; [exact Ht|]. split; [apply advance_refl|].
      intros m' Hm'. congruence. }
  2:{ intros H. injection H as <-. split; [exact Ht|]. split; [apply advance_refl|].
      intros m' Hm'. congruence. }
  destruct (is_user m || is_system m) eqn:Hf.
  { intros H. injection H as <-. split; [exact Ht|]. split; [apply advance_refl|].
    intros m' Hm' Hf'. congruence. }
  destruct Ht as (Hcards & Hcache & Hmsgs).
  destruct (cacheGet (nameCache (ext w)) (cacheKey m)) as [v|] eqn:Hget.
  - destruct (cacheGet_Some _ _ _ Hget) as (k & Hk & Hkv).
    destruct (Hcache k v Hkv) as [->|Hv].
    + simpl. intros H. injection H as <-.
      split; [now split|]. split; [apply advance_refl|].
      intros m' Hm' _. rewrite Hm in Hm'. injection Hm' as <-.
      now left.
    + rewrite (proj2 (truthy_Some_nonempty v) (proj1 Hv)).
      intros H. injection H as <-.
      destruct (finish_first id m v w) as (T & A & S); try assumption; [now split| |].
      { intros _. rewrite Hget. now eexists. }
      split; [exact T|]. split; [exact A|]. intros m' Hm' _. now apply S.
  - destruct (getCharacterForMessage w (Some m)) as [c|e] eqn:Hres; cbn [bind];
      [|discriminate].
    assert (Hcn : getChatName c = [] ∨ trimmed (getChatName c)).
    { apply (getChatName_tidy w ctx m c Hcards); [exact Hctx|exact Hres]. }
    fold (getContext w) in Hres.
    set (w1 := if truthy (cacheKey m) then _ else w).
    assert (H1 : tidy w1 ∧ advance id w w1 ∧ msgAt id w1 = Some (Some m)
                 ∧ (truthy (cacheKey m) = true →
                    cacheGet (nameCache (ext w1)) (cacheKey m) = Some (getChatName c))
                 ∧ (truthy (cacheKey m) = false → w1 = w)).
    { subst w1. destruct (truthy (cacheKey m)) eqn:Hk.
      - destruct (cacheKey m) as [[|u k]|] eqn:Hkey; try discriminate. simpl in Hget.
        split; [|split; [now apply advance_cache|split; [exact Hm|split; [|discriminate]]]].
        + split; [exact Hcards|]. split; [|exact Hmsgs].
          intros k' v'. simpl. rewrite lookup_insert.
          destruct (decide (u :: k = k')); [|apply Hcache].
          intros H. injection H as <-. exact Hcn.
        + intros _. simpl. now rewrite lookup_insert_eq.
      - split; [now split|]. split; [apply advance_refl|]. split; [exact Hm|]. split; [discriminate|reflexivity]. }
    destruct H1 as (T1 & A1 & Hm1 & Hin & Hout).
    destruct Hcn as [Hempty|Hcn].
    + rewrite Hempty. simpl. intros H. injection H as <-.
      split; [exact T1|]. split; [exact A1|].
      intros m' Hm' _. rewrite Hm1 in Hm'. injection Hm' as <-.
      destruct (truthy (cacheKey m)) eqn:Hk.
      * left. rewrite (Hin eq_refl). now rewrite Hempty.
      * right; right. rewrite (Hout eq_refl). split; [exact Hget|]. split; [exact Hk|].
        now exists c.
    + rewrite (proj2 (truthy_Some_nonempty _) (proj1 Hcn)).
      intros H. injection H as <-.
      destruct (finish_first id m (getChatName c) w1) as (T & A & S); try assumption.
      { intros Ha. assert (Hk : truthy (cacheKey m) = true).
        { unfold cacheKey. now rewrite (or_else_truthy _ _ Ha). }
        rewrite (Hin Hk). now eexists. }
      split; [exact T|]. split; [now apply (advance_trans id w w1)|].
      intros m' Hm' _. now apply S.
Qed.

(** The first run settles every message it visits. *)
Lemma forEach_first ids : NoDup ids → ∀ (visited : nat → Prop) w w',
  (∀ j, visited j → j ∉ ids) → tidy w →
  (∀ j m, visited j → msgAt j w = Some (Some m) →
          is_user m || is_system m = false → settled w j m) →
  forEach syncMessage ids w = (w', Ok tt) →
  tidy w' ∧ cards w' = cards w
  ∧ (∀ j, is_Some (msgAt j w') → is_Some (msgAt j w))
  ∧ (∀ j m, visited j ∨ j ∈ ids → msgAt j w' = Some (Some m) →
            is_user m || is_system m = false → settled w' j m).
Proof.
  induction 1 as [|id ids Hnotin Hnodup IH]; intros visited w w' Hfresh Ht Hset; simpl.
  { intros H. injection H as <-. split; [exact Ht|]. split; [reflexivity|]. split; [easy|].
    intros j m [Hv|Hin]; [now apply Hset|]. now apply elem_of_nil in Hin. }
  destruct (syncMessage id w) as [w1 [[]|e]] eqn:Hstep; [|discriminate].
  destruct (syncMessage_first id w w1 Ht Hstep) as (T1 & A1 & S1).
  intros Hrest.
  destruct (IH (fun j => visited j ∨ j = id) w1 w') as (T & C & B & S); try assumption.
  - intros j [Hv| ->]; [|exact Hnotin].
    intros Hin. apply (Hfresh j Hv). apply elem_of_cons. now right.
  - intros j m [Hv| ->] Hm Hf; [|now apply S1].
    assert (Hne : j ≠ id).
    { intros ->. apply (Hfresh id Hv). apply elem_of_cons. now left. }
    apply (settled_advance id j m w w1 A1 Hne). apply Hset; [exact Hv| |exact Hf].
    destruct A1 as (_ & Hfr & _). destruct (Hfr j Hne) as [<- _]. exact Hm.
  - split; [exact T|]. split; [destruct A1 as (A1 & _); congruence|]. split.
    + intros j Hj. apply B in Hj. destruct (decide (j = id)) as [->|Hne].
      * now apply A1.
      * destruct A1 as (_ & Hfr & _). destruct (Hfr j Hne) as [<- _]. exact Hj.
    + intros j m Hj. apply S. destruct Hj as [Hv|Hin]; [left; now left|].
      apply elem_of_cons in Hin as [->|Hin]; [left; now right|now right].
Qed.

Lemma tidy_set_name2 v w : tidy w → tidy (upd_host (set_name2 v) w).
Proof.
  intros (Hc & Hk & Hm). split; [|split].
  - intros ctx' c s. simpl. destruct (host w) as [ctx|] eqn:Hh; [|discriminate].
    simpl. intros H. injection H as <-. simpl. now apply Hc.
  - exact Hk.
  - intros id m. rewrite msgAt_set_name2. apply Hm.
Qed.

Lemma tidy_overrideName2 ctx w : tidy w → tidy (overrideName2 ctx w).
Proof.
  intros Ht. unfold overrideName2.
  destruct (characterId ctx); [|exact Ht].
  destruct (negb _); [|exact Ht].
  destruct (_ && _); [|exact Ht]. now apply tidy_set_name2.
Qed.

Lemma msgAt_overrideName2 ctx id w : msgAt id (overrideName2 ctx w) = msgAt id w.
Proof.
  unfold overrideName2.
  destruct (characterId ctx); [|reflexivity].
  destruct (negb _); [|reflexivity].
  destruct (_ && _); [|reflexivity]. apply msgAt_set_name2.
Qed.

(** Step 1 has nothing to do on the page it has left. *)
Lemma overrideName2_again ctx ctx1 w w1 :
  getContext w = Some ctx → cards w1 = cards (overrideName2 ctx w) →
  getContext w1 = Some ctx1 → overrideName2 ctx1 w1 = w1.
Proof.
  unfold getContext, cards. intros Hctx Hc Hctx1. rewrite Hctx1 in Hc. simpl in Hc.
  unfold overrideName2 in *.
  destruct (characterId ctx) as [i|] eqn:Hi.
  2:{ rewrite Hctx in Hc. simpl in Hc. injection Hc as _ -> _ _. now rewrite Hi. }
  destruct (negb (truthy (groupId ctx))) eqn:Hg.
  2:{ rewrite Hctx in Hc. simpl in Hc. injection Hc as _ -> -> _. now rewrite Hi, Hg. }
  destruct (truthy (Some (getChatName (characters ctx !! i)))
            && bool_decide (name2 ctx ≠ Some (getChatName (characters ctx !! i)))) eqn:Hb.
  - simpl in Hc. rewrite Hctx in Hc. simpl in Hc. injection Hc as -> -> -> ->.
    rewrite Hi, Hg. rewrite bool_decide_eq_false_2, andb_false_r; [reflexivity|].
    intros Hx. now apply Hx.
  - rewrite Hctx in Hc. simpl in Hc. injection Hc as -> -> -> ->.
    now rewrite Hi, Hg, Hb.
Qed.

End FirstRun.

(** On a page whose names carry no outer white space, a second run of the
    synchronizer completes, writes no text and leaves the messages and the
    rendered chat as the first run left them. *)
Theorem syncChatData_second_run_silent (w w1 : ChatName.world) :
  tidy w → ChatName.syncChatData w = (w1, Ok tt) →
  ∃ w2, ChatName.syncChatData w1 = (w2, Ok tt)
        ∧ ChatName.doc w2 = ChatName.doc w1 ∧ ChatName.host w2 = ChatName.host w1.
Proof.
  intros Ht H. unfold ChatName.syncChatData in H.
  destruct (ChatName.getContext w) as [ctx|] eqn:Hctx.
  2:{ injection H as <-. exists w. unfold ChatName.syncChatData. now rewrite Hctx. }
  destruct (ChatName.chat ctx) as [msgs|] eqn:Hchat.
  2:{ injection H as <-. exists w. unfold ChatName.syncChatData. now rewrite Hctx, Hchat. }
  set (w0 := ChatName.overrideName2 ctx w) in *.
  destruct (forEach_first (seq 0 (length msgs)) (NoDup_seq _ _) (fun _ => False) w0 w1)
    as (T1 & C1 & B1 & S1); try assumption; try easy.
  { now apply tidy_overrideName2. }
  unfold ChatName.syncChatData.
  destruct (ChatName.getContext w1) as [ctx1|] eqn:Hctx1; [|now exists w1].
  destruct (ChatName.chat ctx1) as [msgs1|] eqn:Hchat1; [|now exists w1].
  rewrite (overrideName2_again ctx ctx1 w w1 Hctx C1 Hctx1).
  destruct (forEach_settled (seq 0 (length msgs1)) w1) as (w2 & H2 & Hg).
  - intros id m Hm Hf. apply S1; [|exact Hm|exact Hf]. right.
    assert (Hsome : is_Some (msgAt id w0)) by (apply B1; rewrite Hm; now eexists).
    subst w0. rewrite msgAt_overrideName2 in Hsome. unfold msgAt in Hsome.
    unfold ChatName.getContext in Hctx. rewrite Hctx, Hchat in Hsome.
    apply lookup_lt_is_Some in Hsome. apply elem_of_seq. lia.
  - exists w2. split; [exact H2|]. destruct Hg as (Hh & Hd & _). now split.
Qed.

Lemma tidy_merrickChat : tidy Sample.merrickChat.
Proof.
  split; [|split].
  - intros ctx c s H. injection H as <-. simpl. intros Hc Hs.
    apply list_elem_of_singleton in Hc. subst c. injection Hs as <-.
    right. split; [discriminate|reflexivity].
  - intros k v. simpl. now rewrite lookup_empty.
  - intros [|id] m; simpl; [|now destruct id].
    intros H. injection H as <-. split; [reflexivity|discriminate].
Qed.

Example second_run_silent_ex :
  ∃ w2, ChatName.syncChatData (fst (ChatName.syncChatData Sample.merrickChat)) = (w2, Ok tt)
        ∧ ChatName.doc w2 = ChatName.doc (fst (ChatName.syncChatData Sample.merrickChat)).
Proof.
  destruct (syncChatData_second_run_silent Sample.merrickChat
              (fst (ChatName.syncChatData Sample.merrickChat)) tidy_merrickChat)
    as (w2 & H & Hd & _); [vm_compute; reflexivity|].
  now exists w2.
Qed.

(** *** The cache after a full clear *)

Section Refresh.

Import ChatName.

Lemma cards_upd_ext f w : cards (upd_ext f w) = cards w.
Proof. reflexivity. Qed.

(** What one step of the loop does to the cache: nothing, or one name
    resolved for the message at hand under a key that had none. *)
Lemma syncMessage_cache id w w' r :
  syncMessage id w = (w', r) →
  cards w' = cards w ∧ (∀ j, j ≠ id → msgAt j w' = msgAt j w)
  ∧ (nameCache (ext w') = nameCache (ext w)
     ∨ ∃ m c k, msgAt id w = Some (Some m) ∧ cacheKey m = Some k
                ∧ getCharacterForMessage w (Some m) = Ok c
                ∧ nameCache (ext w') = <[k := getChatName c]> (nameCache (ext w))).
Proof.
  pose proof (eq_refl (msgAt id w)) as Hm. unfold msgAt at 2 in Hm.
  unfold syncMessage, getContext.
  destruct (host w) as [ctx|] eqn:Hctx; [|intros H; injection H as <- <-; now auto].
  destruct (chat ctx) as [msgs|] eqn:Hchat; [|intros H; injection H as <- <-; now auto].
  destruct (msgs !! id) as [[m|]|] eqn:Hid; try (intros H; injection H as <- <-; now auto).
  destruct (is_user m || is_system m); [intros H; injection H as <- <-; now auto|].
  assert (Hfin : ∀ cn w1 w2 r2,
            (if truthy (Some cn)
             then (updateUIName id (storeMessage id (applyPersistentName m cn) w1), Ok tt)
             else (w1, Ok tt)) = (w2, r2) →
            cards w2 = cards w1 ∧ (∀ j, j ≠ id → msgAt j w2 = msgAt j w1)
            ∧ nameCache (ext w2) = nameCache (ext w1)).
  { intros cn w1 w2 r2. destruct (truthy (Some cn)); intros H; injection H as <- <-; [|now auto].
    split; [now rewrite cards_updateUIName, cards_storeMessage|]. split.
    - intros j Hj. rewrite msgAt_updateUIName. apply msgAt_storeMessage_ne. congruence.
    - now rewrite ext_updateUIName. }
  destruct (cacheGet (nameCache (ext w)) (cacheKey m)) as [cn|] eqn:Hget.
  - intros H. destruct (Hfin cn w w' r H) as (H1 & H2 & H3). now auto.
  - fold (getContext w). destruct (getCharacterForMessage w (Some m)) as [c|e] eqn:Hres;
      cbn [bind]; [|intros H; injection H as <- <-; now auto].
    intros H. apply Hfin in H as (H1 & H2 & H3).
    destruct (truthy (cacheKey m)) eqn:Hk.
    + rewrite cards_upd_ext in H1. split; [exact H1|]. split; [exact H2|]. right.
      destruct (cacheKey m) as [[|u k]|] eqn:Hkey; try discriminate.
      exists m, c, (u :: k). rewrite H3. simpl. split; [exact Hm|]. now split.
    + now auto.
Qed.

Lemma resolver_set_name2 v w mo :
  getCharacterForMessage (upd_host (set_name2 v) w) mo = getCharacterForMessage w mo.
Proof.
  unfold getCharacterForMessage, getContext. simpl.
  destruct (host w) as [ctx|]; reflexivity.
Qed.

Lemma resolver_overrideName2 ctx w mo :
  getCharacterForMessage (overrideName2 ctx w) mo = getCharacterForMessage w mo.
Proof.
  unfold overrideName2.
  destruct (characterId ctx); [|reflexivity].
  destruct (negb _); [|reflexivity].
  destruct (_ && _); [|reflexivity]. apply resolver_set_name2.
Qed.

(** Every name cached during the loop was resolved, when the loop began,
    for a message of the transcript. *)
Lemma forEach_cache ids : NoDup ids → ∀ w0 w w' r,
  cards w = cards w0 → (∀ j, j ∈ ids → msgAt j w = msgAt j w0) →
  forEach syncMessage ids w = (w', r) →
  ∀ k v, nameCache (ext w') !! k = Some v →
         nameCache (ext w) !! k = Some v ∨ resolvedNow w0 k v.
Proof.
  induction 1 as [|id ids Hnotin Hnodup IH]; intros w0 w w' r Hc Hm; simpl.
  { intros H. injection H as <- <-. now left. }
  destruct (syncMessage id w) as [w1 r1] eqn:Hstep.
  destruct (syncMessage_cache id w w1 r1 Hstep) as (C1 & F1 & K1).
  assert (Hone : ∀ k v, nameCache (ext w1) !! k = Some v →
                        nameCache (ext w) !! k = Some v ∨ resolvedNow w0 k v).
  { intros k v Hkv. destruct K1 as [<-|(m & c & k1 & Hmsg & Hkey & Hres & Heq)]; [now left|].
    rewrite Heq, lookup_insert in Hkv. destruct (decide (k1 = k)) as [<-|]; [|now left].
    injection Hkv as <-. right. exists id, m, c.
    rewrite <- (Hm id) by (apply elem_of_cons; now left).
    rewrite <- (resolver_cards w0 w) by exact Hc. easy. }
  destruct r1 as [[]|e].
  - intros Hrest k v Hkv.
    destruct (IH w0 w1 w' r) with (k := k) (v := v) as [H1|H1]; try assumption.
    + congruence.
    + intros j Hj. assert (j ≠ id) by (intros ->; contradiction).
      rewrite (F1 j) by assumption. apply Hm. apply elem_of_cons. now right.
    + now apply Hone.
    + now right.
  - intros H. injection H as <- <-. exact Hone.
Qed.

End Refresh.

(** After a full clear, every name the synchronizer caches is the name
    resolved now, under the overrides the characters hold now, for a message
    of the transcript with that key. *)
Theorem cache_after_clear (w w' : ChatName.world) (r : result unit) :
  ChatName.updateAllNames w = (w', r) →
  ∀ k v, ChatName.nameCache (ChatName.ext w') !! k = Some v → resolvedNow w k v.
Proof.
  unfold ChatName.updateAllNames, ChatName.syncChatData. simpl.
  destruct (ChatName.host w) as [ctx|] eqn:Hctx.
  2:{ intros H. injection H as <- <-. simpl. intros k v. now rewrite lookup_empty. }
  destruct (ChatName.chat ctx) as [msgs|].
  2:{ intros H. injection H as <- <-. simpl. intros k v. now rewrite lookup_empty. }
  set (wc := ChatName.upd_ext (ChatName.set_nameCache ∅) w).
  intros H k v Hkv.
  destruct (forEach_cache _ (NoDup_seq 0 (length msgs))
              (ChatName.overrideName2 ctx wc) (ChatName.overrideName2 ctx wc) w' r
              eq_refl (fun _ _ => eq_refl) H k v Hkv) as [Hold|(id & m & c & H1 & H2 & H3 & H4)].
  - exfalso. revert Hold. unfold ChatName.overrideName2.
    destruct (ChatName.characterId ctx); [|simpl; now rewrite lookup_empty].
    destruct (negb _); [|simpl; now rewrite lookup_empty].
    destruct (_ && _); simpl; now rewrite lookup_empty.
  - exists id, m, c. rewrite msgAt_overrideName2 in H1.
    rewrite resolver_overrideName2 in H3. easy.
Qed.

(** *** The lifecycle on the sample pages *)

(** Without a host the poll gives up at the hundredth firing, and not
    before; with one, the first firing initializes. *)
Example poll_timeout :
  ChatName.armed (fst (poll 99 {| ChatName.attempts := 0; ChatName.armed := true |}
                         Sample.loadingPage)) = true
  ∧ poll 100 {| ChatName.attempts := 0; ChatName.armed := true |} Sample.loadingPage
    = ({| ChatName.attempts := 100; ChatName.armed := false |}, Sample.loadingPage)
  ∧ poll 250 {| ChatName.attempts := 0; ChatName.armed := true |} Sample.loadingPage
    = ({| ChatName.attempts := 100; ChatName.armed := false |}, Sample.loadingPage).
Proof. vm_compute. repeat split. Qed.

Example poll_ready :
  let '(p, w) := poll 3 {| ChatName.attempts := 0; ChatName.armed := true |}
                      Sample.merrickChat in
  p = {| ChatName.attempts := 1; ChatName.armed := false |}
  ∧ ChatName.initialized (ChatName.ext w) = true
  ∧ blockAt 0 w = Some (Sample.block "Merrick")
  ∧ (ChatName.name2 <$> ChatName.host w) = Some (Some (lit "Merrick")).
Proof. vm_compute. repeat split. Qed.

(** The macro handler and the prompt hook give the chat name, and the card
    name once the override is cleared in the editor. *)
Example macro_expands_to_chat_name :
  ChatName.getChatName (ChatName.getSelectedCharacter Sample.merrickChat) = lit "Merrick"
  ∧ ChatName.handleGenerateBeforePrompt Sample.merrickChat
      (Some (lit "Merrick | The Fool's Gambit")) = Some (lit "Merrick")
  ∧ ChatName.getChatName (ChatName.getSelectedCharacter (typeChatName [] Sample.merrickChat))
    = lit "Merrick | The Fool's Gambit".
Proof. vm_compute. repeat split. Qed.

(* ===================================================================== *)
(** ** Further properties of the code *)
(* ===================================================================== *)

(** *** Splitting and decoding *)

Lemma split_nonempty sep s : split sep s ≠ [].
Proof.
  destruct s as [|c s]; simpl; [discriminate|].
  destruct (c =? sep); [discriminate|]. now destruct (split sep s).
Qed.

Lemma split_no_sep sep s : sep ∉ s → split sep s = [s].
Proof.
  induction s as [|c s IH]; intros H; [reflexivity|]. simpl.
  apply not_elem_of_cons in H as [Hc Hs].
  destruct (N.eqb_spec c sep) as [->|_]; [congruence|]. now rewrite IH.
Qed.

Lemma last_cons_nonempty {A} (x : A) l d : l ≠ [] → List.last (x :: l) d = List.last l d.
Proof. destruct l; [congruence|reflexivity]. Qed.

(** [pop] after [split] keeps what follows the last separator. *)
Lemma pop_split_app sep a b : pop (split sep (a ++ sep :: b)) = pop (split sep b).
Proof.
  unfold pop. induction a as [|c a IH]; simpl.
  - rewrite N.eqb_refl. apply last_cons_nonempty, split_nonempty.
  - destruct (c =? sep).
    + rewrite last_cons_nonempty by apply split_nonempty. exact IH.
    + destruct (split sep (a ++ sep :: b)) as [|seg segs] eqn:Hs.
      { now apply split_nonempty in Hs. }
      destruct segs as [|seg' segs]; [|exact IH].
      (* one segment only: impossible, the separator is there *)
      exfalso. clear IH. revert seg Hs. induction a as [|d a IHa]; intros seg; simpl.
      * rewrite N.eqb_refl. intros H. injection H as _ H. now apply split_nonempty in H.
      * destruct (d =? sep); [intros H; injection H as _ H; now apply split_nonempty in H|].
        destruct (split sep (a ++ sep :: b)) as [|s1 [|s2 ss]] eqn:Hs'; try discriminate.
        { now apply split_nonempty in Hs'. }
        intros _. now apply (IHa s1).
Qed.


(** Without a percent sign there is nothing to decode. *)
Lemma decodeURIComponent_plain s : 0x25 ∉ s → decodeURIComponent s = Ok s.
Proof.
  unfold decodeURIComponent. induction s as [|c s IH]; intros H; [reflexivity|]. simpl.
  apply not_elem_of_cons in H as [Hc Hs].
  destruct (N.eqb_spec c 0x25) as [->|_]; [congruence|]. now rewrite IH.
Qed.

(** A percent sign that two hex digits do not follow is an error. *)
Lemma decodeURIComponent_bad_escape pre post :
  0x25 ∉ pre → ParseHexOctet post = None →
  decodeURIComponent (pre ++ 0x25 :: post) = Throw URIError.
Proof.
  unfold decodeURIComponent. intros Hpre Hpost.
  induction pre as [|c pre IH]; simpl.
  - unfold decodeEscape. now rewrite Hpost.
  - apply not_elem_of_cons in Hpre as [Hc Hp].
    destruct (N.eqb_spec c 0x25) as [->|_]; [congruence|]. now rewrite IH.
Qed.

Section Normalize.
Import ChatName.


End Normalize.

Section Normalize2.
Import ChatName.




End Normalize2.



(** X2.  A file name holding a percent sign that two hex digits do not
    follow makes [normalizeAvatar] raise [URIError], with or without a
    directory in front. *)
Theorem X2_normalizeAvatar_raises (dir pre post : jsstring) :
  0x2F ∉ pre → 0x3F ∉ pre → 0x25 ∉ pre → 0x2F ∉ post → 0x3F ∉ post →
  ParseHexOctet post = None →
  ChatName.normalizeAvatar (Some (pre ++ 0x25 :: post)) = Throw URIError
  ∧ ChatName.normalizeAvatar (Some (dir ++ 0x2F :: pre ++ 0x25 :: post)) = Throw URIError.
Proof.
  intros H1 H2 H3 H4 H5 H6.
  assert (Hs : 0x2F ∉ pre ++ 0x25 :: post).
  { intros H. apply elem_of_app in H as [H|H]; [contradiction|].
    apply elem_of_cons in H as [H|H]; [discriminate|contradiction]. }
  assert (Hq : 0x3F ∉ pre ++ 0x25 :: post).
  { intros H. apply elem_of_app in H as [H|H]; [contradiction|].
    apply elem_of_cons in H as [H|H]; [discriminate|contradiction]. }
  unfold ChatName.normalizeAvatar. split.
  - destruct (truthy _) eqn:Ht; [|destruct pre; discriminate].
    cbn [negb or_empty]. rewrite (split_no_sep 0x2F) by exact Hs.
    unfold pop. cbn [List.last]. rewrite (split_no_sep 0x3F) by exact Hq.
    now apply decodeURIComponent_bad_escape.
  - destruct (truthy _) eqn:Ht; [|destruct dir; discriminate].
    cbn [negb or_empty]. rewrite pop_split_app.
    rewrite (split_no_sep 0x2F) by exact Hs.
    unfold pop. cbn [List.last]. rewrite (split_no_sep 0x3F) by exact Hq.
    now apply decodeURIComponent_bad_escape.
Qed.

Lemma X2_normalizeAvatar_raises_witness :
  ChatName.normalizeAvatar (Some (lit "100%.png")) = Throw URIError
  ∧ ChatName.normalizeAvatar (Some (lit "/characters/100%.png")) = Throw URIError.
Proof.
  apply (X2_normalizeAvatar_raises (lit "/characters") (lit "100") (lit ".png"));
    compute_done.
Defined.

(** *** The name steps of the resolver *)

Lemma startsWith_spec p s : startsWith p s = true ↔ ∃ b, s = p ++ b.
Proof.
  revert s. induction p as [|a p IH]; intros s; simpl.
  - split; [intros _; now exists s|reflexivity].
  - destruct s as [|c s]; [split; [discriminate|intros [b Hb]; discriminate]|].
    rewrite andb_true_iff, N.eqb_eq, IH. split.
    + intros [-> [b ->]]. now exists b.
    + intros [b Hb]. injection Hb as -> ->. split; [reflexivity|now exists b].
Qed.

Lemma includes_spec s p : includes s p = true ↔ substring p s.
Proof.
  unfold substring. induction s as [|c s IH]; simpl.
  - rewrite orb_false_r, startsWith_spec. split.
    + intros [b Hb]. now exists [], b.
    + intros (a & b & H). destruct a; [now exists b|discriminate].
  - rewrite orb_true_iff, startsWith_spec, IH. split.
    + intros [[b Hb]|(a & b & ->)]; [now exists [], b|now exists (c :: a), b].
    + intros (a & b & H). destruct a as [|d a]; [left; now exists b|].
      right. injection H as -> ->. now exists a, b.
Qed.

Lemma fuzzy_spec nm c : ChatName.fuzzy nm c = true ↔ fuzzyMatch nm (trimmedCardName c).
Proof.
  unfold ChatName.fuzzy, fuzzyMatch, trimmedCardName.
  rewrite andb_true_iff, orb_true_iff, !includes_spec, Nat.ltb_lt. tauto.
Qed.

(** [Array.prototype.find]: the first element that passes, by position. *)
Lemma find_first {A} (f : A → bool) (l : list A) :
  match List.find f l with
  | Some x => ∃ i, l !! i = Some x ∧ f x = true
                   ∧ ∀ j y, (j < i)%nat → l !! j = Some y → f y = false
  | None => ∀ y, y ∈ l → f y = false
  end.
Proof.
  induction l as [|x l IH]; simpl.
  - intros y Hy. now apply elem_of_nil in Hy.
  - destruct (f x) eqn:Hx.
    + exists 0%nat. split; [reflexivity|]. split; [exact Hx|]. intros j y Hj. lia.
    + destruct (List.find f l) as [z|].
      * destruct IH as (i & Hi & Hz & Hlt). exists (S i). split; [exact Hi|].
        split; [exact Hz|]. intros [|j] y Hj; simpl.
        -- intros H. injection H as <-. exact Hx.
        -- apply Hlt. lia.
      * intros y Hy. apply elem_of_cons in Hy as [->|Hy]; [exact Hx|now apply IH].
Qed.

(** X3.  The fuzzy step returns the first character of the list whose
    trimmed card name is longer than two code units and occurs in the
    trimmed author name, or has the author name occurring in it; it returns
    none when the author name is empty or no character passes that test.  A
    card name of one or two code units therefore never matches fuzzily. *)
Theorem X3_matchFuzzy_first (ctx : ChatName.context) (m : ChatName.message) :
  match ChatName.matchFuzzy ctx m with
  | Some c =>
      ChatName.authorName m ≠ []
      ∧ ∃ i, ChatName.characters ctx !! i = Some c
             ∧ fuzzyMatch (ChatName.authorName m) (trimmedCardName c)
             ∧ ∀ j c', (j < i)%nat → ChatName.characters ctx !! j = Some c' →
                       ¬ fuzzyMatch (ChatName.authorName m) (trimmedCardName c')
  | None =>
      ChatName.authorName m = []
      ∨ ∀ c', c' ∈ ChatName.characters ctx →
              ¬ fuzzyMatch (ChatName.authorName m) (trimmedCardName c')
  end.
Proof.
  unfold ChatName.matchFuzzy.
  destruct (truthy (Some (ChatName.authorName m))) eqn:Ht.
  - apply truthy_Some_nonempty in Ht.
    pose proof (find_first (ChatName.fuzzy (ChatName.authorName m)) (ChatName.characters ctx)) as H.
    destruct (List.find _ _) as [c|].
    + destruct H as (i & Hi & Hc & Hlt). split; [exact Ht|]. exists i.
      split; [exact Hi|]. split; [now apply fuzzy_spec|].
      intros j c' Hj Hc' Hf. apply fuzzy_spec in Hf. now rewrite (Hlt j c' Hj Hc') in Hf.
    + right. intros c' Hc' Hf. apply fuzzy_spec in Hf. now rewrite (H c' Hc') in Hf.
  - left. now apply truthy_Some_empty.
Qed.

(** X4.  Whatever the message, a character returned by the resolver is one
    of the host's character list: no step makes a character up. *)
Theorem X4_resolver_returns_listed
    (w : ChatName.world) (ctx : ChatName.context) (m : ChatName.message)
    (c : ChatName.character) :
  ChatName.getContext w = Some ctx →
  ChatName.getCharacterForMessage w (Some m) = Ok (Some c) →
  c ∈ ChatName.characters ctx.
Proof. apply resolver_in. Qed.

Lemma X4_resolver_returns_listed_witness :
  Sample.tavern ∈ [Sample.gambit; Sample.tavern].
Proof.
  exact (X4_resolver_returns_listed
           (Sample.page [Sample.gambit; Sample.tavern] None [] []) _
           (Sample.said (Some "/characters/tavern.png?t=3") "Merrick") Sample.tavern
           eq_refl eq_refl).
Defined.

Lemma find_app_first {A} (f : A → bool) pre c post :
  Forall (fun x => f x = false) pre → f c = true →
  List.find f (pre ++ c :: post) = Some c.
Proof.
  intros Hpre Hc. induction Hpre as [|x pre Hx _ IH]; simpl.
  - now rewrite Hc.
  - now rewrite Hx.
Qed.

(** X5.  For a message that carries no avatar identifier and a non-empty
    author name, the character whose card name is exactly the trimmed
    author name is returned, the first such in list order, even when an
    earlier character of the list would match fuzzily. *)
Theorem X5_exact_name_before_fuzzy
    (w : ChatName.world) (ctx : ChatName.context) (m : ChatName.message)
    (pre post : list ChatName.character) (c : ChatName.character) :
  ChatName.getContext w = Some ctx →
  truthy (ChatName.avatarOf m) = false →
  ChatName.authorName m ≠ [] →
  ChatName.characters ctx = pre ++ c :: post →
  ChatName.char_name c = Some (ChatName.authorName m) →
  Forall (fun c' => ChatName.char_name c' ≠ Some (ChatName.authorName m)) pre →
  ChatName.getCharacterForMessage w (Some m) = Ok (Some c).
Proof.
  intros Hctx Hav Hne Hcs Hc Hpre. unfold ChatName.getCharacterForMessage.
  rewrite Hctx. unfold ChatName.matchAvatar, ChatName.normalizeAvatar. rewrite Hav. simpl.
  unfold ChatName.avatarOf in Hav.
  destruct (truthy_or_else_false _ _ Hav) as [_ Hav'].
  destruct (truthy_or_else_false _ _ Hav') as [_ Ho].
  unfold ChatName.matchOriginalAvatar. rewrite Ho. simpl.
  unfold ChatName.matchName. apply truthy_Some_nonempty in Hne. rewrite Hne, Hcs.
  rewrite find_app_first; [reflexivity| |now apply bool_decide_eq_true_2].
  eapply Forall_impl; [exact Hpre|]. intros x Hx. now apply bool_decide_eq_false_2.
Qed.

Lemma X5_exact_name_before_fuzzy_witness :
  let m := Sample.said None " Merrick " in
  ChatName.fuzzy (ChatName.authorName m) Sample.tavern = true
  ∧ ChatName.getCharacterForMessage
      (Sample.page [Sample.tavern; Sample.card "Merrick" "m.png" None] None [m] []) (Some m)
    = Ok (Some (Sample.card "Merrick" "m.png" None)).
Proof.
  intros m. split; [reflexivity|].
  refine (X5_exact_name_before_fuzzy
            (Sample.page [Sample.tavern; Sample.card "Merrick" "m.png" None] None [m] []) _ m
            [Sample.tavern] [] (Sample.card "Merrick" "m.png" None)
            eq_refl eq_refl _ eq_refl eq_refl _).
  - discriminate.
  - constructor; [discriminate|constructor].
Defined.

(** *** The shape of a chat name *)

Lemma trimStart_suffix s : ∃ p, s = p ++ trimStart s.
Proof.
  induction s as [|c s [p IH]]; simpl; [now exists []|].
  destruct (isWhiteSpace c); [|now exists []].
  exists (c :: p). simpl. now rewrite <- IH.
Qed.

(** A trimmed string that is not empty starts and ends with code units
    that are not white space. *)
Lemma trim_ends s :
  trim s ≠ [] →
  (∃ a, head (trim s) = Some a ∧ isWhiteSpace a = false)
  ∧ (∃ z, last (trim s) = Some z ∧ isWhiteSpace z = false).
Proof.
  intros Hne. split.
  - unfold trim in *. destruct (trimStart_head s) as [H|(c & t & H & Hc)].
    + rewrite H in Hne. now contradiction Hne.
    + rewrite H. destruct (trimEnd_cons c t Hc) as [t' ->]. now exists c.
  - unfold trim, trimEnd in *.
    destruct (trimStart_head (rev (trimStart s))) as [H|(c & t & H & Hc)].
    + rewrite H in Hne. now contradiction Hne.
    + rewrite H. exists c. split; [|exact Hc]. simpl. now rewrite last_snoc.
Qed.

(** X6.  A chat name taken from an override is never empty and carries no
    outer white space: trimming it again changes nothing, and its first and
    last code units are not white space. *)
Theorem X6_override_name_trimmed (c : ChatName.character) (o : jsstring) :
  ChatName.char_chatName c = Some o → trim o ≠ [] →
  let n := ChatName.getChatName (Some c) in
  n ≠ [] ∧ trim n = n
  ∧ (∃ a, head n = Some a ∧ isWhiteSpace a = false)
  ∧ (∃ z, last n = Some z ∧ isWhiteSpace z = false).
Proof.
  intros Ho Hne n. subst n. rewrite (ChatName_override_wins c o Ho Hne).
  split; [exact Hne|]. split; [apply trim_idem|]. now apply trim_ends.
Qed.

Lemma X6_override_name_trimmed_witness :
  let n := ChatName.getChatName (Some Sample.merrick) in
  n ≠ [] ∧ trim n = n
  ∧ (∃ a, head n = Some a ∧ isWhiteSpace a = false)
  ∧ (∃ z, last n = Some z ∧ isWhiteSpace z = false).
Proof.
  apply (X6_override_name_trimmed Sample.merrick (lit "  Merrick ")); [reflexivity|].
  vm_compute. discriminate.
Defined.

(** *** What the DOM updater changes *)

Section Patch.
Import ChatName.

Lemma with_childNodes_same e : with_childNodes (childNodes e) e = e.
Proof. now destruct e. Qed.

Lemma noChildren_children e : noChildren e = true → children e = [].
Proof.
  unfold noChildren, children. intros H. apply negb_true_iff in H.
  induction (childNodes e) as [|n ns IH]; [reflexivity|].
  simpl in H. apply orb_false_iff in H as [Hn Hns].
  rewrite filter_cons, decide_False by congruence. now apply IH.
Qed.

(** The loop over the child nodes writes at most once, leaves the nodes
    alone when it does not write, and keeps the nested elements. *)
Lemma overrideFirstText_frame n ns ns' k :
  overrideFirstText n ns = Some (ns', k) →
  (k ≤ 1)%nat ∧ (k = 0%nat → ns' = ns)
  ∧ filter (fun x => isElementNode x = true) ns'
    = filter (fun x => isElementNode x = true) ns.
Proof.
  revert ns' k. induction ns as [|x ns IH]; intros ns' k H; simpl in H; [discriminate|].
  destruct x as [d| |].
  - destruct (0 <? length (trim d))%nat.
    + destruct (bool_decide _); injection H as <- <-.
      * split; [lia|]. split; [discriminate|]. reflexivity.
      * split; [lia|]. split; reflexivity.
    + destruct (overrideFirstText n ns) as [[ns'' k']|]; [|discriminate].
      injection H as <- <-. destruct (IH _ _ eq_refl) as (H1 & H2 & H3).
      split; [exact H1|]. split; [intros Hk; now rewrite H2|].
      rewrite !filter_cons, !decide_False by discriminate. exact H3.
  - destruct (overrideFirstText n ns) as [[ns'' k']|]; [|discriminate].
    injection H as <- <-. destruct (IH _ _ eq_refl) as (H1 & H2 & H3).
    split; [exact H1|]. split; [intros Hk; now rewrite H2|].
    rewrite !filter_cons, !decide_True by reflexivity. now rewrite H3.
  - destruct (overrideFirstText n ns) as [[ns'' k']|]; [|discriminate].
    injection H as <- <-. destruct (IH _ _ eq_refl) as (H1 & H2 & H3).
    split; [exact H1|]. split; [intros Hk; now rewrite H2|].
    rewrite !filter_cons, !decide_False by discriminate. exact H3.
Qed.

Lemma applyNameOverrideLoop_frame n sels : ∀ el el' k,
  applyNameOverrideLoop sels el n = (el', k) →
  (k ≤ 1)%nat ∧ (k = 0%nat → el' = el)
  ∧ (el' = el ∨ ∃ i e e', el !! i = Some e ∧ el' = <[i:=e']> el
                          ∧ matched_by e' = matched_by e ∧ children e' = children e).
Proof.
  induction sels as [|sel sels IH]; intros el el' k H; simpl in H.
  { injection H as <- <-. split; [lia|]. split; [reflexivity|now left]. }
  destruct (querySelector el sel) as [[i e]|] eqn:Hq; [|exact (IH _ _ _ H)].
  pose proof (querySelector_lookup _ _ _ _ Hq) as Hi.
  destruct (noChildren e) eqn:Hnc.
  - destruct (bool_decide _); injection H as <- <-.
    + split; [lia|]. split; [discriminate|]. right.
      exists i, e, (setTextContent (or_empty n) e).
      split; [exact Hi|]. split; [reflexivity|]. split; [reflexivity|].
      rewrite (noChildren_children e Hnc).
      apply noChildren_children, setTextContent_read.
    + split; [lia|]. split; [reflexivity|now left].
  - destruct (overrideFirstText n (childNodes e)) as [[ns k']|] eqn:Ho;
      [|exact (IH _ _ _ H)].
    injection H as <- <-. destruct (overrideFirstText_frame _ _ _ _ Ho) as (H1 & H2 & H3).
    split; [exact H1|]. split.
    + intros Hk. rewrite (H2 Hk), with_childNodes_same. now apply list_insert_id.
    + right. exists i, e, (with_childNodes ns e).
      split; [exact Hi|]. split; [reflexivity|]. split; [reflexivity|exact H3].
Qed.

(** When the loop first lands on an element without nested elements, it
    ends there: the text of that element is compared and replaced. *)
Lemma applyNameOverrideLoop_landing n sels el i e :
  landing sels el = Some (i, e) → noChildren e = true →
  applyNameOverrideLoop sels el n
  = if bool_decide (Some (textContent e) ≠ n)
    then (<[i := setTextContent (or_empty n) e]> el, 1%nat) else (el, 0%nat).
Proof.
  unfold landing. induction sels as [|sel sels IH]; simpl; [discriminate|].
  destruct (querySelector el sel) as [[j x]|] eqn:Hq; simpl.
  - intros H Hnc. injection H as -> ->. now rewrite Hnc.
  - exact IH.
Qed.

Lemma landing_insert sels (el : mesElement) i e e' :
  el !! i = Some e → matched_by e' = matched_by e →
  landing sels (<[i:=e']> el)
  = (fun '(j, y) => (j, if decide (j = i) then e' else y)) <$> landing sels el.
Proof.
  intros Hi Hm. unfold landing. induction sels as [|sel sels IH]; simpl; [reflexivity|].
  rewrite (querySelector_insert el i e e' sel Hi Hm).
  destruct (querySelector el sel) as [[j y]|]; simpl; [reflexivity|exact IH].
Qed.

Lemma landing_lookup sels (el : mesElement) i e :
  landing sels el = Some (i, e) → el !! i = Some e.
Proof.
  unfold landing. induction sels as [|sel sels IH]; simpl; [discriminate|].
  destruct (querySelector el sel) as [[j y]|] eqn:Hq; simpl; [|exact IH].
  intros H. injection H as -> ->. exact (querySelector_lookup _ _ _ _ Hq).
Qed.

End Patch.

(** X7.  One application of the name override to a block makes at most one
    text write; when it makes none the block is left exactly as it was;
    otherwise a single element of the block changes, and that element keeps
    its place, the selectors it answers to and its nested elements.  The
    block never gains or loses an element. *)
Theorem X7_override_patches_one_element
    (el : ChatName.mesElement) (n : option jsstring) :
  let '(el', k) := ChatName.applyNameOverrideToElement el n in
  (k ≤ 1)%nat ∧ (k = 0%nat → el' = el) ∧ length el' = length el
  ∧ ∃ i, ∀ j, (j ≠ i → el' !! j = el !! j)
              ∧ (ChatName.matched_by <$> el' !! j) = (ChatName.matched_by <$> el !! j)
              ∧ (children <$> el' !! j) = (children <$> el !! j).
Proof.
  unfold ChatName.applyNameOverrideToElement.
  destruct (ChatName.applyNameOverrideLoop _ el n) as [el' k] eqn:H.
  destruct (applyNameOverrideLoop_frame _ _ _ _ _ H)
    as (H1 & H2 & [->|(i & e & e' & Hi & -> & Hm & Hc)]).
  - split; [exact H1|]. split; [exact H2|]. split; [reflexivity|]. now exists 0%nat.
  - split; [exact H1|]. split; [exact H2|]. split; [apply length_insert|].
    exists i. intros j. destruct (decide (j = i)) as [->|Hne].
    + split; [congruence|].
      rewrite list_lookup_insert_eq by (now apply lookup_lt_Some in Hi).
      rewrite Hi. simpl. now rewrite Hm, Hc.
    + rewrite list_lookup_insert_ne by congruence. easy.
Qed.

(** X8.  When the first selector that selects anything in a block selects
    an element without nested elements, one application of a name leaves
    that element holding the name as its whole text, whatever the name,
    white space included; a second application then writes nothing and
    returns the same block. *)
Theorem X8_plain_element_takes_name
    (el : ChatName.mesElement) (i : nat) (e : ChatName.element) (s : jsstring) :
  landing ChatName.selectors el = Some (i, e) → ChatName.noChildren e = true →
  let el' := fst (ChatName.applyNameOverrideToElement el (Some s)) in
  (∃ e', el' !! i = Some e' ∧ ChatName.textContent e' = s
         ∧ ChatName.matched_by e' = ChatName.matched_by e)
  ∧ ChatName.applyNameOverrideToElement el' (Some s) = (el', 0%nat).
Proof.
  intros Hl Hnc el'. subst el'. unfold ChatName.applyNameOverrideToElement.
  pose proof (landing_lookup _ _ _ _ Hl) as Hi.
  rewrite (applyNameOverrideLoop_landing (Some s) _ el i e Hl Hnc).
  destruct (bool_decide (Some (ChatName.textContent e) ≠ Some s)) eqn:Hcmp;
    cbn [fst or_empty].
  - destruct (setTextContent_read s e) as [Hnc' Htext]. split.
    + exists (ChatName.setTextContent s e).
      rewrite list_lookup_insert_eq by (now apply lookup_lt_Some in Hi). now split.
    + rewrite (applyNameOverrideLoop_landing (Some s) _ _ i (ChatName.setTextContent s e)).
      * rewrite Htext. rewrite bool_decide_eq_false_2; [reflexivity|].
        intros Hx. now apply Hx.
      * rewrite (landing_insert _ el i e (ChatName.setTextContent s e) Hi eq_refl), Hl. simpl.
        now rewrite decide_True.
      * exact Hnc'.
  - apply bool_decide_eq_false in Hcmp.
    assert (Ht : ChatName.textContent e = s).
    { destruct (decide (ChatName.textContent e = s)) as [Heq|Hne]; [exact Heq|].
      exfalso. apply Hcmp. congruence. }
    split; [exists e; now split|].
    rewrite (applyNameOverrideLoop_landing (Some s) _ el i e Hl Hnc).
    rewrite bool_decide_eq_false_2; [reflexivity|]. exact Hcmp.
Qed.

Lemma X8_plain_element_takes_name_witness :
  let el' := fst (ChatName.applyNameOverrideToElement
                    (Sample.block "Merrick | The Fool's Gambit") (Some (lit " Bob "))) in
  (∃ e', el' !! 1%nat = Some e' ∧ ChatName.textContent e' = lit " Bob "
         ∧ ChatName.matched_by e'
           = [".ch_name .name_text"; ".name_text"; ".ch_name span"]%string)
  ∧ ChatName.applyNameOverrideToElement el' (Some (lit " Bob ")) = (el', 0%nat).
Proof.
  exact (X8_plain_element_takes_name (Sample.block "Merrick | The Fool's Gambit") 1 _
           (lit " Bob ") eq_refl eq_refl).
Defined.

(** X9.  On any block, a name that is not empty and carries no outer white
    space is written at most once: a second application to the resulting
    block writes nothing and returns that block. *)
Theorem X9_trimmed_name_settles
    (el : ChatName.mesElement) (s : jsstring) :
  trimmed s →
  let el' := fst (ChatName.applyNameOverrideToElement el (Some s)) in
  ChatName.applyNameOverrideToElement el' (Some s) = (el', 0%nat).
Proof.
  intros Hs el'. subst el'. unfold ChatName.applyNameOverrideToElement.
  destruct (ChatName.applyNameOverrideLoop _ el (Some s)) as [el' k] eqn:H.
  exact (applyNameOverrideLoop_settled s _ Hs _ _ _ H).
Qed.

Lemma X9_trimmed_name_settles_witness :
  let el' := fst (ChatName.applyNameOverrideToElement (Sample.iconBlock "Robert") (Some (lit "Bob"))) in
  ChatName.applyNameOverrideToElement el' (Some (lit "Bob")) = (el', 0%nat).
Proof.
  apply (X9_trimmed_name_settles (Sample.iconBlock "Robert") (lit "Bob")).
  split; [discriminate|reflexivity].
Defined.

(** *** The DOM updater on a page *)

Section Updater.
Import ChatName.

Lemma updateUIName_frame id w :
  host (updateUIName id w) = host w ∧ ext (updateUIName id w) = ext w
  ∧ editor (updateUIName id w) = editor w
  ∧ chat_container (doc (updateUIName id w)) = chat_container (doc w)
  ∧ (∀ j, j ≠ id → blockAt j (updateUIName id w) = blockAt j w)
  ∧ (∀ j, is_Some (blockAt j (updateUIName id w)) ↔ is_Some (blockAt j w))
  ∧ (text_writes (doc w) ≤ text_writes (doc (updateUIName id w)) ≤ text_writes (doc w) + 1)%nat
  ∧ (text_writes (doc (updateUIName id w)) = text_writes (doc w) → updateUIName id w = w).
Proof.
  assert (Hsame : ∀ w0 : world, host w0 = host w0 ∧ ext w0 = ext w0 ∧ editor w0 = editor w0
     ∧ chat_container (doc w0) = chat_container (doc w0)
     ∧ (∀ j, j ≠ id → blockAt j w0 = blockAt j w0)
     ∧ (∀ j, is_Some (blockAt j w0) ↔ is_Some (blockAt j w0))
     ∧ (text_writes (doc w0) ≤ text_writes (doc w0) ≤ text_writes (doc w0) + 1)%nat
     ∧ (text_writes (doc w0) = text_writes (doc w0) → w0 = w0)).
  { intros w0. repeat (split; [try reflexivity; try lia; try tauto|]); try reflexivity.
    all: try (intros; reflexivity); try lia. }
  unfold updateUIName.
  destruct (getContext w) as [ctx|]; [|apply Hsame].
  destruct (chat ctx) as [msgs|]; [|apply Hsame].
  destruct (msgs !! id) as [[mj|]|]; try apply Hsame.
  destruct (is_user mj || is_system mj); [apply Hsame|].
  destruct (rendered (doc w) !! id) as [el|] eqn:Hel; [|apply Hsame].
  pose proof (applyNameOverrideLoop_frame (get_name mj) selectors el) as Hfr.
  unfold applyNameOverrideToElement.
  destruct (applyNameOverrideLoop selectors el (get_name mj)) as [el' k].
  destruct (Hfr el' k eq_refl) as (Hk & Hz & _).
  split; [reflexivity|]. split; [reflexivity|]. split; [reflexivity|].
  split; [reflexivity|]. split.
  { intros j Hj. unfold blockAt. simpl. now rewrite lookup_insert_ne. }
  split.
  { intros j. unfold blockAt. simpl. destruct (decide (j = id)) as [->|Hne].
    - rewrite lookup_insert_eq, Hel. split; intros _; now eexists.
    - now rewrite lookup_insert_ne. }
  simpl. split; [lia|]. intros Hw. assert (k = 0%nat) as -> by lia.
  rewrite (Hz eq_refl). unfold upd_doc, add_text_writes, set_rendered. simpl.
  rewrite insert_id by exact Hel. rewrite Nat.add_0_r.
  destruct w as [h d s]. simpl. now destruct d.
Qed.

Lemma updateUIName_again id w :
  (∀ m, msgAt id w = Some (Some m) → ∃ s, get_name m = Some s ∧ trimmed s) →
  updateUIName id (updateUIName id w) = updateUIName id w.
Proof.
  intros Hname. destruct (msgAt id w) as [[m|]|] eqn:Hm.
  - destruct (is_user m || is_system m) eqn:Hf.
    + assert (Hw : updateUIName id w = w).
      { unfold updateUIName, msgAt, getContext in *.
        destruct (host w) as [ctx|]; [|reflexivity].
        destruct (chat ctx) as [msgs|]; [|reflexivity]. now rewrite Hm, Hf. }
      now rewrite !Hw.
    + destruct (Hname m eq_refl) as (s & Hs & Ht).
      apply (updateUIName_shown id m).
      * now rewrite msgAt_updateUIName.
      * now apply (updateUIName_shows id m s).
  - assert (Hw : updateUIName id w = w).
    { unfold updateUIName, msgAt, getContext in *.
      destruct (host w) as [ctx|]; [|reflexivity].
      destruct (chat ctx) as [msgs|]; [|reflexivity]. now rewrite Hm. }
    now rewrite !Hw.
  - assert (Hw : updateUIName id w = w).
    { unfold updateUIName, msgAt, getContext in *.
      destruct (host w) as [ctx|]; [|reflexivity].
      destruct (chat ctx) as [msgs|]; [|reflexivity]. now rewrite Hm. }
    now rewrite !Hw.
Qed.

End Updater.

(** X10.  The DOM updater touches nothing but the block of the message it
    is called for: the host's data, the script's state, the editor panel
    and every other block are left as they are, no block appears or
    disappears, at most one text write is made, and when none is made the
    page is exactly the page before. *)
Theorem X10_updateUIName_frame (id : nat) (w : ChatName.world) :
  let w' := ChatName.updateUIName id w in
  ChatName.host w' = ChatName.host w ∧ ChatName.ext w' = ChatName.ext w
  ∧ editor w' = editor w
  ∧ (∀ j, j ≠ id → blockAt j w' = blockAt j w)
  ∧ (∀ j, is_Some (blockAt j w') ↔ is_Some (blockAt j w))
  ∧ (ChatName.text_writes (ChatName.doc w) ≤ ChatName.text_writes (ChatName.doc w')
     ≤ ChatName.text_writes (ChatName.doc w) + 1)%nat
  ∧ (ChatName.text_writes (ChatName.doc w') = ChatName.text_writes (ChatName.doc w) → w' = w).
Proof.
  intros w'. subst w'.
  destruct (updateUIName_frame id w) as (H1 & H2 & H3 & _ & H5 & H6 & H7 & H8).
  repeat (split; [assumption|]). assumption.
Qed.

(** X11.  When the name field of the message at [id] reads a name that is
    not empty and carries no outer white space, the DOM updater reaches a
    fixed point after one call: called again for the same message, as the
    chat observer does after each write, it leaves the page as it is, any
    number of times. *)
Theorem X11_updateUIName_fixed_point (id n : nat) (w : ChatName.world) :
  (∀ m, msgAt id w = Some (Some m) → ∃ s, ChatName.get_name m = Some s ∧ trimmed s) →
  Nat.iter n (ChatName.updateUIName id) (ChatName.updateUIName id w)
  = ChatName.updateUIName id w.
Proof.
  intros H. induction n as [|n IH]; simpl; [reflexivity|].
  rewrite IH. now apply updateUIName_again.
Qed.

Lemma X11_updateUIName_fixed_point_witness :
  let w := Sample.page [Sample.merrick] (Some 0%nat)
             [Sample.said (Some "merrick.png") "Merrick"] [(0%nat, Sample.iconBlock "Old name")] in
  Nat.iter 5 (ChatName.updateUIName 0) (ChatName.updateUIName 0 w) = ChatName.updateUIName 0 w.
Proof.
  intros w. apply (X11_updateUIName_fixed_point 0 5 w).
  intros m Hm. injection Hm as <-. exists (lit "Merrick").
  split; [reflexivity|]. split; [discriminate|reflexivity].
Defined.

(** *** What the synchronizer leaves alone *)

Section Preserved.
Import ChatName.

Lemma sameAuthor_refl m : sameAuthor m m.
Proof. now repeat split. Qed.

Lemma sameSlot_refl a : sameSlot a a.
Proof. destruct a as [[m|]|]; simpl; [apply sameAuthor_refl|exact I|exact I]. Qed.

Lemma sameSlot_trans a b c : sameSlot a b → sameSlot b c → sameSlot a c.
Proof.
  destruct a as [[m1|]|], b as [[m2|]|], c as [[m3|]|]; simpl; try easy.
  intros (A1 & A2 & A3 & A4 & A5 & A6) (B1 & B2 & B3 & B4 & B5 & B6).
  repeat split; try congruence. intros H. now apply B6, A6.
Qed.

Lemma preserved_refl w : preserved w w.
Proof. repeat split; try reflexivity; try tauto. intros j. apply sameSlot_refl. Qed.

Lemma preserved_trans w1 w2 w3 : preserved w1 w2 → preserved w2 w3 → preserved w1 w3.
Proof.
  intros (A1 & A2 & A3 & A4 & A5 & A6) (B1 & B2 & B3 & B4 & B5 & B6).
  split; [congruence|]. split; [congruence|]. split; [congruence|].
  split; [congruence|]. split.
  - intros j. exact (sameSlot_trans _ _ _ (A5 j) (B5 j)).
  - intros j. rewrite B6. apply A6.
Qed.

Lemma preserved_cache v w : preserved w (upd_ext (set_nameCache v) w).
Proof. repeat split; try reflexivity; try tauto. intros j. apply sameSlot_refl. Qed.

Lemma preserved_cache_insert k v w :
  preserved w (upd_ext (fun s => set_nameCache (<[k:=v]> (nameCache s)) s) w).
Proof. repeat split; try reflexivity; try tauto. intros j. apply sameSlot_refl. Qed.

Lemma preserved_set_name2 v w : preserved w (upd_host (set_name2 v) w).
Proof.
  split; [unfold hostRest; simpl; now destruct (host w)|].
  repeat split; try reflexivity; try tauto.
  intros j. rewrite msgAt_set_name2. apply sameSlot_refl.
Qed.

Lemma preserved_storeMessage id m m' w :
  msgAt id w = Some (Some m) → sameAuthor m m' → preserved w (storeMessage id m' w).
Proof.
  intros Hm Hs. split; [unfold hostRest, storeMessage; simpl; now destruct (host w)|].
  repeat split; try reflexivity; try tauto.
  intros j. destruct (decide (j = id)) as [->|Hne].
  - rewrite msgAt_storeMessage by (rewrite Hm; now eexists). now rewrite Hm.
  - rewrite msgAt_storeMessage_ne by congruence. apply sameSlot_refl.
Qed.

Lemma msgAt_host w w' : host w' = host w → ∀ j, msgAt j w' = msgAt j w.
Proof. intros H j. unfold msgAt. now rewrite H. Qed.

Lemma preserved_updateUIName id w : preserved w (updateUIName id w).
Proof.
  destruct (updateUIName_frame id w) as (H1 & H2 & H3 & H4 & _ & H6 & _).
  split; [unfold hostRest; now rewrite H1|]. split; [unfold flags; now rewrite H2|].
  split; [exact H3|]. split; [exact H4|]. split; [|exact H6].
  intros j. rewrite (msgAt_host _ _ H1). apply sameSlot_refl.
Qed.

Lemma sameAuthor_applyPersistentName m cn : sameAuthor m (applyPersistentName m cn).
Proof.
  destruct (applyPersistentName_avatars m cn) as (H1 & H2 & H3 & H4 & H5).
  repeat split; try assumption.
  unfold applyPersistentName, configurable.
  destruct (processed m || negb (truthy (Some cn))); [easy|].
  now destruct (name m) as [v [|]|].
Qed.

(** The end of the loop body: the override applied, the block patched. *)
Lemma preserved_finish id m cn w1 :
  msgAt id w1 = Some (Some m) →
  preserved w1 (fst (if truthy (Some cn)
                     then (updateUIName id (storeMessage id (applyPersistentName m cn) w1), Ok tt)
                     else (w1, Ok tt : result unit))).
Proof.
  intros Hm. destruct (truthy (Some cn)); simpl; [|apply preserved_refl].
  eapply preserved_trans; [|apply preserved_updateUIName].
  apply (preserved_storeMessage id m); [exact Hm|apply sameAuthor_applyPersistentName].
Qed.

Lemma syncMessage_preserved id w : preserved w (fst (syncMessage id w)).
Proof.
  pose proof (eq_refl (msgAt id w)) as Hm. unfold msgAt at 2 in Hm.
  unfold syncMessage, getContext.
  destruct (host w) as [ctx|] eqn:Hctx; [|apply preserved_refl].
  destruct (chat ctx) as [msgs|] eqn:Hchat; [|apply preserved_refl].
  destruct (msgs !! id) as [[m|]|] eqn:Hid; try apply preserved_refl.
  destruct (is_user m || is_system m); [apply preserved_refl|].
  destruct (cacheGet (nameCache (ext w)) (cacheKey m)) as [cn|].
  - pose proof (preserved_finish id m cn w Hm) as H. now destruct (truthy (Some cn)).
  - fold (getContext w).
    destruct (getCharacterForMessage w (Some m)) as [c|e]; cbn [bind]; [|apply preserved_refl].
    set (w1 := if truthy (cacheKey m) then _ else w).
    assert (H1 : preserved w w1).
    { subst w1. destruct (truthy (cacheKey m)); [apply preserved_cache_insert|apply preserved_refl]. }
    assert (Hm1 : msgAt id w1 = Some (Some m)).
    { subst w1. now destruct (truthy (cacheKey m)). }
    pose proof (preserved_finish id m (getChatName c) w1 Hm1) as H.
    destruct (truthy (Some (getChatName c))); simpl in *;
      exact (preserved_trans _ _ _ H1 H).
Qed.

Lemma forEach_preserved ids : ∀ w, preserved w (fst (forEach syncMessage ids w)).
Proof.
  induction ids as [|j ids IH]; intros w; simpl; [apply preserved_refl|].
  pose proof (syncMessage_preserved j w) as Hj.
  destruct (syncMessage j w) as [w' [[]|e]]; simpl in Hj; [|exact Hj].
  exact (preserved_trans _ _ _ Hj (IH w')).
Qed.

Lemma overrideName2_preserved ctx w : preserved w (overrideName2 ctx w).
Proof.
  unfold overrideName2.
  destruct (characterId ctx); [|apply preserved_refl].
  destruct (negb _); [|apply preserved_refl].
  destruct (_ && _); [apply preserved_set_name2|apply preserved_refl].
Qed.

Lemma syncChatData_preserved w : preserved w (fst (syncChatData w)).
Proof.
  unfold syncChatData.
  destruct (getContext w) as [ctx|]; [|apply preserved_refl].
  destruct (chat ctx) as [msgs|]; [|apply preserved_refl].
  exact (preserved_trans _ _ _ (overrideName2_preserved ctx w) (forEach_preserved _ _)).
Qed.

Lemma updateAllNames_preserved w : preserved w (fst (updateAllNames w)).
Proof.
  unfold updateAllNames.
  exact (preserved_trans _ _ _ (preserved_cache ∅ w) (syncChatData_preserved _)).
Qed.

End Preserved.

Lemma invocations_preserved (w : ChatName.world) (runs : list invocation) :
  preserved w (foldl invoke w runs).
Proof.
  revert w. induction runs as [|i runs IH]; intros w; simpl; [apply preserved_refl|].
  apply (preserved_trans _ (invoke w i)); [|apply IH].
  destruct i as [|j|]; simpl.
  - apply syncChatData_preserved.
  - apply preserved_updateUIName.
  - apply updateAllNames_preserved.
Qed.

(** X12.  Whatever sequence of runs of the synchronizer, of the DOM updater
    and of the full refresh takes place, the page keeps: the host's
    characters, selection, group, macro engines, event subscriptions and
    call log; the script's three flags; the editor panel; the positions of
    the transcript, empty or not, with the avatar fields and the user and
    system flags of every message, a message whose [name] accepted
    [Object.defineProperty] still accepting it; and the set of rendered
    blocks.  Only [name2], the name fields, the texts of the blocks and the
    cache can change. *)
Theorem X12_synchronizer_frame (w : ChatName.world) (runs : list invocation) :
  preserved w (foldl invoke w runs).
Proof. apply invocations_preserved. Qed.

(** *** When the synchronizer completes *)

Section Completes.
Import ChatName.

Lemma split_units sep s : ∀ seg, seg ∈ split sep s → ∀ x, x ∈ seg → x ∈ s.
Proof.
  induction s as [|c s IH]; simpl; intros seg Hseg x Hx.
  - apply list_elem_of_singleton in Hseg. now subst seg.
  - destruct (c =? sep).
    + apply elem_of_cons in Hseg as [->|Hseg]; [now apply elem_of_nil in Hx|].
      apply elem_of_cons. right. exact (IH seg Hseg x Hx).
    + destruct (split sep s) as [|s0 segs] eqn:Hs.
      { now apply split_nonempty in Hs. }
      apply elem_of_cons in Hseg as [->|Hseg].
      * apply elem_of_cons in Hx as [->|Hx]; apply elem_of_cons; [now left|right].
        apply (IH s0); [apply elem_of_cons; now left|exact Hx].
      * apply elem_of_cons. right. apply (IH seg); [apply elem_of_cons; now right|exact Hx].
Qed.

Lemma pop_in (segs : list jsstring) : segs ≠ [] → pop segs ∈ segs.
Proof.
  unfold pop. induction segs as [|a segs IH]; [congruence|]. intros _.
  destruct segs as [|b segs]; [apply elem_of_cons; now left|].
  apply elem_of_cons. right. apply IH. discriminate.
Qed.

Lemma first_in (segs : list jsstring) : segs ≠ [] → first segs ∈ segs.
Proof. destruct segs; [congruence|]. intros _. apply elem_of_cons. now left. Qed.

(** An identifier without a percent sign always normalizes. *)
Lemma normalizeAvatar_clean o : clean o → ∃ a, normalizeAvatar o = Ok a.
Proof.
  intros Hc. unfold normalizeAvatar. destruct (truthy o) eqn:Ht; simpl; [|now eexists].
  destruct o as [s|]; [|discriminate]. simpl.
  eexists. apply decodeURIComponent_plain. intros Hx.
  apply (Hc s eq_refl).
  apply (split_units 0x2F s (pop (split 0x2F s))); [apply pop_in, split_nonempty|].
  apply (split_units 0x3F _ (first (split 0x3F (pop (split 0x2F s)))));
    [apply first_in, split_nonempty|exact Hx].
Qed.

Lemma findByAvatar_clean target cs :
  (∀ c, c ∈ cs → clean (char_avatar c)) → ∃ r, findByAvatar target cs = Ok r.
Proof.
  induction cs as [|c cs IH]; intros Hc; simpl; [now eexists|].
  destruct (normalizeAvatar_clean (char_avatar c)) as [a ->].
  { apply Hc. apply elem_of_cons. now left. }
  simpl. destruct (str_eqb a target); [now eexists|].
  apply IH. intros c' Hc'. apply Hc. apply elem_of_cons. now right.
Qed.

Lemma clean_or_else a b : clean a → clean b → clean (a orElse b).
Proof. intros Ha Hb. unfold or_else. now destruct (truthy a). Qed.

Lemma resolver_clean w m :
  (∀ ctx c, host w = Some ctx → c ∈ characters ctx → clean (char_avatar c)) →
  clean (avatar m) → clean (force_avatar m) → clean (original_avatar m) →
  ∃ c, getCharacterForMessage w (Some m) = Ok c.
Proof.
  intros Hcs H1 H2 H3. unfold getCharacterForMessage, getContext.
  destruct (host w) as [ctx|] eqn:Hctx; [|now eexists].
  specialize (Hcs ctx). 
  assert (Hfind : ∀ t, ∃ r, findByAvatar t (characters ctx) = Ok r).
  { intros t. apply findByAvatar_clean. intros c Hc. now apply Hcs. }
  unfold matchAvatar.
  destruct (normalizeAvatar_clean (avatarOf m)) as [a ->].
  { unfold avatarOf. now repeat apply clean_or_else. }
  cbn [bind].
  assert (Hstep1 : ∃ r, (if truthy (Some a) then findByAvatar a (characters ctx) else Ok None) = Ok r).
  { destruct (truthy (Some a)); [apply Hfind|now eexists]. }
  destruct Hstep1 as [[c|] ->]; cbn [bind]; [now eexists|].
  unfold matchOriginalAvatar.
  assert (Hstep2 : ∃ r, (if truthy (original_avatar m)
                         then bind (normalizeAvatar (original_avatar m))
                                (fun normOrig => findByAvatar normOrig (characters ctx))
                         else Ok None) = Ok r).
  { destruct (truthy (original_avatar m)); [|now eexists].
    destruct (normalizeAvatar_clean (original_avatar m) H3) as [b ->]. cbn [bind].
    apply Hfind. }
  destruct Hstep2 as [[c|] ->]; cbn [bind]; [now eexists|].
  destruct (matchName ctx m); [now eexists|].
  destruct (matchFuzzy ctx m); now eexists.
Qed.

Lemma percentFree_preserved w w' : preserved w w' → percentFree w → percentFree w'.
Proof.
  intros (Hh & _ & _ & _ & Hs & _) [Hc Hm]. split.
  - intros ctx' c Hctx' Hin. unfold hostRest in Hh. rewrite Hctx' in Hh.
    destruct (host w) as [ctx|] eqn:Hctx; [|discriminate]. simpl in Hh.
    injection Hh as Hchars _. apply (Hc ctx c eq_refl). now rewrite <- Hchars.
  - intros j m' Hj. specialize (Hs j). rewrite Hj in Hs.
    destruct (msgAt j w) as [[m|]|] eqn:Hjw; simpl in Hs; try contradiction.
    destruct Hs as (E1 & E2 & E3 & _). rewrite E1, E2, E3. now apply (Hm j m).
Qed.

Lemma ordinary_preserved w w' : preserved w w' → ordinary w → ordinary w'.
Proof.
  intros (_ & _ & _ & _ & Hs & _) Ho j m' Hj. specialize (Hs j). rewrite Hj in Hs.
  destruct (msgAt j w) as [[m|]|] eqn:Hjw; simpl in Hs; try contradiction.
  destruct Hs as (_ & _ & _ & _ & _ & Hc). apply Hc. now apply (Ho j m).
Qed.

Lemma syncMessage_completes id w : percentFree w → snd (syncMessage id w) = Ok tt.
Proof.
  intros [Hc Hmsg].
  pose proof (eq_refl (msgAt id w)) as Hm. unfold msgAt at 2 in Hm.
  unfold syncMessage, getContext.
  destruct (host w) as [ctx|] eqn:Hctx; [|reflexivity].
  destruct (chat ctx) as [msgs|] eqn:Hchat; [|reflexivity].
  destruct (msgs !! id) as [[m|]|] eqn:Hid; try reflexivity.
  destruct (is_user m || is_system m); [reflexivity|].
  destruct (cacheGet (nameCache (ext w)) (cacheKey m)) as [cn|].
  - now destruct (truthy (Some cn)).
  - fold (getContext w). destruct (Hmsg id m Hm) as (H1 & H2 & H3).
    destruct (resolver_clean w m) as [c ->]; try assumption.
    { intros ctx' c' Hctx'. apply Hc. congruence. }
    cbn [bind]. now destruct (truthy (Some (getChatName c))).
Qed.

Lemma forEach_completes ids : ∀ w, percentFree w → snd (forEach syncMessage ids w) = Ok tt.
Proof.
  induction ids as [|j ids IH]; intros w Hp; simpl; [reflexivity|].
  pose proof (syncMessage_completes j w Hp) as Hok.
  pose proof (syncMessage_preserved j w) as Hpr.
  destruct (syncMessage j w) as [w' [[]|e]]; simpl in *; [|discriminate].
  apply IH. exact (percentFree_preserved _ _ Hpr Hp).
Qed.

Lemma syncChatData_completes w : percentFree w → snd (syncChatData w) = Ok tt.
Proof.
  intros Hp. unfold syncChatData.
  destruct (getContext w) as [ctx|]; [|reflexivity].
  destruct (chat ctx) as [msgs|]; [|reflexivity].
  apply forEach_completes.
  exact (percentFree_preserved _ _ (overrideName2_preserved ctx w) Hp).
Qed.

Lemma percentFree_doc f w : percentFree w → percentFree (upd_doc f w).
Proof. intros H. exact H. Qed.

Lemma percentFree_ext f w : percentFree w → percentFree (upd_ext f w).
Proof. intros H. exact H. Qed.

Lemma percentFree_loadChatNameToField w : percentFree w → percentFree (loadChatNameToField w).
Proof. intros H. unfold loadChatNameToField. now destruct (chat_name_input (doc w)). Qed.

Lemma percentFree_addInputField w : percentFree w → percentFree (addInputField w).
Proof.
  intros H. unfold addInputField. destruct (chat_name_input (doc w)); [exact H|].
  destruct (negb _); [exact H|]. now apply percentFree_loadChatNameToField.
Qed.

End Completes.

(** X13.  On a page where no avatar identifier, of a character or of a
    message, holds a percent sign, and whose message objects accept
    [Object.defineProperty] on [name], nothing the script runs on the
    transcript raises: the synchronizer, the full refresh and the handler of
    character changes complete, in any order and any number of times, and
    the page stays such a page. *)
Theorem X13_no_percent_no_exception (w : ChatName.world) (runs : list invocation) :
  percentFree w → ordinary w →
  let w' := foldl invoke w runs in
  percentFree w' ∧ ordinary w'
  ∧ snd (ChatName.syncChatData w') = Ok tt
  ∧ snd (ChatName.updateAllNames w') = Ok tt
  ∧ snd (ChatName.handleCharacterChange w') = Ok tt.
Proof.
  intros Hp Ho w'.
  assert (Hp' : percentFree w').
  { exact (percentFree_preserved _ _ (invocations_preserved w runs) Hp). }
  split; [exact Hp'|].
  split; [exact (ordinary_preserved _ _ (invocations_preserved w runs) Ho)|].
  split; [now apply syncChatData_completes|].
  split; [unfold ChatName.updateAllNames; now apply syncChatData_completes|].
  unfold ChatName.handleCharacterChange.
  pose proof (syncChatData_completes
                (ChatName.upd_ext (ChatName.set_nameCache ∅)
                   (ChatName.loadChatNameToField (ChatName.addInputField w')))) as H.
  unfold ChatName.updateAllNames.
  destruct (ChatName.syncChatData _) as [w2 [[]|e]]; [reflexivity|].
  simpl in H. apply H.
  now apply percentFree_loadChatNameToField, percentFree_addInputField.
Qed.

Lemma X13_no_percent_no_exception_witness :
  let w' := foldl invoke Sample.userChat [SyncChatData; UpdateAllNames] in
  percentFree w' ∧ ordinary w'
  ∧ snd (ChatName.syncChatData w') = Ok tt
  ∧ snd (ChatName.updateAllNames w') = Ok tt
  ∧ snd (ChatName.handleCharacterChange w') = Ok tt.
Proof.
  apply (X13_no_percent_no_exception Sample.userChat [SyncChatData; UpdateAllNames]);
    [split|].
  - intros ctx c H. injection H as <-. simpl. intros Hc.
    apply list_elem_of_singleton in Hc. subst c. intros s Hs. injection Hs as <-. compute_done.
  - intros [|[|j]] m; simpl; intros H; try discriminate; injection H as <-; simpl;
      (split; [|split]); intros s Hs; try discriminate; injection Hs as <-; compute_done.
  - intros [|[|j]] m; simpl; intros H; try discriminate; injection H as <-; reflexivity.
Defined.

(** *** The name of the current character *)

Section Name2.
Import ChatName.

Lemma forEach_cards ids : ∀ w, cards (fst (forEach syncMessage ids w)) = cards w.
Proof.
  induction ids as [|j ids IH]; intros w; simpl; [reflexivity|].
  destruct (syncMessage j w) as [w' r] eqn:Hstep.
  destruct (syncMessage_cache j w w' r Hstep) as (Hc & _).
  destruct r as [[]|e]; simpl; [|exact Hc]. now rewrite IH.
Qed.

Lemma getSelectedCharacter_cards w w' :
  cards w' = cards w → getSelectedCharacter w' = getSelectedCharacter w.
Proof.
  unfold cards, getSelectedCharacter, getContext. intros H.
  destruct (host w') as [c'|], (host w) as [c|]; simpl in H; try discriminate; [|reflexivity].
  injection H as H1 H2 _ _. now rewrite H1, H2.
Qed.

Lemma name2_cards w w' :
  cards w' = cards w → (name2 <$> host w') = (name2 <$> host w).
Proof.
  unfold cards. intros H.
  destruct (host w') as [c'|], (host w) as [c|]; simpl in *; try discriminate; [|reflexivity].
  injection H as _ _ _ H. now rewrite H.
Qed.

Lemma overrideName2_selected ctx w :
  getContext w = Some ctx →
  getSelectedCharacter (overrideName2 ctx w) = getSelectedCharacter w
  ∧ (name2 <$> host (overrideName2 ctx w))
    = Some (if negb (truthy (groupId ctx))
               && truthy (Some (getChatName (getSelectedCharacter w)))
            then Some (getChatName (getSelectedCharacter w)) else name2 ctx).
Proof.
  unfold getContext. intros Hh.
  assert (Hsel : getSelectedCharacter w
                 = match characterId ctx with Some i => characters ctx !! i | None => None end).
  { unfold getSelectedCharacter, getContext. now rewrite Hh. }
  assert (Hset : ∀ v, getSelectedCharacter (upd_host (set_name2 v) w) = getSelectedCharacter w
                      ∧ (name2 <$> host (upd_host (set_name2 v) w)) = Some v).
  { intros v. unfold getSelectedCharacter, getContext. simpl. now rewrite Hh. }
  assert (Hsame : (name2 <$> host w) = Some (name2 ctx)) by now rewrite Hh.
  unfold overrideName2.
  destruct (characterId ctx) as [i|].
  - rewrite Hsel.
    destruct (negb (truthy (groupId ctx))); cbn [andb].
    2:{ split; [exact Hsel|exact Hsame]. }
    destruct (truthy (Some (getChatName (characters ctx !! i)))); cbn [andb].
    2:{ split; [exact Hsel|exact Hsame]. }
    destruct (bool_decide (name2 ctx ≠ Some (getChatName (characters ctx !! i)))) eqn:Hd.
    + destruct (Hset (Some (getChatName (characters ctx !! i)))) as [H1 H2].
      split; [now rewrite H1|exact H2].
    + split; [exact Hsel|]. rewrite Hsame. apply bool_decide_eq_false in Hd.
      destruct (decide (name2 ctx = Some (getChatName (characters ctx !! i)))) as [->|Hne];
        [reflexivity|contradiction].
  - rewrite Hsel. rewrite andb_false_r. split; [reflexivity|exact Hsame].
Qed.

End Name2.

(** X14.  With [getContext()] returning the host's one context object:
    after a run of the synchronizer on a page with a transcript, whether
    the loop over the messages completes or raises: in a one-to-one
    chat whose selected character has a non-empty chat name, the host's
    [name2] is that chat name, which is also what the prompt hook writes
    over a non-empty [name2]; in a group chat, or when that name is empty,
    [name2] is left as it was.  The selected character and its chat name
    are the same before and after. *)
Theorem X14_name2_follows_selected
    (w : ChatName.world) (ctx : ChatName.context) (msgs : list (option ChatName.message)) :
  ChatName.getContext w = Some ctx → ChatName.chat ctx = Some msgs →
  let w' := fst (ChatName.syncChatData w) in
  let chatName := ChatName.getChatName (ChatName.getSelectedCharacter w) in
  ChatName.getSelectedCharacter w' = ChatName.getSelectedCharacter w
  ∧ (truthy (ChatName.groupId ctx) = false → chatName ≠ [] →
     (ChatName.name2 <$> ChatName.host w') = Some (Some chatName)
     ∧ ∀ d, truthy d = true → ChatName.handleGenerateBeforePrompt w' d = Some chatName)
  ∧ (truthy (ChatName.groupId ctx) = true ∨ chatName = [] →
     (ChatName.name2 <$> ChatName.host w') = Some (ChatName.name2 ctx)).
Proof.
  intros Hctx Hchat w' chatName. subst w' chatName.
  unfold ChatName.syncChatData. rewrite Hctx, Hchat.
  destruct (overrideName2_selected ctx w Hctx) as [Hsel Hn2].
  pose proof (forEach_cards (seq 0 (length msgs)) (ChatName.overrideName2 ctx w)) as Hc.
  rewrite (getSelectedCharacter_cards _ _ Hc), (name2_cards _ _ Hc), Hsel, Hn2.
  split; [reflexivity|]. split.
  - intros Hg Hne. apply truthy_Some_nonempty in Hne. rewrite Hg, Hne. simpl.
    split; [reflexivity|]. intros d Hd. unfold ChatName.handleGenerateBeforePrompt.
    rewrite (getSelectedCharacter_cards _ _ Hc), Hsel, Hne, Hd. reflexivity.
  - intros [Hg|He].
    + now rewrite Hg.
    + apply truthy_Some_empty in He. rewrite He. now rewrite andb_false_r.
Qed.

Lemma X14_name2_follows_selected_witness :
  let w' := fst (ChatName.syncChatData Sample.merrickChat) in
  (ChatName.name2 <$> ChatName.host w') = Some (Some (lit "Merrick"))
  ∧ ChatName.handleGenerateBeforePrompt w' (Some (lit "Merrick | The Fool's Gambit"))
    = Some (lit "Merrick").
Proof.
  intros w'.
  destruct (X14_name2_follows_selected Sample.merrickChat _ _ eq_refl eq_refl) as (_ & H & _).
  destruct (H eq_refl ltac:(vm_compute; discriminate)) as [H1 H2].
  split; [exact H1|]. apply H2. reflexivity.
Defined.

(** *** The listeners of the script *)

Section Listeners.
Import ChatName.

Ltac branch H :=
  match type of H with
  | context [if ?b then _ else _] => destruct b eqn:?; simpl in H
  end.

Lemma registerNewEngine_data c c' r :
  registerNewEngine c = (c', r) → hostData c' = hostData c.
Proof.
  unfold registerNewEngine, seqM, theRegistry, hostCall, ret. intros H.
  destruct (macros c ≫= registry) as [reg|] eqn:Hreg; simpl in H.
  - repeat branch H; injection H as <- <-; reflexivity.
  - injection H as <- <-. reflexivity.
Qed.

Lemma newEngineStage_data c : hostData (fst (newEngineStage c)) = hostData c.
Proof.
  unfold newEngineStage. destruct (bool_decide _); [|reflexivity].
  unfold try_catch. destruct (registerNewEngine c) as [c' r] eqn:H.
  apply registerNewEngine_data in H. now destruct r.
Qed.

Lemma legacyStage_data c : hostData (fst (legacyStage c)) = hostData c.
Proof.
  unfold legacyStage. destruct (bool_decide _); [|reflexivity].
  unfold try_catch, registerLegacy, hostCall. now destruct (bool_decide _).
Qed.

Lemma registerMacroOverrides_data w :
  let w' := fst (registerMacroOverrides w) in
  doc w' = doc w ∧ ext w' = ext w ∧ (hostData <$> host w') = (hostData <$> host w).
Proof.
  unfold registerMacroOverrides, getContext.
  destruct (host w) as [ctx|] eqn:Hctx; simpl; [|now rewrite Hctx].
  rewrite registerMacroOverridesCtx_split.
  pose proof (legacyStage_data (fst (newEngineStage ctx))) as H.
  rewrite newEngineStage_data in H.
  destruct (legacyStage _) as [c' r]. simpl in *. now rewrite H.
Qed.

Lemma quiet_refl w : quiet w w.
Proof. now repeat split. Qed.

Lemma quiet_trans w1 w2 w3 : quiet w1 w2 → quiet w2 w3 → quiet w1 w3.
Proof. intros (A1 & A2 & A3) (B1 & B2 & B3). repeat split; congruence. Qed.

Lemma bus_hostRest w w' : hostRest w' = hostRest w → bus w' = bus w.
Proof.
  unfold hostRest, bus. intros H.
  destruct (host w') as [c'|], (host w) as [c|]; simpl in *; try discriminate; [|reflexivity].
  injection H as _ _ _ _ _ H _ _ _. now rewrite H.
Qed.

Lemma preserved_quiet w w' : preserved w w' → quiet w w'.
Proof.
  intros (H1 & H2 & H3 & _). split; [now apply bus_hostRest|]. split; [|exact H3].
  unfold flags in H2. now injection H2.
Qed.

Lemma registerMacroOverrides_quiet w : quiet w (fst (registerMacroOverrides w)).
Proof.
  destruct (registerMacroOverrides_data w) as (H1 & H2 & H3).
  split; [|split].
  - unfold bus. destruct (host (fst (registerMacroOverrides w))) as [c'|], (host w) as [c|];
      simpl in *; try discriminate; [|reflexivity].
    injection H3 as _ _ _ _ _ H _. now rewrite H.
  - now rewrite H2.
  - unfold editor. now rewrite H1.
Qed.

Lemma setupChatObserver_quiet w : quiet w (setupChatObserver w).
Proof. unfold setupChatObserver. destruct (_ || _); now repeat split. Qed.

Lemma handleInput_quiet w : quiet w (handleInput w).
Proof.
  unfold handleInput, getContext.
  destruct (host w) as [ctx|] eqn:Hctx; [|apply quiet_refl].
  destruct (chat_name_input (doc w)); [|apply quiet_refl].
  destruct (characterId ctx); [|apply quiet_refl].
  split; [unfold bus; simpl; now rewrite Hctx|]. now split.
Qed.

Lemma handleInputs_quiet n w : quiet w (Nat.iter n handleInput w).
Proof.
  induction n as [|n IH]; simpl; [apply quiet_refl|].
  exact (quiet_trans _ _ _ IH (handleInput_quiet _)).
Qed.

(** An invariant of the bus and of the editor panel that the steps which
    touch them keep is kept by every event. *)
Section Invariant.

Variable P : world → Prop.
Hypothesis P_quiet : ∀ w w', quiet w w' → P w → P w'.
Hypothesis P_add : ∀ w, P w → P (addInputField w).
Hypothesis P_load : ∀ w, P w → P (loadChatNameToField w).
Hypothesis P_attach : ∀ w, P w → P (fst (attachEventListeners w)).
Hypothesis P_value : ∀ v w, is_Some (chat_name_input (doc w)) → P w →
                            P (upd_doc (set_chat_name_input (Some v)) w).

Lemma handleCharacterChange_inv w : P w → P (fst (handleCharacterChange w)).
Proof.
  intros H. unfold handleCharacterChange.
  pose proof (preserved_quiet _ _ (updateAllNames_preserved (loadChatNameToField (addInputField w)))) as Hq.
  destruct (updateAllNames _) as [w' [[]|e]]; simpl in *.
  - apply (P_quiet w'); [apply setupChatObserver_quiet|].
    apply (P_quiet _ _ Hq). now apply P_load, P_add.
  - apply (P_quiet _ _ Hq). now apply P_load, P_add.
Qed.

Lemma initialize_inv w : P w → P (fst (initialize w)).
Proof.
  intros H. unfold initialize. destruct (initialized (ext w)); [exact H|].
  pose proof (registerMacroOverrides_quiet (addInputField w)) as H1.
  destruct (registerMacroOverrides _) as [w1 r1]. simpl in H1.
  assert (P1 : P w1) by (apply (P_quiet _ _ H1); now apply P_add).
  destruct r1 as [[]|e]; [|exact P1].
  pose proof (P_attach w1 P1) as P2.
  destruct (attachEventListeners w1) as [w2 [[]|e]]; simpl in P2; [|exact P2].
  pose proof (preserved_quiet _ _ (updateAllNames_preserved (setupChatObserver w2))) as H3.
  assert (P3 : P (fst (updateAllNames (setupChatObserver w2)))).
  { apply (P_quiet _ _ H3). apply (P_quiet w2); [apply setupChatObserver_quiet|exact P2]. }
  destruct (updateAllNames _) as [w3 [[]|e]]; simpl in *; [|exact P3].
  apply (P_quiet w3); [now repeat split|exact P3].
Qed.

Lemma dispatch_inv w e : P w → P (dispatch w e).
Proof.
  intros H. destruct e as [|id| |v|]; simpl.
  - exact (P_quiet _ _ (preserved_quiet _ _ (syncChatData_preserved w)) H).
  - destruct (chatObserver (ext w)); [|exact H].
    exact (P_quiet _ _ (preserved_quiet _ _ (preserved_updateUIName id w)) H).
  - now apply handleCharacterChange_inv.
  - destruct (chat_name_input (doc w)) eqn:Hf; [|exact H].
    apply (P_quiet (upd_doc (set_chat_name_input (Some v)) w)); [apply handleInputs_quiet|].
    apply P_value; [rewrite Hf; now eexists|exact H].
  - destruct (getContext w); [|exact H]. now apply initialize_inv.
Qed.

Lemma events_inv es : ∀ w, P w → P (foldl dispatch w es).
Proof.
  induction es as [|e es IH]; intros w H; simpl; [exact H|].
  now apply IH, dispatch_inv.
Qed.

End Invariant.

Lemma editorInv_quiet w w' : quiet w w' → editorInv w → editorInv w'.
Proof.
  intros (_ & _ & He). unfold editorInv, editor in *. injection He as _ H1 H2.
  now rewrite H1, H2.
Qed.

Lemma editorInv_load w : editorInv w → editorInv (loadChatNameToField w).
Proof.
  unfold loadChatNameToField, editorInv. destruct (chat_name_input (doc w)) eqn:Hf; simpl.
  - now intros H.
  - now rewrite Hf.
Qed.

Lemma editorInv_add w : editorInv w → editorInv (addInputField w).
Proof.
  intros H. unfold addInputField. destruct (chat_name_input (doc w)) eqn:Hf; [exact H|].
  destruct (negb (tags_div (doc w))); [exact H|].
  apply editorInv_load. unfold editorInv in *. rewrite Hf in H. simpl. now rewrite H.
Qed.

Lemma attachEventListeners_doc w : doc (fst (attachEventListeners w)) = doc w.
Proof.
  unfold attachEventListeners. destruct (eventListenersAttached (ext w)); [reflexivity|].
  destruct (host w) as [ctx|]; [|reflexivity].
  destruct (eventSource ctx); [|reflexivity]. now destruct (eventTypes ctx).
Qed.

Lemma editorInv_attach w : editorInv w → editorInv (fst (attachEventListeners w)).
Proof. unfold editorInv. now rewrite attachEventListeners_doc. Qed.

Lemma editorInv_value v w :
  is_Some (chat_name_input (doc w)) → editorInv w →
  editorInv (upd_doc (set_chat_name_input (Some v)) w).
Proof. intros [x Hx]. unfold editorInv. rewrite Hx. simpl. now intros H. Qed.

Lemma busInv_quiet subs w w' : quiet w w' → busInv subs w → busInv subs w'.
Proof. intros (H1 & H2 & _). unfold busInv. now rewrite H1, H2. Qed.

Lemma busInv_doc subs f w : busInv subs w → busInv subs (upd_doc f w).
Proof. intros H. exact H. Qed.

Lemma busInv_load subs w : busInv subs w → busInv subs (loadChatNameToField w).
Proof. unfold loadChatNameToField. now destruct (chat_name_input (doc w)). Qed.

Lemma busInv_add subs w : busInv subs w → busInv subs (addInputField w).
Proof.
  intros H. unfold addInputField. destruct (chat_name_input (doc w)); [exact H|].
  destruct (negb _); [exact H|]. now apply busInv_load.
Qed.

Lemma busInv_attach subs w : busInv subs w → busInv subs (fst (attachEventListeners w)).
Proof.
  intros H. unfold attachEventListeners.
  destruct (eventListenersAttached (ext w)) eqn:Hflag; [exact H|].
  destruct (host w) as [ctx|] eqn:Hctx; [|exact H].
  destruct (eventSource ctx) as [before|] eqn:Hes; [|exact H].
  destruct (eventTypes ctx); [|exact H]. simpl.
  destruct H as [[_ Hb]|[Hf _]]; [|congruence].
  right. split; [reflexivity|]. exists before. unfold bus in *. simpl.
  rewrite Hctx in *. simpl in *. rewrite Hes in Hb. now split.
Qed.

End Listeners.

(** X15.  The editor field never has more than one [input] listener:
    starting from a page where the field is absent with no listener, or
    present with one, every sequence of events leaves the field absent with
    no listener or present with exactly one. *)
Theorem X15_one_input_listener (w : ChatName.world) (es : list event) :
  editorInv w →
  let d := ChatName.doc (foldl dispatch w es) in
  (ChatName.input_listeners d ≤ 1)%nat
  ∧ (ChatName.input_listeners d = 1%nat ↔ is_Some (ChatName.chat_name_input d)).
Proof.
  intros H d. subst d.
  pose proof (events_inv editorInv editorInv_quiet editorInv_add editorInv_load
                editorInv_attach editorInv_value es w H) as Hinv.
  unfold editorInv in Hinv.
  destruct (ChatName.chat_name_input _) as [v|]; rewrite Hinv.
  - split; [lia|]. split; [now eexists|reflexivity].
  - split; [lia|]. split; [discriminate|]. now intros [? ?].
Qed.

Lemma X15_one_input_listener_witness :
  let es := [Initialize; CharacterChange; Typed (lit "Rick"); CharacterChange; Initialize] in
  let d := ChatName.doc (foldl dispatch Sample.merrickChat es) in
  (ChatName.input_listeners d ≤ 1)%nat
  ∧ (ChatName.input_listeners d = 1%nat ↔ is_Some (ChatName.chat_name_input d)).
Proof.
  intros es. apply (X15_one_input_listener Sample.merrickChat es). reflexivity.
Defined.

(** X16.  The script's handlers are put on the host's event bus at most
    once: starting from a page where its flag is down, every sequence of
    events leaves the bus either as it was, with the flag still down, or
    with the seven subscriptions of the script added once after those that
    were there, with the flag up. *)
Theorem X16_handlers_subscribed_once (w : ChatName.world) (es : list event) :
  ChatName.eventListenersAttached (ChatName.ext w) = false →
  busInv (bus w) (foldl dispatch w es).
Proof.
  intros H.
  apply (events_inv (busInv (bus w)) (busInv_quiet _) (busInv_add _) (busInv_load _)
           (busInv_attach _) (fun v w0 _ => busInv_doc _ _ w0)).
  left. now split.
Qed.

Lemma X16_handlers_subscribed_once_witness :
  let es := [Initialize; CharacterChange; Initialize; MessageEvent; Initialize] in
  busInv (Some (Some [])) (foldl dispatch Sample.merrickChat es)
  ∧ bus (foldl dispatch Sample.merrickChat es) = Some (Some ChatName.subscriptions).
Proof.
  intros es. split; [|reflexivity].
  apply (X16_handlers_subscribed_once Sample.merrickChat es). reflexivity.
Defined.

(** *** The life of a cached name *)

Section Cache.
Import ChatName.

Lemma syncMessage_cache_grows id w :
  nameCache (ext w) ⊆ nameCache (ext (fst (syncMessage id w))).
Proof.
  unfold syncMessage.
  destruct (getContext w) as [ctx|]; [|reflexivity].
  destruct (chat ctx) as [msgs|]; [|reflexivity].
  destruct (msgs !! id) as [[m|]|]; try reflexivity.
  destruct (is_user m || is_system m); [reflexivity|].
  assert (Hfin : ∀ cn w1,
            ext (fst (if truthy (Some cn)
                      then (updateUIName id (storeMessage id (applyPersistentName m cn) w1), Ok tt)
                      else (w1, Ok tt : result unit))) = ext w1).
  { intros cn w1. destruct (truthy (Some cn)); [|reflexivity]. simpl.
    now rewrite ext_updateUIName. }
  destruct (cacheGet (nameCache (ext w)) (cacheKey m)) as [cn|] eqn:Hget.
  - specialize (Hfin cn w). destruct (truthy (Some cn)); simpl in *;
      [now rewrite Hfin|reflexivity].
  - destruct (getCharacterForMessage w (Some m)) as [c|e]; cbn [bind]; [|reflexivity].
    set (w1 := if truthy (cacheKey m) then _ else w).
    assert (H1 : nameCache (ext w) ⊆ nameCache (ext w1)).
    { subst w1. destruct (truthy (cacheKey m)) eqn:Hk; [|reflexivity]. simpl.
      destruct (cacheKey m) as [k|]; [|discriminate]. simpl in *.
      now apply insert_subseteq. }
    specialize (Hfin (getChatName c) w1).
    destruct (truthy (Some (getChatName c))); simpl in *; [now rewrite Hfin|exact H1].
Qed.

Lemma forEach_cache_grows ids : ∀ w,
  nameCache (ext w) ⊆ nameCache (ext (fst (forEach syncMessage ids w))).
Proof.
  induction ids as [|j ids IH]; intros w; simpl; [reflexivity|].
  pose proof (syncMessage_cache_grows j w) as Hj.
  destruct (syncMessage j w) as [w' [[]|e]]; simpl in *; [|exact Hj].
  now transitivity (nameCache (ext w')).
Qed.

Lemma ext_overrideName2 ctx w : ext (overrideName2 ctx w) = ext w.
Proof.
  unfold overrideName2. destruct (characterId ctx); [|reflexivity].
  destruct (negb _); [|reflexivity]. now destruct (_ && _).
Qed.

Lemma syncChatData_cache_grows w :
  nameCache (ext w) ⊆ nameCache (ext (fst (syncChatData w))).
Proof.
  unfold syncChatData.
  destruct (getContext w) as [ctx|]; [|reflexivity].
  destruct (chat ctx) as [msgs|]; [|reflexivity].
  rewrite <- (ext_overrideName2 ctx w) at 1. apply forEach_cache_grows.
Qed.

Lemma ext_handleInput w : ext (handleInput w) = ext w.
Proof.
  unfold handleInput. destruct (getContext w) as [ctx|]; [|reflexivity].
  destruct (chat_name_input (doc w)); [|reflexivity].
  now destruct (characterId ctx).
Qed.

Lemma ext_handleInputs n w : ext (Nat.iter n handleInput w) = ext w.
Proof. induction n as [|n IH]; simpl; [reflexivity|]. now rewrite ext_handleInput. Qed.

Lemma dispatch_cache_grows e w :
  keepsCache e = true → nameCache (ext w) ⊆ nameCache (ext (dispatch w e)).
Proof.
  destruct e as [|id| |v|]; simpl; try discriminate; intros _.
  - apply syncChatData_cache_grows.
  - destruct (chatObserver (ext w)); [|reflexivity]. now rewrite ext_updateUIName.
  - destruct (chat_name_input (doc w)); [|reflexivity]. now rewrite ext_handleInputs.
Qed.

End Cache.

(** X17.  A cached name stays, under its key and unchanged, through every
    sequence of message events, observer reports and edits of the override
    in the editor field: the synchronizer only adds names under keys that
    have none, and nothing but the full refresh, run by a chat or character
    change and by [initialize], clears the cache.  An override typed in the
    editor does not reach a name already cached. *)
Theorem X17_cached_name_stays
    (w : ChatName.world) (es : list event) (k v : jsstring) :
  forallb keepsCache es = true →
  ChatName.nameCache (ChatName.ext w) !! k = Some v →
  ChatName.nameCache (ChatName.ext (foldl dispatch w es)) !! k = Some v.
Proof.
  revert w. induction es as [|e es IH]; intros w Hes Hk; simpl; [exact Hk|].
  simpl in Hes. apply andb_true_iff in Hes as [He Hes].
  apply IH; [exact Hes|].
  exact (lookup_weaken _ _ _ _ Hk (dispatch_cache_grows e w He)).
Qed.

Lemma X17_cached_name_stays_witness :
  let w := fst (ChatName.initialize Sample.merrickChat) in
  let es := [Typed (lit "Rick"); MessageEvent; Observed 0] in
  ChatName.getChatName (ChatName.getSelectedCharacter (foldl dispatch w es)) = lit "Rick"
  ∧ ChatName.nameCache (ChatName.ext (foldl dispatch w es)) !! lit "merrick.png"
    = Some (lit "Merrick").
Proof.
  intros w es. split; [vm_compute; reflexivity|].
  apply (X17_cached_name_stays w es); [reflexivity|vm_compute; reflexivity].
Defined.

(** *** The synchronizer over time *)

(** X18.  On a page whose names carry no outer white space (card names,
    cached names and the names installed on processed messages) and whose
    message objects are ordinary ones, a run of the synchronizer that
    completes is followed by a run that completes too and changes neither
    the document, text writes included, nor the host's data. *)
Theorem X18_second_run_changes_nothing (w : ChatName.world) :
  tidy w → snd (ChatName.syncChatData w) = Ok tt →
  let w1 := fst (ChatName.syncChatData w) in
  snd (ChatName.syncChatData w1) = Ok tt
  ∧ ChatName.doc (fst (ChatName.syncChatData w1)) = ChatName.doc w1
  ∧ ChatName.host (fst (ChatName.syncChatData w1)) = ChatName.host w1.
Proof.
  intros Ht Hok w1. subst w1.
  destruct (ChatName.syncChatData w) as [w1 r] eqn:H. simpl in *. subst r.
  destruct (syncChatData_second_run_silent w w1 Ht H) as (w2 & -> & Hd & Hh).
  now repeat split.
Qed.

Lemma X18_second_run_changes_nothing_witness :
  let w1 := fst (ChatName.syncChatData Sample.merrickChat) in
  snd (ChatName.syncChatData w1) = Ok tt
  ∧ ChatName.doc (fst (ChatName.syncChatData w1)) = ChatName.doc w1
  ∧ ChatName.host (fst (ChatName.syncChatData w1)) = ChatName.host w1.
Proof.
  apply (X18_second_run_changes_nothing Sample.merrickChat tidy_merrickChat).
  vm_compute. reflexivity.
Defined.

(** X19.  A message object that is in the weak set of processed messages
    is never written again: whatever sequence of runs of the synchronizer,
    of the DOM updater and of the full refresh takes place, the object at
    its position is the same, with the name its accessor was installed
    for. *)
Theorem X19_processed_message_is_final
    (w : ChatName.world) (id : nat) (m : ChatName.message) (runs : list invocation) :
  ChatName.processed m = true → msgAt id w = Some (Some m) →
  msgAt id (foldl invoke w runs) = Some (Some m).
Proof. intros Hp Hm. now apply processed_message_frozen. Qed.

Lemma X19_processed_message_is_final_witness :
  let w := fst (ChatName.syncChatData Sample.merrickChat) in
  let runs := [UpdateAllNames; SyncChatData; UpdateUIName 0] in
  msgAt 0 (foldl invoke (typeChatName (lit "Rick") w) runs) = msgAt 0 w.
Proof.
  intros w runs.
  exact (X19_processed_message_is_final (typeChatName (lit "Rick") w) 0
           (ChatName.applyPersistentName
              (Sample.said (Some "merrick.png") "Merrick | The Fool's Gambit") (lit "Merrick"))
           runs eq_refl eq_refl).
Defined.

(** X20.  After a full refresh, complete or cut short by an exception,
    every name in the cache is the name the resolver and [getChatName] give
    now, with the overrides the characters hold now, for a message of the
    transcript with that cache key: nothing older survives the clear. *)
Theorem X20_refresh_caches_current_names (w : ChatName.world) (k v : jsstring) :
  ChatName.nameCache (ChatName.ext (fst (ChatName.updateAllNames w))) !! k = Some v →
  resolvedNow w k v.
Proof.
  destruct (ChatName.updateAllNames w) as [w' r] eqn:H. simpl.
  now apply (cache_after_clear w w' r H).
Qed.

Lemma X20_refresh_caches_current_names_witness :
  resolvedNow (typeChatName (lit "Rick") (fst (ChatName.syncChatData Sample.merrickChat)))
    (lit "merrick.png") (lit "Rick").
Proof.
  apply X20_refresh_caches_current_names. vm_compute. reflexivity.
Defined.

(** *** Waiting for the host *)

Lemma maxAttempts_value : ChatName.INIT_TIMEOUT / ChatName.INIT_CHECK_INTERVAL = 100.
Proof. reflexivity. Qed.

(** X21.  While the page has no context, the poller counts its firings and
    stays armed through the first ninety-nine; the hundredth disarms it,
    and no later firing does anything.  The page is never touched. *)
Theorem X21_poller_gives_up (w : ChatName.world) (n : nat) :
  ChatName.getContext w = None →
  poll n {| ChatName.attempts := 0; ChatName.armed := true |} w
  = ({| ChatName.attempts := N.of_nat (Nat.min n 100); ChatName.armed := (n <? 100)%nat |}, w).
Proof.
  intros Hctx. unfold poll. induction n as [|n IH]; [reflexivity|].
  rewrite Nat.iter_succ, IH. unfold ChatName.tick. cbn [ChatName.armed ChatName.attempts].
  rewrite Hctx, maxAttempts_value.
  destruct (Nat.ltb_spec n 100) as [Hlt|Hge]; cbn [negb].
  - rewrite (Nat.min_l n 100) by lia.
    destruct (Nat.ltb_spec (S n) 100) as [Hlt'|Hge'].
    + rewrite (Nat.min_l (S n) 100) by lia.
      destruct (N.leb_spec 100 (N.of_nat n + 1)) as [Hc|Hc]; [lia|].
      f_equal. f_equal. lia.
    + rewrite (Nat.min_r (S n) 100) by lia.
      destruct (N.leb_spec 100 (N.of_nat n + 1)) as [Hc|Hc]; [|lia].
      f_equal. f_equal. lia.
  - rewrite (Nat.min_r n 100), (Nat.min_r (S n) 100) by lia.
    destruct (Nat.ltb_spec (S n) 100) as [Hlt'|Hge']; [lia|reflexivity].
Qed.

Lemma X21_poller_gives_up_witness :
  ChatName.armed (fst (poll 99 {| ChatName.attempts := 0; ChatName.armed := true |}
                         Sample.loadingPage)) = true
  ∧ poll 1000 {| ChatName.attempts := 0; ChatName.armed := true |} Sample.loadingPage
    = ({| ChatName.attempts := 100; ChatName.armed := false |}, Sample.loadingPage).
Proof.
  split.
  - now rewrite (X21_poller_gives_up Sample.loadingPage 99 eq_refl).
  - exact (X21_poller_gives_up Sample.loadingPage 1000 eq_refl).
Defined.

(** X22.  On a page with a context the first firing of the poller disarms
    it and calls [initialize]; no later firing calls it again, so it is
    called exactly once, whether it completes or raises. *)
Theorem X22_poller_initializes_once (w : ChatName.world) (n : nat) :
  is_Some (ChatName.getContext w) →
  poll (S n) {| ChatName.attempts := 0; ChatName.armed := true |} w
  = ({| ChatName.attempts := 1; ChatName.armed := false |}, fst (ChatName.initialize w)).
Proof.
  intros [ctx Hctx]. unfold poll. induction n as [|n IH].
  - simpl. unfold ChatName.tick. simpl. rewrite Hctx.
    now destruct (ChatName.initialize w) as [w' r].
  - rewrite Nat.iter_succ, IH. reflexivity.
Qed.

Lemma X22_poller_initializes_once_witness :
  poll 3 {| ChatName.attempts := 0; ChatName.armed := true |} Sample.merrickChat
  = ({| ChatName.attempts := 1; ChatName.armed := false |},
     fst (ChatName.initialize Sample.merrickChat)).
Proof.
  apply (X22_poller_initializes_once Sample.merrickChat 2). now eexists.
Defined.

(** *** The character hook *)

Section Hook.
Import CardHook.

Lemma hook_again c : hook (hook c) = hook c.
Proof. unfold hook. destruct (_chatNameHooked c) eqn:H; [now rewrite H|reflexivity]. Qed.

Lemma hook_chatName c : chatName (hook c) = chatName c.
Proof. unfold hook. now destruct (_chatNameHooked c). Qed.

Lemma cardName_hook c : hook_inv c → cardName (hook c) = cardName c.
Proof.
  intros Hinv. unfold hook, cardName. destruct (_chatNameHooked c); [reflexivity|]. simpl.
  unfold get_name. destruct (name c) eqn:Hn.
  - destruct Hinv as [H|H]; [congruence|]. now rewrite H.
  - simpl. now destruct (truthy (_originalName c)).
Qed.

Lemma get_name_plain_read c : get_name false c = cardName c.
Proof. unfold get_name, cardName. now destruct (name c). Qed.

Lemma getCurrentCharacter_hooked w i c :
  getCurrentCharacter w = Some (i, c) →
  getCurrentCharacter (hookCharacterName w) = Some (i, hook c).
Proof.
  intros H. unfold hookCharacterName. rewrite H.
  unfold getCurrentCharacter in *. simpl.
  destruct (negb (has_context w)); [discriminate|].
  destruct (characterId w) as [j|]; [|discriminate].
  destruct (characters w !! j) as [x|] eqn:Hx; [|discriminate].
  injection H as -> ->. rewrite list_lookup_insert_eq; [reflexivity|].
  now apply lookup_lt_Some in Hx.
Qed.

Lemma hookCharacterName_again w : hookCharacterName (hookCharacterName w) = hookCharacterName w.
Proof.
  destruct (getCurrentCharacter w) as [[i c]|] eqn:H.
  - unfold hookCharacterName at 1. rewrite (getCurrentCharacter_hooked w i c H).
    rewrite hook_again. unfold hookCharacterName. rewrite H. unfold set_characters. simpl.
    now rewrite list_insert_insert_eq.
  - unfold hookCharacterName. now rewrite H, H.
Qed.

Lemma getChatName_stack w : getChatName true w = getChatName false w.
Proof.
  unfold getChatName. destruct (getCurrentCharacter w) as [[i c]|]; [|reflexivity].
  unfold or_else at 1 3. destruct (truthy (trimmedChatName c)) eqn:Ht; [reflexivity|].
  unfold get_name. now rewrite Ht.
Qed.

End Hook.

Section Hook2.
Import CardHook.

Lemma loadChatNameToField_hook w :
  loadChatNameToField (hookCharacterName w) = hookCharacterName (loadChatNameToField w).
Proof.
  unfold loadChatNameToField.
  assert (Hf : chat_name_input (hookCharacterName w) = chat_name_input w).
  { unfold hookCharacterName. now destruct (getCurrentCharacter w) as [[i c]|]. }
  assert (Hl : input_listeners (hookCharacterName w) = input_listeners w).
  { unfold hookCharacterName. now destruct (getCurrentCharacter w) as [[i c]|]. }
  rewrite Hf, Hl. destruct (chat_name_input w) as [v|]; [|reflexivity].
  destruct (getCurrentCharacter w) as [[i c]|] eqn:Hc.
  - rewrite (getCurrentCharacter_hooked w i c Hc), hook_chatName.
    unfold hookCharacterName.
    assert (Hc' : getCurrentCharacter (set_input (Some (or_empty (chatName c orElse Some []))) (input_listeners w) w) = Some (i, c)) by exact Hc.
    now rewrite Hc, Hc'.
  - assert (Hw : hookCharacterName w = w) by (unfold hookCharacterName; now rewrite Hc).
    rewrite Hw, Hc. unfold hookCharacterName.
    assert (Hc' : getCurrentCharacter (set_input (Some []) (input_listeners w) w) = None) by exact Hc.
    now rewrite Hc'.
Qed.

Lemma loadChatNameToField_again w :
  loadChatNameToField (loadChatNameToField w) = loadChatNameToField w.
Proof.
  unfold loadChatNameToField. destruct (chat_name_input w) as [v|] eqn:Hv; [|now rewrite Hv].
  destruct (getCurrentCharacter w) as [[i c]|] eqn:Hc; simpl.
  - assert (Hc' : getCurrentCharacter (set_input (Some (or_empty (chatName c orElse Some []))) (input_listeners w) w) = Some (i, c)) by exact Hc.
    now rewrite Hc'.
  - assert (Hc' : getCurrentCharacter (set_input (Some []) (input_listeners w) w) = None) by exact Hc.
    now rewrite Hc'.
Qed.

Lemma loadChatNameToField_none w :
  chat_name_input (loadChatNameToField w) = None → chat_name_input w = None.
Proof.
  unfold loadChatNameToField. destruct (chat_name_input w) eqn:Hv; [|reflexivity].
  now destruct (getCurrentCharacter w) as [[i c]|].
Qed.

Lemma loadChatNameToField_tags w : tags_div (loadChatNameToField w) = tags_div w.
Proof.
  unfold loadChatNameToField. destruct (chat_name_input w); [|reflexivity].
  now destruct (getCurrentCharacter w) as [[i c]|].
Qed.

Lemma addInputField_none w :
  chat_name_input (addInputField w) = None → tags_div (addInputField w) = false.
Proof.
  unfold addInputField. destruct (chat_name_input w) eqn:Hv; [congruence|].
  destruct (tags_div w) eqn:Ht; simpl; [|now intros _].
  intros H. apply loadChatNameToField_none in H. discriminate.
Qed.

Lemma addInputField_load w :
  addInputField (loadChatNameToField (addInputField w)) = loadChatNameToField (addInputField w).
Proof.
  unfold addInputField at 1.
  destruct (chat_name_input (loadChatNameToField (addInputField w))) eqn:Hf; [reflexivity|].
  apply loadChatNameToField_none, addInputField_none in Hf.
  now rewrite loadChatNameToField_tags, Hf.
Qed.

Lemma addInputField_hook w : addInputField w = w → addInputField (hookCharacterName w) = hookCharacterName w.
Proof.
  unfold addInputField.
  assert (Hf : chat_name_input (hookCharacterName w) = chat_name_input w).
  { unfold hookCharacterName. now destruct (getCurrentCharacter w) as [[i c]|]. }
  assert (Ht : tags_div (hookCharacterName w) = tags_div w).
  { unfold hookCharacterName. now destruct (getCurrentCharacter w) as [[i c]|]. }
  rewrite Hf, Ht. destruct (chat_name_input w) eqn:Hv; [reflexivity|].
  destruct (negb (tags_div w)); [reflexivity|].
  intros H. exfalso. apply (f_equal chat_name_input) in H. rewrite Hv in H.
  revert H. unfold loadChatNameToField. simpl. now destruct (getCurrentCharacter _) as [[i c]|].
Qed.

Lemma handleCharacterChange_again w :
  handleCharacterChange (handleCharacterChange w) = handleCharacterChange w.
Proof.
  unfold handleCharacterChange.
  set (l := loadChatNameToField (addInputField w)).
  rewrite (addInputField_hook l) by apply addInputField_load.
  rewrite loadChatNameToField_hook. subst l. rewrite loadChatNameToField_again.
  apply hookCharacterName_again.
Qed.
End Hook2.

(** X23.  Once [hookCharacterName] has put its accessor on a character
    that was not hooked, a read of [name] from outside the macro code gives
    the card name; a read from the macro code gives the trimmed override, or
    the card name when the override is blank; an assignment to [name]
    replaces the card name and leaves the override in force for the macro
    code; and hooking again changes nothing. *)
Theorem X23_hooked_name_reads (c : CardHook.character) :
  hook_inv c → CardHook._chatNameHooked c = false →
  let h := CardHook.hook c in
  let shown := if truthy (CardHook.trimmedChatName c)
               then CardHook.trimmedChatName c else cardName c in
  CardHook.get_name false h = cardName c
  ∧ CardHook.get_name true h = shown
  ∧ (∀ val, CardHook.get_name false (CardHook.set_name val h) = val
            ∧ CardHook.get_name true (CardHook.set_name val h)
              = if truthy (CardHook.trimmedChatName c)
                then CardHook.trimmedChatName c else val)
  ∧ CardHook.hook h = h ∧ CardHook.chatName h = CardHook.chatName c.
Proof.
  intros Hinv Hflag h shown. subst h shown.
  pose proof (cardName_hook c Hinv) as Hcard.
  split; [now rewrite get_name_plain_read|].
  split; [|split; [|split; [apply hook_again|apply hook_chatName]]].
  - revert Hcard. unfold CardHook.hook, CardHook.get_name, cardName, CardHook.trimmedChatName.
    rewrite Hflag. simpl. intros ->. reflexivity.
  - intros val. unfold CardHook.hook, CardHook.get_name, CardHook.set_name,
      CardHook.trimmedChatName. rewrite Hflag. simpl. now split.
Qed.

Lemma X23_hooked_name_reads_witness :
  let h := CardHook.hook (Sample.hookCard (Some " Merrick ")) in
  CardHook.get_name false h = Some (lit "Merrick | The Fool's Gambit")
  ∧ CardHook.get_name true h = Some (lit "Merrick")
  ∧ CardHook.get_name false (CardHook.set_name (Some (lit "Merrick II")) h)
    = Some (lit "Merrick II")
  ∧ CardHook.get_name true (CardHook.set_name (Some (lit "Merrick II")) h)
    = Some (lit "Merrick").
Proof.
  intros h.
  destruct (X23_hooked_name_reads (Sample.hookCard (Some " Merrick "))
              (or_intror eq_refl) eq_refl) as (H1 & H2 & H3 & _).
  split; [exact H1|]. split; [exact H2|]. exact (H3 (Some (lit "Merrick II"))).
Defined.

(** X24.  Hooking the current character does not change what the macro
    handler [getChatName] returns, and the hooked [name], read from the
    macro code, gives that same string: the registered macro and the
    accessor agree on the name. *)
Theorem X24_macro_sources_agree
    (w : CardHook.world) (i : nat) (c : CardHook.character) (fromMacros : bool) :
  CardHook.getCurrentCharacter w = Some (i, c) → hook_inv c →
  CardHook._chatNameHooked c = false →
  let w' := CardHook.hookCharacterName w in
  CardHook.getChatName fromMacros w' = CardHook.getChatName fromMacros w
  ∧ or_empty (CardHook.get_name true (CardHook.hook c)) = CardHook.getChatName fromMacros w'.
Proof.
  intros Hc Hinv Hflag w'. subst w'.
  unfold CardHook.getChatName. rewrite (getCurrentCharacter_hooked w i c Hc), Hc.
  unfold CardHook.hook, CardHook.get_name, CardHook.trimmedChatName. rewrite Hflag. simpl.
  unfold or_else. destruct (truthy (trim <$> CardHook.chatName c)) eqn:Ht; simpl; [easy|].
  rewrite andb_false_r.
  destruct (CardHook.name c) eqn:Hn.
  - destruct Hinv as [H|H]; [congruence|]. rewrite H. simpl.
    destruct (truthy value); now split.
  - destruct (truthy (CardHook._originalName c)) eqn:Ho; simpl; rewrite ?Ho; now split.
Qed.

Lemma X24_macro_sources_agree_witness :
  let w := Sample.hookPage [Sample.hookCard (Some " Merrick ")] in
  CardHook.getChatName false (CardHook.hookCharacterName w) = CardHook.getChatName false w
  ∧ or_empty (CardHook.get_name true (CardHook.hook (Sample.hookCard (Some " Merrick "))))
    = CardHook.getChatName false (CardHook.hookCharacterName w).
Proof.
  intros w.
  exact (X24_macro_sources_agree w 0 (Sample.hookCard (Some " Merrick ")) false
           eq_refl (or_intror eq_refl) eq_refl).
Defined.

Section Hook3.
Import CardHook.

Lemma hookCharacterName_characters w j :
  match characters (hookCharacterName w) !! j with
  | Some c' => ∃ c, characters w !! j = Some c
                    ∧ (c' = c ∨ (characterId w = Some j ∧ c' = hook c))
  | None => characters w !! j = None
  end.
Proof.
  unfold hookCharacterName.
  destruct (getCurrentCharacter w) as [[i c]|] eqn:Hc; simpl.
  - unfold getCurrentCharacter in Hc. destruct (negb (has_context w)); [discriminate|].
    destruct (characterId w) as [k|]; [|discriminate].
    destruct (characters w !! k) as [x|] eqn:Hx; [|discriminate]. injection Hc as -> ->.
    destruct (decide (j = i)) as [->|Hne].
    + rewrite list_lookup_insert_eq by (now apply lookup_lt_Some in Hx).
      exists c. split; [exact Hx|]. right. now split.
    + rewrite list_lookup_insert_ne by congruence.
      destruct (characters w !! j) as [y|]; [|reflexivity]. exists y. split; [reflexivity|now left].
  - destruct (characters w !! j) as [y|]; [|reflexivity]. exists y. split; [reflexivity|now left].
Qed.

End Hook3.

(** X25.  [hookCharacterName] keeps the character list in place: no
    character is added, removed or moved, none loses or gains an override,
    every card name is kept, and only the current character can change at
    all. *)
Theorem X25_hook_keeps_names (w : CardHook.world) (j : nat) :
  let w' := CardHook.hookCharacterName w in
  length (CardHook.characters w') = length (CardHook.characters w)
  ∧ match CardHook.characters w' !! j with
    | Some c' => ∃ c, CardHook.characters w !! j = Some c
                      ∧ CardHook.chatName c' = CardHook.chatName c
                      ∧ (hook_inv c → cardName c' = cardName c ∧ hook_inv c')
                      ∧ (CardHook.characterId w ≠ Some j → c' = c)
    | None => CardHook.characters w !! j = None
    end.
Proof.
  intros w'. subst w'. split.
  - unfold CardHook.hookCharacterName.
    destruct (CardHook.getCurrentCharacter w) as [[i c]|]; [|reflexivity].
    simpl. apply length_insert.
  - pose proof (hookCharacterName_characters w j) as H.
    destruct (CardHook.characters (CardHook.hookCharacterName w) !! j) as [c'|]; [|exact H].
    destruct H as (c & Hc & [->|[Hid ->]]); exists c.
    + split; [exact Hc|]. now repeat split.
    + split; [exact Hc|]. split; [apply hook_chatName|]. split.
      * intros Hinv. split; [now apply cardName_hook|now apply hook_inv_hook].
      * congruence.
Qed.

(** X26.  [handleCharacterChange] of the character-hook script is
    idempotent: run twice in a row, for a chat change followed by a
    character selection, it leaves the page as one run does. *)
Theorem X26_character_change_idempotent (w : CardHook.world) :
  CardHook.handleCharacterChange (CardHook.handleCharacterChange w)
  = CardHook.handleCharacterChange w.
Proof. apply handleCharacterChange_again. Qed.

(** X27.  The macro handler [getChatName] of the character-hook script
    does not depend on the call stack: it returns the same string whether
    or not the accessor sees the macro code above it. *)
Theorem X27_handler_ignores_call_stack (w : CardHook.world) :
  CardHook.getChatName true w = CardHook.getChatName false w.
Proof. apply getChatName_stack. Qed.

(** *** The override typed in the editor *)



(** *** The listeners of the character-hook script *)

Section HookListeners.
Import CardHook.

Ltac branch H :=
  match type of H with
  | context [if ?b then _ else _] => destruct b eqn:?; simpl in H
  end.

Variable subs : option (list (eventType * handler)).

Lemma hookListenersInv_same w w' :
  hookListeners w' = hookListeners w →
  is_Some (chat_name_input w') ↔ is_Some (chat_name_input w) →
  hookListenersInv subs w → hookListenersInv subs w'.
Proof.
  unfold hookListeners, hookListenersInv. intros H Hf. injection H as _ H1 H2 H3 _.
  rewrite H1, H2, H3. intros [He Hb]. split; [|exact Hb].
  destruct (chat_name_input w') as [v'|], (chat_name_input w) as [v|]; try exact He.
  - destruct Hf as [Hf _]. destruct Hf as [? ?]; [now eexists|discriminate].
  - destruct Hf as [_ Hf]. destruct Hf as [? ?]; [now eexists|discriminate].
Qed.

Lemma registerNewSystem_listeners w w' r :
  registerNewSystem w = (w', r) →
  hookListeners w' = hookListeners w ∧ chat_name_input w' = chat_name_input w
  ∧ characters w' = characters w ∧ characterId w' = characterId w.
Proof.
  unfold registerNewSystem, seqM, hostCall, ret. intros H.
  repeat branch H; injection H as <- <-; now repeat split.
Qed.

Lemma hookCharacterName_listeners w :
  hookListeners (hookCharacterName w) = hookListeners w
  ∧ chat_name_input (hookCharacterName w) = chat_name_input w.
Proof. unfold hookCharacterName. now destruct (getCurrentCharacter w) as [[i c]|]. Qed.

Lemma registerMacroOverrides_listeners w :
  hookListeners (fst (registerMacroOverrides w)) = hookListeners w
  ∧ chat_name_input (fst (registerMacroOverrides w)) = chat_name_input w.
Proof.
  destruct (has_context w) eqn:Hc.
  2:{ unfold registerMacroOverrides. now rewrite Hc. }
  rewrite (registerMacroOverrides_split w Hc). simpl.
  destruct (hookCharacterName_listeners (fst (oldSystemStage (fst (newSystemStage w))))) as [-> ->].
  assert (H1 : hookListeners (fst (newSystemStage w)) = hookListeners w
               ∧ chat_name_input (fst (newSystemStage w)) = chat_name_input w).
  { unfold newSystemStage. destruct (bool_decide _); [|now split].
    unfold try_catch. destruct (registerNewSystem w) as [w' r] eqn:H.
    apply registerNewSystem_listeners in H as (H1 & H2 & _). now destruct r. }
  assert (H2 : ∀ v, hookListeners (fst (oldSystemStage v)) = hookListeners v
                    ∧ chat_name_input (fst (oldSystemStage v)) = chat_name_input v).
  { intros v. unfold oldSystemStage. destruct (bool_decide _); [|now split].
    unfold try_catch, registerOldSystem, hostCall. now destruct (bool_decide _). }
  destruct (H2 (fst (newSystemStage w))) as [-> ->]. exact H1.
Qed.

Lemma handleInputChange_listeners w :
  hookListeners (handleInputChange w) = hookListeners w
  ∧ chat_name_input (handleInputChange w) = chat_name_input w.
Proof.
  unfold handleInputChange. destruct (has_context w); [|now split].
  destruct (characterId w); [|now split].
  destruct (chat_name_input w) eqn:Hv; simpl; rewrite ?Hv; now split.
Qed.

Lemma handleInputChanges_listeners n w :
  hookListeners (Nat.iter n handleInputChange w) = hookListeners w
  ∧ chat_name_input (Nat.iter n handleInputChange w) = chat_name_input w.
Proof.
  induction n as [|n [IH1 IH2]]; simpl; [now split|].
  destruct (handleInputChange_listeners (Nat.iter n handleInputChange w)) as [-> ->].
  now split.
Qed.

Lemma hookListenersInv_load w :
  hookListenersInv subs w → hookListenersInv subs (loadChatNameToField w).
Proof.
  unfold loadChatNameToField. destruct (chat_name_input w) eqn:Hv; [|easy].
  unfold hookListenersInv. rewrite Hv.
  now destruct (getCurrentCharacter w) as [[i c]|].
Qed.

Lemma hookListenersInv_add w :
  hookListenersInv subs w → hookListenersInv subs (addInputField w).
Proof.
  intros H. unfold addInputField. destruct (chat_name_input w) eqn:Hv; [exact H|].
  destruct (negb (tags_div w)); [exact H|].
  apply hookListenersInv_load. unfold hookListenersInv in *. rewrite Hv in H. simpl.
  destruct H as [-> Hb]. now split.
Qed.

Lemma hookListenersInv_hook w :
  hookListenersInv subs w → hookListenersInv subs (hookCharacterName w).
Proof.
  destruct (hookCharacterName_listeners w) as [H1 H2].
  apply hookListenersInv_same; [exact H1|now rewrite H2].
Qed.

Lemma hookListenersInv_macros w :
  hookListenersInv subs w → hookListenersInv subs (fst (registerMacroOverrides w)).
Proof.
  destruct (registerMacroOverrides_listeners w) as [H1 H2].
  apply hookListenersInv_same; [exact H1|now rewrite H2].
Qed.

Lemma hookListenersInv_attach w :
  hookListenersInv subs w → hookListenersInv subs (fst (attachEventListeners w)).
Proof.
  intros H. unfold attachEventListeners.
  destruct (eventListenersAttached w) eqn:Hflag; [exact H|].
  destruct (negb (has_context w)); [exact H|].
  destruct (eventSource w) as [before|] eqn:Hes; [|exact H].
  destruct (event_types w); [|exact H]. simpl.
  destruct H as [He [[_ Hb]|[Hf _]]]; [|congruence].
  split; [exact He|]. right. split; [reflexivity|]. exists before.
  split; [congruence|reflexivity].
Qed.

Lemma hookInitialize_inv w :
  hookListenersInv subs w → hookListenersInv subs (fst (initialize w)).
Proof.
  intros H. unfold initialize. destruct (initialized w); [exact H|].
  unfold seqM. simpl.
  pose proof (hookListenersInv_macros _ (hookListenersInv_add w H)) as H1.
  destruct (registerMacroOverrides (addInputField w)) as [w1 [[]|e]]; simpl in H1; [|exact H1].
  pose proof (hookListenersInv_attach w1 H1) as H2.
  destruct (attachEventListeners w1) as [w2 [[]|e]]; simpl in H2; [|exact H2].
  exact H2.
Qed.

Lemma hookDispatch_inv w e :
  hookListenersInv subs w → hookListenersInv subs (hookDispatch w e).
Proof.
  intros H. destruct e as [|v|]; simpl.
  - unfold handleCharacterChange.
    now apply hookListenersInv_hook, hookListenersInv_load, hookListenersInv_add.
  - destruct (chat_name_input w) eqn:Hv; [|exact H].
    destruct (handleInputChanges_listeners (input_listeners w)
                (set_input (Some v) (input_listeners w) w)) as [H1 H2].
    apply (hookListenersInv_same _ _ H1); [now rewrite H2|].
    unfold hookListenersInv in *. rewrite Hv in H. exact H.
  - destruct (has_context w); [|exact H]. now apply hookInitialize_inv.
Qed.

End HookListeners.

Lemma hookEvents_inv subs es : ∀ w,
  hookListenersInv subs w → hookListenersInv subs (foldl hookDispatch w es).
Proof.
  induction es as [|e es IH]; intros w H; simpl; [exact H|].
  now apply IH, hookDispatch_inv.
Qed.

(** X29.  In the character-hook script too the listeners are put in at
    most once: starting from a page where the editor field is absent with
    no listener, or present with one, and where the subscription flag is
    down, every sequence of events leaves the field with exactly one
    [input] listener when it exists and none when it does not, and the bus
    as it was or with the script's two subscriptions added once. *)
Theorem X29_hook_listeners_once (w : CardHook.world) (es : list hookEvent) :
  match CardHook.chat_name_input w with
  | Some _ => CardHook.input_listeners w = 1%nat
  | None => CardHook.input_listeners w = 0%nat
  end →
  CardHook.eventListenersAttached w = false →
  hookListenersInv (CardHook.eventSource w) (foldl hookDispatch w es).
Proof.
  intros He Hf. apply hookEvents_inv. split; [exact He|]. left. now split.
Qed.

Lemma X29_hook_listeners_once_witness :
  let w := Sample.hookPage [Sample.hookCard (Some "Merrick")] in
  let es := [HookInitialize; HookCharacterChange; HookTyped (lit "Rick"); HookInitialize;
             HookCharacterChange] in
  hookListenersInv (Some []) (foldl hookDispatch w es)
  ∧ CardHook.input_listeners (foldl hookDispatch w es) = 1%nat.
Proof.
  intros w es. split; [|reflexivity].
  apply (X29_hook_listeners_once w es); reflexivity.
Defined.
